(** * Mython: the indentation-aware lexer and the tree-walking evaluator

    A shallow embedding of [mython/lexer.cpp] (namespace [parse]), of the
    statement evaluator (namespace [ast]) and of the object model (namespace
    [runtime]), together with the properties of the specification that are
    settled on it.

    Conventions of the embedding.
    - A C++ [char] is an [ascii]; the value that [istream::peek] and
      [istream::get] return at the end of the input, [traits::eof()] = -1,
      becomes the character 255 once it is stored in a [char].
    - An [int] is a [Z].  The counters of the lexer are not bounded (the
      embedding is exact for inputs shorter than 2^31 characters); the
      arithmetic of the evaluator reports a result outside the range of [int]
      as undefined behaviour.
    - [assert] is modelled as compiled in: a failed assertion ends the
      program, which is the outcome [AssertionFailed].
    - Exceptions are explicit outcomes; the state reached when an exception
      is thrown is kept, since output already written stays written. *)

From Stdlib Require Import ZArith Lia Ascii String List Bool.
From stdpp Require Import base option list gmap strings pretty.

Local Open Scope Z_scope.
Local Open Scope list_scope.
#[local] Set Warnings "-register-all".

(** ** Characters and the input stream *)

Definition EOF_char : ascii := ascii_of_nat 255.
Definition LF : ascii := ascii_of_nat 10.
Definition CR : ascii := ascii_of_nat 13.
Definition TAB : ascii := ascii_of_nat 9.
Definition DQUOTE : ascii := ascii_of_nat 34.

(** The one-character string of a line break. *)
Definition nl : string := String.String LF EmptyString.

Definition char_eqb (a b : ascii) : bool := Ascii.eqb a b.

Lemma char_eqb_eq (a b : ascii) : char_eqb a b = true <-> a = b.
Proof. apply Ascii.eqb_eq. Qed.

Lemma char_eqb_refl (a : ascii) : char_eqb a a = true.
Proof. apply Ascii.eqb_refl. Qed.

Lemma char_eqb_neq (a b : ascii) : char_eqb a b = false <-> a <> b.
Proof. apply Ascii.eqb_neq. Qed.

(** [std::istream] over a fixed buffer: the characters not yet read, and the
    [eofbit], which a read attempt at the end of the buffer sets and which
    stays set.  The [istreambuf_iterator] of [LoadStringToken] reads the
    buffer directly and leaves the bit alone. *)
Record istream : Type := mk_istream { rdbuf : list ascii; eofbit : bool }.

Definition peek (s : istream) : ascii * istream :=
  if eofbit s then (EOF_char, s)
  else match rdbuf s with
       | [] => (EOF_char, mk_istream [] true)
       | c :: _ => (c, s)
       end.

Definition get (s : istream) : ascii * istream :=
  if eofbit s then (EOF_char, s)
  else match rdbuf s with
       | [] => (EOF_char, mk_istream [] true)
       | c :: rest => (c, mk_istream rest false)
       end.

Definition eof (s : istream) : bool := eofbit s.

(** The loop [c = peek(); while (p(c)) { get(); c = peek(); }] on a buffer:
    the characters consumed and the stream after the last [peek].  Every
    predicate the lexer loops on is false on [EOF_char], so the loop stops at
    the end of the buffer, where the last [peek] has set the [eofbit]. *)
Fixpoint scan_buf (p : ascii -> bool) (buf : list ascii) : list ascii * istream :=
  match buf with
  | [] => ([], mk_istream [] true)
  | c :: rest =>
      if p c then let '(taken, s') := scan_buf p rest in (c :: taken, s')
      else ([], mk_istream buf false)
  end.

Definition scan_while (p : ascii -> bool) (s : istream) : list ascii * istream :=
  if eofbit s then ([], s) else scan_buf p (rdbuf s).

Definition is_space (c : ascii) : bool := char_eqb c " ".
Definition not_newline (c : ascii) : bool := negb (char_eqb c LF).

(** ** Tokens *)

Module token_type.
Inductive Token : Type :=
| Number (value : Z)
| Id (value : string)
| Char (value : ascii)
| String (value : string)
| Class | Return | If | Else | Def | Newline | Print | Indent | Dedent
| And | Or | Not | Eq | NotEq | LessOrEq | GreaterOrEq | None | True | False
| Eof.
End token_type.

Definition Token : Type := token_type.Token.

Module parse.

(** What a call of the lexer ends in. *)
Inductive result (A : Type) : Type :=
| Ok (a : A)
| LexerError (what : string)      (* throw LexerError(what) *)
| StdOutOfRange                   (* std::out_of_range thrown by std::stoi *)
| AssertionFailed                 (* assert(counter % 2 == 0) *)
| OutOfFuel.
Arguments Ok {A} a.
Arguments LexerError {A} what.
Arguments StdOutOfRange {A}.
Arguments AssertionFailed {A}.
Arguments OutOfFuel {A}.

Definition KEY_WORDS_TOKENS (s : string) : option Token :=
  if String.eqb s "class" then Some token_type.Class
  else if String.eqb s "return" then Some token_type.Return
  else if String.eqb s "if" then Some token_type.If
  else if String.eqb s "else" then Some token_type.Else
  else if String.eqb s "def" then Some token_type.Def
  else if String.eqb s "print" then Some token_type.Print
  else if String.eqb s "or" then Some token_type.Or
  else if String.eqb s "None" then Some token_type.None
  else if String.eqb s "and" then Some token_type.And
  else if String.eqb s "not" then Some token_type.Not
  else if String.eqb s "True" then Some token_type.True
  else if String.eqb s "False" then Some token_type.False
  else None.

Definition char_in_range (lo hi c : ascii) : bool :=
  (N.leb (N_of_ascii lo) (N_of_ascii c) && N.leb (N_of_ascii c) (N_of_ascii hi))%bool.

Definition IsStringOpening (c : ascii) : bool :=
  (char_eqb c "'" || char_eqb c DQUOTE)%bool.

Definition IsDigit (c : ascii) : bool := char_in_range "0" "9" c.

Definition IsIdOpening (c : ascii) : bool :=
  (char_in_range "A" "Z" c || char_in_range "a" "z" c || char_eqb c "_")%bool.

Definition IsIdCharacter (c : ascii) : bool := (IsIdOpening c || IsDigit c)%bool.

(** The escapes of a string literal: the character after the backslash and
    what it stands for. *)
Definition escaped (c : ascii) : option ascii :=
  if char_eqb c "n" then Some LF
  else if char_eqb c "t" then Some TAB
  else if char_eqb c "'" then Some "'"%char
  else if char_eqb c DQUOTE then Some DQUOTE
  else None.

(** The [while (true)] loop of [LoadStringToken], over the stream buffer. *)
Fixpoint read_string_literal (open_quote : ascii) (buf : list ascii) (s : list ascii)
  : result (list ascii * list ascii) :=
  match buf with
  | [] => LexerError "String parsing error"
  | ch :: rest =>
      if char_eqb ch open_quote then Ok (s, rest)
      else if char_eqb ch "\" then
        match rest with
        | [] => LexerError "String parsing error"
        | escaped_char :: rest' =>
            match escaped escaped_char with
            | Some c => read_string_literal open_quote rest' (s ++ [c])
            | None =>
                LexerError ("Unrecognized escape sequence \" ++ String.String escaped_char EmptyString)
            end
        end
      else if (char_eqb ch LF || char_eqb ch CR)%bool then
        LexerError "Unexpected end of line"
      else read_string_literal open_quote rest (s ++ [ch])
  end.

(** [LoadStringToken] is entered with the opening quote as the next
    character, which [input >> open_quote] reads. *)
Definition LoadStringToken (input : istream) : result (Token * istream) :=
  let '(open_quote, input1) := get input in
  match read_string_literal open_quote (rdbuf input1) [] with
  | Ok (s, rest) =>
      Ok (token_type.String (string_of_list_ascii s), mk_istream rest (eofbit input1))
  | LexerError what => LexerError what
  | StdOutOfRange => StdOutOfRange
  | AssertionFailed => AssertionFailed
  | OutOfFuel => OutOfFuel
  end.

Definition digit_value (c : ascii) : Z := Z.of_N (N_of_ascii c) - 48.

Definition decimal_value (digits : list ascii) : Z :=
  fold_left (fun acc c => 10 * acc + digit_value c) digits 0.

Definition INT_MAX : Z := 2147483647.
Definition INT_MIN : Z := -2147483648.

(** [std::stoi] on a run of digits, which is not empty where the lexer calls
    it: the value, or [std::out_of_range] when it does not fit an [int]. *)
Definition stoi (digits : list ascii) : result Z :=
  let v := decimal_value digits in
  if Z.leb v INT_MAX then Ok v else StdOutOfRange.

Definition LoadNumberToken (input : istream) : result (Token * istream) :=
  let '(s, input1) := scan_while IsDigit input in
  match stoi s with
  | Ok v => Ok (token_type.Number v, input1)
  | LexerError what => LexerError what
  | StdOutOfRange => StdOutOfRange
  | AssertionFailed => AssertionFailed
  | OutOfFuel => OutOfFuel
  end.

Definition LoadIdToken (input : istream) : Token * istream :=
  let '(s, input1) := scan_while IsIdCharacter input in
  match KEY_WORDS_TOKENS (string_of_list_ascii s) with
  | Some kw => (kw, input1)
  | None => (token_type.Id (string_of_list_ascii s), input1)
  end.

Definition LoadOperatorsToken (input : istream) : Token * istream :=
  let '(c1, input1) := get input in
  if (char_eqb c1 "=" || char_eqb c1 "!" || char_eqb c1 ">" || char_eqb c1 "<")%bool then
    let '(c2, input2) := peek input1 in
    if char_eqb c2 "=" then
      let input3 := snd (get input2) in
      if char_eqb c1 "=" then (token_type.Eq, input3)
      else if char_eqb c1 "!" then (token_type.NotEq, input3)
      else if char_eqb c1 ">" then (token_type.GreaterOrEq, input3)
      else (token_type.LessOrEq, input3)
    else (token_type.Char c1, input2)
  else (token_type.Char c1, input1).

(** *** The lexer object *)

Record Lexer : Type := mk_Lexer {
  input_ : istream;
  tokens_ : list Token;
  current_indent_ : Z;
  new_line_ : bool
}.

Definition is_Newline (t : Token) : bool :=
  match t with token_type.Newline => true | _ => false end.
Definition is_Dedent (t : Token) : bool :=
  match t with token_type.Dedent => true | _ => false end.
Definition is_Indent (t : Token) : bool :=
  match t with token_type.Indent => true | _ => false end.
Definition is_Eof (t : Token) : bool :=
  match t with token_type.Eof => true | _ => false end.

(** [tokens_.back().Is<T>()], false on an empty buffer (where the code
    tests [tokens_.empty()] first). *)
Definition back_is (p : Token -> bool) (tokens : list Token) : bool :=
  match last tokens with Some t => p t | None => false end.

Definition empty (tokens : list Token) : bool :=
  match tokens with [] => true | _ => false end.

(** Whether a [peek] on this buffer has found the end. *)
Definition empty_buffer (buf : list ascii) : bool :=
  match buf with [] => true | _ => false end.

Definition CalculateIndent (lx : Lexer) : result Lexer :=
  let '(spaces, input1) := scan_while is_space (input_ lx) in
  let counter := Z.of_nat (length spaces) in
  let c := fst (peek input1) in
  if char_eqb c LF then
    Ok (mk_Lexer input1 (tokens_ lx) (current_indent_ lx) (new_line_ lx))
  else if negb (Z.eqb (Z.rem counter 2) 0) then AssertionFailed
  else
    let indent :=
      if Z.ltb (current_indent_ lx) (Z.quot counter 2)
      then token_type.Indent else token_type.Dedent in
    let n := Z.abs (Z.quot counter 2 - current_indent_ lx) in
    Ok (mk_Lexer input1
          (tokens_ lx ++ repeat indent (Z.to_nat n))
          (current_indent_ lx + (Z.quot counter 2 - current_indent_ lx))
          false).

(** Lines 272-280: the token produced once the end of the input is
    reached. *)
Definition eof_token (tokens : list Token) : Token :=
  if empty tokens then token_type.Eof
  else if (back_is is_Newline tokens || back_is is_Dedent tokens)%bool
  then token_type.Eof
  else token_type.Newline.

Definition lift_result {A B : Type} (r : result A) (k : A -> result B) : result B :=
  match r with
  | Ok a => k a
  | LexerError what => LexerError what
  | StdOutOfRange => StdOutOfRange
  | AssertionFailed => AssertionFailed
  | OutOfFuel => OutOfFuel
  end.

(** [LoadToken] calls itself after a line break that produces no token; each
    such call has consumed the line break, so the fuel needed is bounded by
    the length of the input (see [LoadToken_total]). *)
Fixpoint LoadToken (fuel : nat) (lx : Lexer) : result (Token * Lexer) :=
  match fuel with
  | O => OutOfFuel
  | S fuel' =>
      lift_result (if new_line_ lx then CalculateIndent lx else Ok lx) (fun lx1 =>
      let input1 := snd (scan_while is_space (input_ lx1)) in
      let c := fst (peek input1) in
      let input2 := if char_eqb c "#" then snd (scan_while not_newline input1) else input1 in
      let '(c, input3) := peek input2 in
      if char_eqb c LF then
        let lx2 := mk_Lexer (snd (get input3)) (tokens_ lx1) (current_indent_ lx1) true in
        if (empty (tokens_ lx1) || back_is is_Newline (tokens_ lx1))%bool
        then LoadToken fuel' lx2
        else Ok (token_type.Newline, lx2)
      else
        let with_input (i : istream) :=
          mk_Lexer i (tokens_ lx1) (current_indent_ lx1) (new_line_ lx1) in
        if eof input3 then Ok (eof_token (tokens_ lx1), with_input input3)
        else if IsStringOpening c then
          lift_result (LoadStringToken input3) (fun '(t, i) => Ok (t, with_input i))
        else if IsDigit c then
          lift_result (LoadNumberToken input3) (fun '(t, i) => Ok (t, with_input i))
        else if IsIdOpening c then
          let '(t, i) := LoadIdToken input3 in Ok (t, with_input i)
        else
          let '(t, i) := LoadOperatorsToken input3 in Ok (t, with_input i))
  end.

(** One call of [LoadToken] as the constructor makes it. *)
Definition LoadToken1 (lx : Lexer) : result (Token * Lexer) :=
  LoadToken (S (length (rdbuf (input_ lx)))) lx.

Definition push_back (lx : Lexer) (t : Token) : Lexer :=
  mk_Lexer (input_ lx) (tokens_ lx ++ [t]) (current_indent_ lx) (new_line_ lx).

(** The loop of the constructor. *)
Fixpoint fill (fuel : nat) (lx : Lexer) : result Lexer :=
  match fuel with
  | O => OutOfFuel
  | S fuel' =>
      if (empty (tokens_ lx) || negb (back_is is_Eof (tokens_ lx)))%bool then
        lift_result (LoadToken1 lx) (fun '(t, lx1) => fill fuel' (push_back lx1 t))
      else Ok lx
  end.

(** Modelled from the spec: the initial values of the members, which
    [lexer.h] declares, are [current_indent_ = 0] and [new_line_ = true]
    ("current_indent (integer, start 0) and at_line_start (boolean, start
    true)"). *)
Definition initial (input : list ascii) : Lexer :=
  mk_Lexer (mk_istream input false) [] 0 true.

Definition new_Lexer (input : list ascii) : result Lexer :=
  fill (2 * length input + 4) (initial input).

(** The token buffer the constructor leaves for a source text. *)
Definition tokenize (source : string) : result (list Token) :=
  lift_result (new_Lexer (list_ascii_of_string source)) (fun lx => Ok (tokens_ lx)).

Definition CurrentToken (lx : Lexer) : option Token := head (tokens_ lx).

Definition NextToken (lx : Lexer) : Lexer * option Token :=
  let lx' :=
    if Nat.ltb 1 (length (tokens_ lx))
    then mk_Lexer (input_ lx) (tail (tokens_ lx)) (current_indent_ lx) (new_line_ lx)
    else lx in
  (lx', CurrentToken lx').

End parse.

(** ** The object model and the syntax tree

    [Statement] (namespace [ast]), [Class] and [Method] and the objects an
    [ObjectHolder] refers to (namespace [runtime]) are declared together,
    since a method owns its body, [NewInstance] refers to a class and
    [ClassDefinition] holds a class object.

    A [ClassInstance] is known by the class it was made from, which never
    changes, and by the location of its field map in the heap: two holders of
    one instance see the same fields.  An [ObjectHolder] is empty, owns its
    object ([ObjectHolder::Own]) or refers to an object owned elsewhere
    ([ObjectHolder::Share]).

    The model does not follow the lifetime of the instances.  In the program
    an instance is destroyed with the last holder that owns it, and a holder
    that shares it is then left dangling; the model keeps every field map.
    So the model describes the executions in which each instance that is
    reached is still alive, and says nothing of the others, which use an
    object after it was destroyed. *)

(** The six comparators of [runtime] that a [Comparison] node is built with. *)
Inductive Comparator : Type :=
| CmpEqual | CmpNotEqual | CmpLess | CmpGreater | CmpLessOrEqual | CmpGreaterOrEqual.

Inductive Statement : Type :=
| Assignment (var_ : string) (rv_ : Statement)
| VariableValue (ids_ : list string)
| Print (args_ : list Statement)
| MethodCall (object_ : Statement) (method_ : string) (args_ : list Statement)
| Stringify (argument_ : Statement)
| Add (lhs_ rhs_ : Statement)
| Sub (lhs_ rhs_ : Statement)
| Mult (lhs_ rhs_ : Statement)
| Div (lhs_ rhs_ : Statement)
| Compound (stmts_ : list Statement)
| Return (statement_ : Statement)
| ClassDefinition (cls_ : ObjectHolder)
| FieldAssignment (object_ : list string) (field_name_ : string) (rv_ : Statement)
| IfElse (condition_ if_body_ : Statement) (else_body_ : option Statement)
| Or (lhs_ rhs_ : Statement)
| And (lhs_ rhs_ : Statement)
| Not (argument_ : Statement)
| Comparison (cmp_ : Comparator) (lhs_ rhs_ : Statement)
| NewInstance (class_ : Class) (args_ : list Statement)
| MethodBody (body_ : Statement)
with Class : Type :=
| mk_Class (name_ : string) (methods_ : list Method) (parent_ : option Class)
with Method : Type :=
| mk_Method (name : string) (formal_params : list string) (body : Statement)
with Object : Type :=
| Number (value : Z)
| String (value : string)
| Bool (value : bool)
| ClassObject (cls : Class)
| ClassInstance (class_ : Class) (fields_ : nat)
with ObjectHolder : Type :=
| Empty
| Own (object : Object)
| Share (object : Object).

Abbreviation Closure := (gmap string ObjectHolder).

Definition Method_name (m : Method) : string :=
  match m with mk_Method name _ _ => name end.
Definition Method_formal_params (m : Method) : list string :=
  match m with mk_Method _ formal_params _ => formal_params end.
Definition Method_body (m : Method) : Statement :=
  match m with mk_Method _ _ body => body end.
Definition Class_methods (c : Class) : list Method :=
  match c with mk_Class _ methods _ => methods end.
Definition Class_parent (c : Class) : option Class :=
  match c with mk_Class _ _ parent => parent end.

(** The state that all frames share: the field maps of the instances, by
    location, and the text written so far to the output stream of the
    [Context]. *)
Record World : Type := mk_World { heap : list Closure; output : string }.

(** How a call ends when it does not return normally. *)
Inductive Failure : Type :=
| RuntimeError (what : string)          (* throw std::runtime_error(what) *)
| ReturnException (result : ObjectHolder) (* throw ReturnException(result) *)
| AssertionFailed                       (* a failed assert *)
| UndefinedBehaviour                    (* null pointer dereferenced, int overflow *)
| OutOfFuel.

Inductive Outcome (A : Type) : Type :=
| Normal (a : A)
| Fail (f : Failure).
Arguments Normal {A} a.
Arguments Fail {A} f.

(** Computations on a state [S] that may fail; a failure keeps the state it
    happened in. *)
Definition M (S A : Type) : Type := S -> Outcome A * S.

Definition ret {S A : Type} (a : A) : M S A := fun s => (Normal a, s).
Definition fail {S A : Type} (f : Failure) : M S A := fun s => (Fail f, s).
Definition throw {S A : Type} (what : string) : M S A := fail (RuntimeError what).
Definition bind {S A B : Type} (m : M S A) (k : A -> M S B) : M S B :=
  fun s => match m s with
           | (Normal a, s') => k a s'
           | (Fail f, s') => (Fail f, s')
           end.

Declare Scope mython_scope.
Delimit Scope mython_scope with mython.
Notation "'let*' x ':=' m 'in' k" := (bind m (fun x => k))
  (at level 10, x name, m at level 100, k at level 200) : mython_scope.
Notation "'let*' ' p ':=' m 'in' k" := (bind m (fun p => k))
  (at level 10, p strict pattern, m at level 100, k at level 200) : mython_scope.
Local Open Scope mython_scope.

(** [a && b] and [a || b] on calls that may fail: the right operand runs
    only when the left one does not decide. *)
Definition and_then {S : Type} (a b : M S bool) : M S bool :=
  let* x := a in if x then b else ret false.
Definition or_else {S : Type} (a b : M S bool) : M S bool :=
  let* x := a in if x then ret true else b.
Definition not_ {S : Type} (a : M S bool) : M S bool :=
  let* x := a in ret (negb x).

(** A call made in a frame that does not touch the closure of the frame. *)
Definition lift {A : Type} (m : M World A) : M (Closure * World) A :=
  fun s => let '(r, w) := m (snd s) in (r, (fst s, w)).

Definition get_closure : M (Closure * World) Closure := fun s => (Normal (fst s), s).
Definition set_closure (c : Closure) : M (Closure * World) unit :=
  fun s => (Normal tt, (c, snd s)).
Definition get_world {S : Type} : M S S := fun s => (Normal s, s).

(** *** Holders *)

Definition Get (h : ObjectHolder) : option Object :=
  match h with Empty => None | Own o => Some o | Share o => Some o end.

(** [operator bool]. *)
Definition has_object (h : ObjectHolder) : bool :=
  match h with Empty => false | _ => true end.

(** [ObjectHolder::Share] applied to the object of [h].  On an empty holder
    the argument is a null reference; the holder made from it holds the null
    pointer and tests empty. *)
Definition Share_of (h : ObjectHolder) : ObjectHolder :=
  match Get h with Some o => Share o | None => Empty end.

Definition TryAs_Bool (h : ObjectHolder) : option bool :=
  match Get h with Some (Bool b) => Some b | _ => None end.
Definition TryAs_Number (h : ObjectHolder) : option Z :=
  match Get h with Some (Number n) => Some n | _ => None end.
Definition TryAs_String (h : ObjectHolder) : option string :=
  match Get h with Some (String s) => Some s | _ => None end.
Definition TryAs_Class (h : ObjectHolder) : option Class :=
  match Get h with Some (ClassObject c) => Some c | _ => None end.
Definition TryAs_ClassInstance (h : ObjectHolder) : option (Class * nat) :=
  match Get h with Some (ClassInstance c l) => Some (c, l) | _ => None end.

(** [p->GetValue()] on the result of a [TryAs]: a null pointer is
    dereferenced when the cast failed. *)
Definition GetValue {S A : Type} (p : option A) : M S A :=
  match p with Some a => ret a | None => fail UndefinedBehaviour end.

Definition in_int_range (z : Z) : bool :=
  (Z.leb parse.INT_MIN z && Z.leb z parse.INT_MAX)%bool.

(** An [int] computed by the evaluator. *)
Definition int_result {S : Type} (z : Z) : M S ObjectHolder :=
  if in_int_range z then ret (Own (Number z)) else fail UndefinedBehaviour.

(** *** The heap and the output stream *)

(** [instance.Fields()]: the field map at a location. *)
Definition Fields (loc : nat) : M World Closure :=
  fun w => match heap w !! loc with
           | Some fields => (Normal fields, w)
           | None => (Fail UndefinedBehaviour, w)
           end.

(** [instance.Fields()[field_name] = value]. *)
Definition store_field (loc : nat) (field_name : string) (value : ObjectHolder)
  : M World unit :=
  fun w => match heap w !! loc with
           | Some fields =>
               (Normal tt,
                mk_World (<[loc := <[field_name := value]> fields]> (heap w)) (output w))
           | None => (Fail UndefinedBehaviour, w)
           end.

(** A new instance: its field map is empty.  The location is the next one
    of the heap of the model, which is never given twice; the program may
    place an instance where a destroyed one was. *)
Definition allocate : M World nat :=
  fun w => (Normal (length (heap w)), mk_World (heap w ++ [∅]) (output w)).

(** [context.GetOutputStream() << text]. *)
Definition write_output (text : string) : M World unit :=
  fun w => (Normal tt, mk_World (heap w) (output w ++ text)).

(** ** Namespace [runtime] *)

Module runtime.

Definition IsTrue (object : ObjectHolder) : bool :=
  match TryAs_Bool object with
  | Some b => b
  | None =>
      match TryAs_Number object with
      | Some n => negb (Z.eqb n 0)
      | None =>
          match TryAs_String object with
          | Some s => negb (String.eqb s "")
          | None => false
          end
      end
  end.

Definition GetName (c : Class) : string :=
  match c with mk_Class name _ _ => name end.

Fixpoint GetMethod (c : Class) (name : string) : option Method :=
  match c with
  | mk_Class _ methods parent =>
      match List.find (fun m => String.eqb (Method_name m) name) methods with
      | Some method => Some method
      | None =>
          match parent with
          | Some p => GetMethod p name
          | None => None
          end
      end
  end.

(** [ClassInstance::HasMethod], on the class of the instance. *)
Definition HasMethod (class_ : Class) (method_name : string) (argument_count : nat) : bool :=
  match GetMethod class_ method_name with
  | Some method => Nat.eqb (length (Method_formal_params method)) argument_count
  | None => false
  end.

(** [closure[formal_params[i]] = actual_args[i]] for each [i] in turn. *)
Fixpoint bind_arguments (formal_params : list string) (actual_args : list ObjectHolder)
    (closure : Closure) : Closure :=
  match formal_params, actual_args with
  | p :: ps, a :: args => bind_arguments ps args (<[p := a]> closure)
  | _, _ => closure
  end.

(** The closure a method body starts in. *)
Definition method_closure (class_ : Class) (fields_ : nat) (method : Method)
    (actual_args : list ObjectHolder) : Closure :=
  <["self"%string := Share (ClassInstance class_ fields_)]>
    (bind_arguments (Method_formal_params method) actual_args ∅).

Section Calls.

(** How a statement executes; [ast.Execute] closes the knot. *)
Variable Execute : Statement -> M (Closure * World) ObjectHolder.

(** A body runs in a closure of its own, which is dropped when it ends. *)
Definition in_closure (closure : Closure) (s : Statement) : M World ObjectHolder :=
  fun w => let '(r, (_, w')) := Execute s (closure, w) in (r, w').

(** [ClassInstance::Call], on the instance made of [class_] whose fields
    are at [fields_]. *)
Definition Call (class_ : Class) (fields_ : nat) (method_name : string)
    (actual_args : list ObjectHolder) : M World ObjectHolder :=
  match GetMethod class_ method_name with
  | Some method =>
      if negb (Nat.eqb (length (Method_formal_params method)) (length actual_args))
      then throw "Not implemented"
      else in_closure (method_closure class_ fields_ method actual_args)
             (Method_body method)
  | None => throw "Not implemented"
  end.

(** The templates [Equal<T>], [Less<T>] and [AddSame<T>]: the operation on
    the values when both holders hold a [T], nothing otherwise. *)
Definition SameType {A B : Type} (TryAs : ObjectHolder -> option A) (op : A -> A -> B)
    (lhs rhs : ObjectHolder) : option B :=
  match TryAs lhs, TryAs rhs with
  | Some a, Some b => Some (op a b)
  | _, _ => None
  end.

Definition bool_ltb (a b : bool) : bool := (negb a && b)%bool.

Definition Equal (lhs rhs : ObjectHolder) : M World bool :=
  if (negb (has_object lhs) && negb (has_object rhs))%bool then ret true
  else match SameType TryAs_Bool Bool.eqb lhs rhs with
  | Some bool_result => ret bool_result
  | None =>
  match SameType TryAs_Number Z.eqb lhs rhs with
  | Some number_result => ret number_result
  | None =>
  match SameType TryAs_String String.eqb lhs rhs with
  | Some string_result => ret string_result
  | None =>
  match TryAs_ClassInstance lhs with
  | Some (class_, fields_) =>
      let* result := Call class_ fields_ "__eq__" [rhs] in
      GetValue (TryAs_Bool result)
  | None => throw "Cannot compare objects for equality"
  end end end end.

Definition Less (lhs rhs : ObjectHolder) : M World bool :=
  match SameType TryAs_Bool bool_ltb lhs rhs with
  | Some bool_result => ret bool_result
  | None =>
  match SameType TryAs_Number Z.ltb lhs rhs with
  | Some number_result => ret number_result
  | None =>
  match SameType TryAs_String String.ltb lhs rhs with
  | Some string_result => ret string_result
  | None =>
  match TryAs_ClassInstance lhs with
  | Some (class_, fields_) =>
      let* result := Call class_ fields_ "__lt__" [rhs] in
      GetValue (TryAs_Bool result)
  | None => throw "Cannot compare objects for less"
  end end end end.

Definition NotEqual (lhs rhs : ObjectHolder) : M World bool :=
  not_ (Equal lhs rhs).

Definition Greater (lhs rhs : ObjectHolder) : M World bool :=
  and_then (not_ (Less lhs rhs)) (not_ (Equal lhs rhs)).

Definition LessOrEqual (lhs rhs : ObjectHolder) : M World bool :=
  or_else (Less lhs rhs) (Equal lhs rhs).

Definition GreaterOrEqual (lhs rhs : ObjectHolder) : M World bool :=
  not_ (Less lhs rhs).

Definition compare (cmp : Comparator) : ObjectHolder -> ObjectHolder -> M World bool :=
  match cmp with
  | CmpEqual => Equal
  | CmpNotEqual => NotEqual
  | CmpLess => Less
  | CmpGreater => Greater
  | CmpLessOrEqual => LessOrEqual
  | CmpGreaterOrEqual => GreaterOrEqual
  end.

End Calls.

End runtime.

(** ** Namespace [ast] *)

Module ast.

Definition ADD_METHOD : string := "__add__".
Definition INIT_METHOD : string := "__init__".

(** The text [os << this] writes for an instance is left to the
    implementation; the model writes the location of the field map. *)
Definition address_text (fields_ : nat) : string := "0x" ++ pretty (N.of_nat fields_).

Definition undefined_identifier (id : string) : Failure :=
  RuntimeError ("Identifier '" ++ id ++ "' is undefined").

(** [VariableValue::Execute]: the first identifier is looked up in the
    closure, each further one in the fields of the instance found so far. *)
Fixpoint resolve (ids : list string) (fields : Closure) (w : World) : Outcome ObjectHolder :=
  match ids with
  | [] => Fail UndefinedBehaviour
  | id :: rest =>
      match rest with
      | [] =>
          match fields !! id with
          | Some value => Normal value
          | None => Fail (undefined_identifier id)
          end
      | _ :: _ =>
          match fields !! id with
          | None => Fail (undefined_identifier id)
          | Some value =>
              match TryAs_ClassInstance value with
              | Some (_, loc) =>
                  match heap w !! loc with
                  | Some fields' => resolve rest fields' w
                  | None => Fail UndefinedBehaviour
                  end
              | None => Fail UndefinedBehaviour
              end
          end
      end
  end.

Definition VariableValue_Execute (ids : list string) : M (Closure * World) ObjectHolder :=
  fun s => (resolve ids (fst s) (snd s), s).

Section Nodes.

(** The execution of the statements below the node at hand, and the
    [Print] of the objects reached from it. *)
Variable Execute : Statement -> M (Closure * World) ObjectHolder.
Variable Print_object : Object -> string -> M World string.

(** [static bool IsTrue(const ObjectHolder&, Context&)] of the evaluator. *)
Definition IsTrue (obj : ObjectHolder) : M World bool :=
  runtime.Equal Execute obj (Own (Bool true)).

Fixpoint GetActualArgs (args : list Statement) : M (Closure * World) (list ObjectHolder) :=
  match args with
  | [] => ret []
  | arg :: rest =>
      let* value := Execute arg in
      let* values := GetActualArgs rest in
      ret (value :: values)
  end.

(** [oh->Print(os, context)] if [oh] holds an object, [os << "None"]
    otherwise. *)
Definition print_holder (oh : ObjectHolder) (os : string) : M World string :=
  match Get oh with
  | Some object => Print_object object os
  | None => ret (os ++ "None")%string
  end.

Fixpoint print_arguments (first : bool) (args : list Statement) (os : string)
  : M (Closure * World) string :=
  match args with
  | [] => ret os
  | arg :: rest =>
      let os1 := if first then os else (os ++ " ")%string in
      let* oh := Execute arg in
      let* os2 := lift (print_holder oh os1) in
      print_arguments false rest os2
  end.

Fixpoint execute_all (stmts : list Statement) : M (Closure * World) unit :=
  match stmts with
  | [] => ret tt
  | stmt :: rest => let* _ := Execute stmt in execute_all rest
  end.

(** The operands of a binary operation, none of which may be empty. *)
Definition operands (lhs rhs : Statement) (what : string)
  : M (Closure * World) (ObjectHolder * ObjectHolder) :=
  let* lhs_oh := Execute lhs in
  let* rhs_oh := Execute rhs in
  if (negb (has_object lhs_oh) || negb (has_object rhs_oh))%bool then throw what
  else ret (lhs_oh, rhs_oh).

Definition arithmetic (op : Z -> Z -> M (Closure * World) ObjectHolder)
    (lhs rhs : Statement) (what : string) : M (Closure * World) ObjectHolder :=
  let* '(lhs_oh, rhs_oh) := operands lhs rhs what in
  match TryAs_Number lhs_oh, TryAs_Number rhs_oh with
  | Some a, Some b => op a b
  | _, _ => throw what
  end.

Definition node (s : Statement) : M (Closure * World) ObjectHolder :=
  match s with
  | Assignment var rv =>
      let* value := Execute rv in
      let* closure := get_closure in
      let* _ := set_closure (<[var := value]> closure) in
      ret (Share_of value)
  | VariableValue ids => VariableValue_Execute ids
  | Print args =>
      let* os := print_arguments true args "" in
      let text := (os ++ nl)%string in
      let* _ := lift (write_output text) in
      ret (Own (String text))
  | MethodCall object method args =>
      (* The code keeps a pointer to the receiver and lets go of the holder
         [object] has returned before it uses the pointer.  The model follows
         the executions in which another holder owns the receiver. *)
      let* oh := Execute object in
      match TryAs_ClassInstance oh with
      | Some (class_, fields_) =>
          if runtime.HasMethod class_ method (length args) then
            let* actual_args := GetActualArgs args in
            lift (runtime.Call Execute class_ fields_ method actual_args)
          else ret Empty
      | None => ret Empty
      end
  | Stringify argument =>
      let* oh := Execute argument in
      let* os := lift (print_holder oh "") in
      ret (Own (String os))
  | Add lhs rhs =>
      let what := "Cannot add/concatenate objects"%string in
      let* '(lhs_oh, rhs_oh) := operands lhs rhs what in
      match runtime.SameType TryAs_Number Z.add lhs_oh rhs_oh with
      | Some numeric_result => int_result numeric_result
      | None =>
      match runtime.SameType TryAs_String String.append lhs_oh rhs_oh with
      | Some string_result => ret (Own (String string_result))
      | None =>
      match TryAs_ClassInstance lhs_oh with
      | Some (class_, fields_) =>
          if negb (runtime.HasMethod class_ ADD_METHOD 1) then throw what
          else lift (runtime.Call Execute class_ fields_ ADD_METHOD [rhs_oh])
      | None => throw what
      end end end
  | Sub lhs rhs =>
      arithmetic (fun a b => int_result (a - b)) lhs rhs "Cannot sub objects"
  | Mult lhs rhs =>
      arithmetic (fun a b => int_result (a * b)) lhs rhs "Cannot mult objects"
  | Div lhs rhs =>
      arithmetic
        (fun a b => if Z.eqb b 0 then throw "Cannot div by zero"
                    else int_result (Z.quot a b))
        lhs rhs "Cannot div objects"
  | Compound stmts =>
      let* _ := execute_all stmts in ret Empty
  | Return statement =>
      let* value := Execute statement in
      fail (ReturnException value)
  | ClassDefinition cls =>
      match TryAs_Class cls with
      | Some c =>
          let* closure := get_closure in
          let* _ := set_closure (<[runtime.GetName c := cls]> closure) in
          ret cls
      | None => fail UndefinedBehaviour
      end
  | FieldAssignment object field_name rv =>
      let* obg := VariableValue_Execute object in
      let* value := Execute rv in
      match TryAs_ClassInstance obg with
      | Some (_, fields_) =>
          let* _ := lift (store_field fields_ field_name value) in
          ret (Share_of value)
      | None => fail UndefinedBehaviour
      end
  | IfElse condition if_body else_body =>
      let* cond := Execute condition in
      if negb (has_object cond) then fail AssertionFailed
      else
        let* value := GetValue (TryAs_Bool cond) in
        if value then Execute if_body
        else match else_body with
             | Some else_stmt => Execute else_stmt
             | None => ret Empty
             end
  | Or lhs rhs =>
      let* result :=
        or_else (let* l := Execute lhs in lift (IsTrue l))
                (let* r := Execute rhs in lift (IsTrue r)) in
      ret (Own (Bool result))
  | And lhs rhs =>
      let* result :=
        and_then (let* l := Execute lhs in lift (IsTrue l))
                 (let* r := Execute rhs in lift (IsTrue r)) in
      ret (Own (Bool result))
  | Not argument =>
      let* oh := Execute argument in
      let* value := GetValue (TryAs_Bool oh) in
      ret (Own (Bool (negb value)))
  | Comparison cmp lhs rhs =>
      (* The two operands are arguments of one call: the language leaves the
         order of their evaluation open.  The model takes left to right. *)
      let* l := Execute lhs in
      let* r := Execute rhs in
      let* result := lift (runtime.compare Execute cmp l r) in
      ret (Own (Bool result))
  | NewInstance class_ args =>
      let* fields_ := lift allocate in
      let oh := Own (ClassInstance class_ fields_) in
      if runtime.HasMethod class_ INIT_METHOD (length args) then
        let* actual_args := GetActualArgs args in
        let* _ := lift (runtime.Call Execute class_ fields_ INIT_METHOD actual_args) in
        ret oh
      else ret oh
  | MethodBody body =>
      fun s => match Execute body s with
               | (Fail (ReturnException result), s') => (Normal result, s')
               | (Normal _, s') => (Normal Empty, s')
               | (Fail f, s') => (Fail f, s')
               end
  end.

(** The virtual [Object::Print]. *)
Definition print (object : Object) (os : string) : M World string :=
  match object with
  | Number value => ret (os ++ pretty value)%string
  | String value => ret (os ++ value)%string
  | Bool value => ret (os ++ (if value then "True" else "False"))%string
  | ClassObject c => ret (os ++ "Class " ++ runtime.GetName c)%string
  | ClassInstance class_ fields_ =>
      if runtime.HasMethod class_ "__str__" 0 then
        let* result := runtime.Call Execute class_ fields_ "__str__" [] in
        match Get result with
        | Some object' => Print_object object' os
        | None => fail AssertionFailed
        end
      else ret (os ++ address_text fields_)%string
  end.

End Nodes.

(** The evaluator.  The fuel bounds the nesting of the calls of [Execute]
    and [Print]; a program that recurses without end runs out of it at every
    amount. *)
Fixpoint Execute (fuel : nat) (s : Statement) : M (Closure * World) ObjectHolder :=
  match fuel with
  | O => fail OutOfFuel
  | S fuel' => node (Execute fuel') (Print_object fuel') s
  end
with Print_object (fuel : nat) (object : Object) (os : string) : M World string :=
  match fuel with
  | O => fail OutOfFuel
  | S fuel' => print (Execute fuel') (Print_object fuel') object os
  end.

End ast.

(** * Properties *)

Local Open Scope string_scope.

(** ** Method lookup *)

(** The classes a lookup visits: the class itself, then its ancestors. *)
Fixpoint parent_chain (c : Class) : list Class :=
  match c with
  | mk_Class _ _ parent =>
      c :: match parent with
           | Some p => parent_chain p
           | None => []
           end
  end.

(** The methods a lookup meets, in the order it meets them. *)
Definition methods_in_lookup_order (c : Class) : list Method :=
  concat (map Class_methods (parent_chain c)).

Lemma Class_chain_ind (P : Class -> Prop) :
  (forall name methods, P (mk_Class name methods None)) ->
  (forall name methods p, P p -> P (mk_Class name methods (Some p))) ->
  forall c, P c.
Proof.
  intros Hroot Hchild.
  fix IH 1.
  intros [name methods [p|]].
  - apply Hchild, IH.
  - apply Hroot.
Qed.

Lemma find_app {A : Type} (f : A -> bool) (l1 l2 : list A) :
  List.find f (l1 ++ l2) =
  match List.find f l1 with Some x => Some x | None => List.find f l2 end.
Proof.
  induction l1 as [|a l1 IH]; simpl; [reflexivity|].
  destruct (f a); [reflexivity | exact IH].
Qed.

Lemma GetMethod_first_match (c : Class) (name : string) :
  runtime.GetMethod c name =
  List.find (fun m => String.eqb (Method_name m) name) (methods_in_lookup_order c).
Proof.
  induction c as [cname methods | cname methods p IH] using Class_chain_ind;
    unfold methods_in_lookup_order; simpl.
  - rewrite app_nil_r. destruct (List.find _ methods); reflexivity.
  - rewrite find_app. destruct (List.find _ methods); [reflexivity|].
    exact IH.
Qed.

(** C7.  [GetMethod] returns the first method with the name that is asked
    for, among the methods of the class followed by those of its parent, of
    the parent of its parent and so on; the test is on the name alone, so a
    method of another arity hides the ones after it.  [HasMethod] holds
    exactly when that method exists and has as many formal parameters as the
    count given. *)
Theorem GetMethod_HasMethod_lookup :
  (forall (c : Class) (name : string),
      runtime.GetMethod c name =
      List.find (fun m => String.eqb (Method_name m) name) (methods_in_lookup_order c)) /\
  (forall (c : Class) (name : string) (argc : nat),
      runtime.HasMethod c name argc = true <->
      exists m, runtime.GetMethod c name = Some m /\
                length (Method_formal_params m) = argc).
Proof.
  split.
  - exact GetMethod_first_match.
  - intros c name argc. unfold runtime.HasMethod.
    destruct (runtime.GetMethod c name) as [m|]; split.
    + intros H. exists m. split; [reflexivity|]. now apply Nat.eqb_eq.
    + intros (m' & Hm & Hlen). injection Hm as <-. now apply Nat.eqb_eq.
    + discriminate.
    + intros (m' & Hm & _). discriminate.
Qed.

(** A method found by name has that name, and no earlier method has it. *)
Lemma GetMethod_Some_name (c : Class) (name : string) (m : Method) :
  runtime.GetMethod c name = Some m -> Method_name m = name.
Proof.
  rewrite GetMethod_first_match. intros H.
  apply List.find_some in H as [_ H]. now apply String.eqb_eq.
Qed.

Lemma GetMethod_None_iff (c : Class) (name : string) :
  runtime.GetMethod c name = None <->
  forall m, In m (methods_in_lookup_order c) -> Method_name m <> name.
Proof.
  rewrite GetMethod_first_match. split.
  - intros H m Hin Heq.
    pose proof (List.find_none _ _ H m Hin) as Hf. simpl in Hf.
    apply String.eqb_neq in Hf. contradiction.
  - intros H. destruct (List.find _ _) as [m|] eqn:E; [|reflexivity].
    apply List.find_some in E as [Hin Heq]. apply String.eqb_eq in Heq.
    exfalso. exact (H m Hin Heq).
Qed.

(** ** Calls and comparisons *)

Lemma bind_Normal {S A B : Type} (m : M S A) (k : A -> M S B) (s s' : S) (a : A) :
  m s = (Normal a, s') -> bind m k s = k a s'.
Proof. unfold bind. now intros ->. Qed.

Lemma bind_Fail {S A B : Type} (m : M S A) (k : A -> M S B) (s s' : S) (f : Failure) :
  m s = (Fail f, s') -> bind m k s = (Fail f, s').
Proof. unfold bind. now intros ->. Qed.

Lemma lift_eq {A : Type} (m : M World A) (c : Closure) (w w' : World) (r : Outcome A) :
  m w = (r, w') -> lift m (c, w) = (r, (c, w')).
Proof. unfold lift. simpl. now intros ->. Qed.

(** C8.  A call of a method on an instance fails, with the exception
    [std::runtime_error("Not implemented")] and nothing else done, when the
    class and its ancestors have no method of the name or when the method
    found takes another number of parameters than there are arguments;
    otherwise it is the execution of the body of the method in a closure made
    for the call, which holds the arguments under the names of the
    parameters and the receiver under [self]. *)
Theorem Call_arity_checked (fuel : nat) (class_ : Class) (fields_ : nat)
    (method_name : string) (actual_args : list ObjectHolder) (w : World) :
  (runtime.GetMethod class_ method_name = None ->
   runtime.Call (ast.Execute fuel) class_ fields_ method_name actual_args w
   = (Fail (RuntimeError "Not implemented"), w)) /\
  (forall m, runtime.GetMethod class_ method_name = Some m ->
             length (Method_formal_params m) <> length actual_args ->
   runtime.Call (ast.Execute fuel) class_ fields_ method_name actual_args w
   = (Fail (RuntimeError "Not implemented"), w)) /\
  (forall m, runtime.GetMethod class_ method_name = Some m ->
             length (Method_formal_params m) = length actual_args ->
   runtime.Call (ast.Execute fuel) class_ fields_ method_name actual_args w
   = let '(r, (_, w')) :=
       ast.Execute fuel (Method_body m)
         (<["self" := Share (ClassInstance class_ fields_)]>
            (runtime.bind_arguments (Method_formal_params m) actual_args ∅), w)
     in (r, w')).
Proof.
  unfold runtime.Call. repeat split.
  - now intros ->.
  - intros m -> Hlen. apply Nat.eqb_neq in Hlen. now rewrite Hlen.
  - intros m -> Hlen. apply Nat.eqb_eq in Hlen. now rewrite Hlen.
Qed.

(** The closure of a call binds [self] and the parameters, and nothing of
    the caller. *)
Lemma bind_arguments_lookup (ps : list string) (args : list ObjectHolder)
    (closure : Closure) (x : string) :
  ~ In x ps -> runtime.bind_arguments ps args closure !! x = closure !! x.
Proof.
  revert args closure. induction ps as [|p ps IH]; intros args closure Hx; simpl.
  - reflexivity.
  - destruct args as [|a args]; [reflexivity|].
    rewrite IH by (intros H; apply Hx; now right).
    apply lookup_insert_ne. intros ->. apply Hx. now left.
Qed.

Lemma method_closure_fresh (class_ : Class) (fields_ : nat) (m : Method)
    (args : list ObjectHolder) (x : string) :
  x <> "self" -> ~ In x (Method_formal_params m) ->
  runtime.method_closure class_ fields_ m args !! x = None.
Proof.
  intros Hself Hx. unfold runtime.method_closure.
  rewrite lookup_insert_ne by congruence.
  rewrite bind_arguments_lookup by assumption. apply lookup_empty.
Qed.

Lemma method_closure_self (class_ : Class) (fields_ : nat) (m : Method)
    (args : list ObjectHolder) :
  runtime.method_closure class_ fields_ m args !! "self"
  = Some (Share (ClassInstance class_ fields_)).
Proof. unfold runtime.method_closure. apply lookup_insert_eq. Qed.

(** The cases of [Equal] that are decided without a call. *)
Definition no_Equal_rule (lhs rhs : ObjectHolder) : Prop :=
  (has_object lhs = true \/ has_object rhs = true) /\
  (TryAs_Bool lhs = None \/ TryAs_Bool rhs = None) /\
  (TryAs_Number lhs = None \/ TryAs_Number rhs = None) /\
  (TryAs_String lhs = None \/ TryAs_String rhs = None).

Lemma SameType_None {A B : Type} (TryAs : ObjectHolder -> option A) (op : A -> A -> B)
    (lhs rhs : ObjectHolder) :
  TryAs lhs = None \/ TryAs rhs = None -> runtime.SameType TryAs op lhs rhs = None.
Proof.
  unfold runtime.SameType. intros [-> | ->]; [reflexivity|].
  now destruct (TryAs lhs).
Qed.

Lemma Equal_no_rule (exec : Statement -> M (Closure * World) ObjectHolder)
    (lhs rhs : ObjectHolder) (w : World) :
  no_Equal_rule lhs rhs ->
  runtime.Equal exec lhs rhs w =
  match TryAs_ClassInstance lhs with
  | Some (class_, fields_) =>
      bind (runtime.Call exec class_ fields_ "__eq__" [rhs])
           (fun result => GetValue (TryAs_Bool result)) w
  | None => (Fail (RuntimeError "Cannot compare objects for equality"), w)
  end.
Proof.
  intros (Hobj & Hb & Hn & Hs). unfold runtime.Equal.
  replace (negb (has_object lhs) && negb (has_object rhs))%bool with false
    by (destruct Hobj as [-> | ->]; [reflexivity | now rewrite andb_false_r]).
  rewrite !SameType_None by assumption.
  destruct (TryAs_ClassInstance lhs) as [[c l]|]; reflexivity.
Qed.

Lemma TryAs_ClassInstance_no_rule (lhs rhs : ObjectHolder) (c : Class) (l : nat) :
  TryAs_ClassInstance lhs = Some (c, l) -> no_Equal_rule lhs rhs.
Proof.
  unfold TryAs_ClassInstance, no_Equal_rule, TryAs_Bool, TryAs_Number, TryAs_String,
    has_object.
  destruct lhs as [|[]|[]]; simpl; try discriminate; intros _; auto.
Qed.

(** C4.  The cascade of [Equal]: two empty handles are equal; two Bools, two
    Numbers or two Strings are compared by value; otherwise, for an instance
    on the left whose class has an [__eq__] of one parameter, the body of that
    method is executed in a closure that binds [self] to the instance and
    the parameter to the right operand, and
    - when the body gives a Bool, its value is the answer,
    - when it gives anything else, or nothing, the cast that the code does
      not test is a null pointer and is dereferenced,
    - when it ends in an exception, so does [Equal];
    anything else ends in a [std::runtime_error], the only kind of error the
    runtime raises: from [Call] when the left operand is an instance without
    such a method, from [Equal] itself in the remaining cases. *)
Theorem Equal_cascade (fuel : nat) (lhs rhs : ObjectHolder) (w : World) :
  let Equal := runtime.Equal (ast.Execute fuel) in
  (has_object lhs = false -> has_object rhs = false ->
   Equal lhs rhs w = (Normal true, w)) /\
  (forall a b, TryAs_Bool lhs = Some a -> TryAs_Bool rhs = Some b ->
   Equal lhs rhs w = (Normal (Bool.eqb a b), w)) /\
  (forall a b, TryAs_Number lhs = Some a -> TryAs_Number rhs = Some b ->
   Equal lhs rhs w = (Normal (Z.eqb a b), w)) /\
  (forall a b, TryAs_String lhs = Some a -> TryAs_String rhs = Some b ->
   Equal lhs rhs w = (Normal (String.eqb a b), w)) /\
  (forall class_ fields_,
   TryAs_ClassInstance lhs = Some (class_, fields_) ->
   runtime.HasMethod class_ "__eq__" 1 = true ->
   exists m p,
     runtime.GetMethod class_ "__eq__" = Some m /\
     Method_formal_params m = [p] /\
     Equal lhs rhs w =
       let '(r, (_, w')) :=
         ast.Execute fuel (Method_body m)
           (<["self" := Share (ClassInstance class_ fields_)]> (<[p := rhs]> ∅), w) in
       (match r with
        | Normal result =>
            match TryAs_Bool result with
            | Some b => Normal b
            | None => Fail UndefinedBehaviour
            end
        | Fail f => Fail f
        end, w')) /\
  (forall class_ fields_,
   TryAs_ClassInstance lhs = Some (class_, fields_) ->
   runtime.HasMethod class_ "__eq__" 1 = false ->
   Equal lhs rhs w = (Fail (RuntimeError "Not implemented"), w)) /\
  (no_Equal_rule lhs rhs -> TryAs_ClassInstance lhs = None ->
   Equal lhs rhs w = (Fail (RuntimeError "Cannot compare objects for equality"), w)).
Proof.
  cbv zeta. split; [|split; [|split; [|split; [|split; [|split]]]]].
  - intros Hl Hr. unfold runtime.Equal. now rewrite Hl, Hr.
  - intros a b Ha Hb. unfold runtime.Equal, runtime.SameType. rewrite Ha, Hb.
    destruct lhs, rhs; try discriminate; reflexivity.
  - intros a b Ha Hb. unfold runtime.Equal, runtime.SameType. rewrite Ha, Hb.
    unfold TryAs_Number, TryAs_Bool in *.
    destruct lhs as [|[]|[]], rhs as [|[]|[]]; try discriminate; reflexivity.
  - intros a b Ha Hb. unfold runtime.Equal, runtime.SameType. rewrite Ha, Hb.
    unfold TryAs_String, TryAs_Number, TryAs_Bool in *.
    destruct lhs as [|[]|[]], rhs as [|[]|[]]; try discriminate; reflexivity.
  - intros c l Hinst Hhas.
    rewrite Equal_no_rule by (eapply TryAs_ClassInstance_no_rule; eassumption).
    rewrite Hinst. unfold runtime.HasMethod in Hhas. unfold runtime.Call.
    destruct (runtime.GetMethod c "__eq__") as [m|]; [|discriminate].
    destruct m as [name params body]. simpl in Hhas.
    destruct params as [|p [|p' params]]; try discriminate.
    exists (mk_Method name [p] body), p. split; [reflexivity|]. split; [reflexivity|].
    unfold bind, runtime.in_closure, runtime.method_closure. simpl.
    destruct (ast.Execute fuel body _) as [[result|f] [c' w']]; [|reflexivity].
    unfold GetValue. now destruct (TryAs_Bool result).
  - intros c l Hinst Hno.
    rewrite Equal_no_rule by (eapply TryAs_ClassInstance_no_rule; eassumption).
    rewrite Hinst. apply bind_Fail.
    unfold runtime.HasMethod in Hno. unfold runtime.Call.
    destruct (runtime.GetMethod c "__eq__") as [m|]; [|reflexivity].
    change (length [rhs]) with 1%nat. now rewrite Hno.
  - intros Hrule Hinst. rewrite Equal_no_rule by assumption. now rewrite Hinst.
Qed.

(** C5.  The derived comparators are the Boolean combinations of [Less] and
    [Equal]: with [Less] answering [less] and [Equal], called next, answering
    [equal], [Greater] is [!less && !equal] and [LessOrEqual] is
    [less || equal] (the call of [Equal] is not made when [less] decides),
    [GreaterOrEqual] is [!less] and [NotEqual] is [!equal]. *)
Theorem derived_comparators (fuel : nat) (lhs rhs : ObjectHolder) (w : World) :
  let exec := ast.Execute fuel in
  (forall is_less w1 is_equal w2,
      runtime.Less exec lhs rhs w = (Normal is_less, w1) ->
      runtime.Equal exec lhs rhs w1 = (Normal is_equal, w2) ->
      runtime.Greater exec lhs rhs w
      = (Normal (negb is_less && negb is_equal)%bool, if is_less then w1 else w2) /\
      runtime.LessOrEqual exec lhs rhs w
      = (Normal (is_less || is_equal)%bool, if is_less then w1 else w2)) /\
  (forall is_less w1,
      runtime.Less exec lhs rhs w = (Normal is_less, w1) ->
      runtime.GreaterOrEqual exec lhs rhs w = (Normal (negb is_less), w1)) /\
  (forall is_equal w1,
      runtime.Equal exec lhs rhs w = (Normal is_equal, w1) ->
      runtime.NotEqual exec lhs rhs w = (Normal (negb is_equal), w1)).
Proof.
  cbv zeta. split; [|split].
  - intros is_less w1 is_equal w2 Hlt Heq. split.
    + unfold runtime.Greater, and_then, not_, bind, ret. rewrite Hlt.
      destruct is_less; simpl; [reflexivity|]. now rewrite Heq.
    + unfold runtime.LessOrEqual, or_else, bind, ret. rewrite Hlt.
      destruct is_less; simpl; [reflexivity|]. now rewrite Heq.
  - intros is_less w1 Hlt.
    unfold runtime.GreaterOrEqual, not_, bind, ret. now rewrite Hlt.
  - intros is_equal w1 Heq.
    unfold runtime.NotEqual, not_, bind, ret. now rewrite Heq.
Qed.

(** A comparison whose left operand is not an instance calls no method and
    leaves the world as it is. *)
Lemma Equal_value_pure (exec : Statement -> M (Closure * World) ObjectHolder)
    (lhs rhs : ObjectHolder) (w w' : World) (r : Outcome bool) :
  TryAs_ClassInstance lhs = None ->
  runtime.Equal exec lhs rhs w = (r, w') -> w' = w.
Proof.
  intros Hl. unfold runtime.Equal. rewrite Hl.
  destruct (negb (has_object lhs) && negb (has_object rhs))%bool;
    [unfold ret; congruence|].
  repeat (destruct (runtime.SameType _ _ lhs rhs); [unfold ret; congruence|]).
  unfold throw, fail. congruence.
Qed.

Lemma Less_value_pure (exec : Statement -> M (Closure * World) ObjectHolder)
    (lhs rhs : ObjectHolder) (w w' : World) (r : Outcome bool) :
  TryAs_ClassInstance lhs = None ->
  runtime.Less exec lhs rhs w = (r, w') -> w' = w.
Proof.
  intros Hl. unfold runtime.Less. rewrite Hl.
  repeat (destruct (runtime.SameType _ _ lhs rhs); [unfold ret; congruence|]).
  unfold throw, fail. congruence.
Qed.

(** ** The evaluator *)

Lemma Execute_S (fuel : nat) (s : Statement) :
  ast.Execute (S fuel) s = ast.node (ast.Execute fuel) (ast.Print_object fuel) s.
Proof. reflexivity. Qed.

(** The operand of a logical operation and its truth: the statement is
    executed and its value compared with [Bool(true)]. *)
Definition truth_of (fuel : nat) (operand : Statement) : M (Closure * World) bool :=
  bind (ast.Execute fuel operand) (fun v => lift (ast.IsTrue (ast.Execute fuel) v)).

Lemma truth_of_eq (fuel : nat) (operand : Statement) (c c1 : Closure) (w w1 w2 : World)
    (v : ObjectHolder) (r : Outcome bool) :
  ast.Execute fuel operand (c, w) = (Normal v, (c1, w1)) ->
  ast.IsTrue (ast.Execute fuel) v w1 = (r, w2) ->
  truth_of fuel operand (c, w) = (r, (c1, w2)).
Proof.
  intros Hv Ht. unfold truth_of. erewrite bind_Normal by exact Hv.
  now apply lift_eq.
Qed.

Lemma Or_eq (fuel : nat) (lhs rhs : Statement) :
  ast.Execute (S fuel) (Or lhs rhs) =
  bind (or_else (truth_of fuel lhs) (truth_of fuel rhs)) (fun b => ret (Own (Bool b))).
Proof. reflexivity. Qed.

Lemma And_eq (fuel : nat) (lhs rhs : Statement) :
  ast.Execute (S fuel) (And lhs rhs) =
  bind (and_then (truth_of fuel lhs) (truth_of fuel rhs)) (fun b => ret (Own (Bool b))).
Proof. reflexivity. Qed.

(** The left operand alone decides: the right one is not run. *)
Lemma Or_left_true (fuel : nat) (lhs rhs : Statement) (s s1 : Closure * World) :
  truth_of fuel lhs s = (Normal true, s1) ->
  ast.Execute (S fuel) (Or lhs rhs) s = (Normal (Own (Bool true)), s1).
Proof.
  intros H. rewrite Or_eq. unfold or_else, bind at 1 2. now rewrite H.
Qed.

Lemma And_left_false (fuel : nat) (lhs rhs : Statement) (s s1 : Closure * World) :
  truth_of fuel lhs s = (Normal false, s1) ->
  ast.Execute (S fuel) (And lhs rhs) s = (Normal (Own (Bool false)), s1).
Proof.
  intros H. rewrite And_eq. unfold and_then, bind at 1 2. now rewrite H.
Qed.

(** The left operand does not decide: the node is the truth of the right
    one. *)
Lemma Or_left_false (fuel : nat) (lhs rhs : Statement) (s s1 : Closure * World) :
  truth_of fuel lhs s = (Normal false, s1) ->
  ast.Execute (S fuel) (Or lhs rhs) s =
  bind (truth_of fuel rhs) (fun b => ret (Own (Bool b))) s1.
Proof.
  intros H. rewrite Or_eq. unfold or_else, bind at 1 2. now rewrite H.
Qed.

Lemma And_left_true (fuel : nat) (lhs rhs : Statement) (s s1 : Closure * World) :
  truth_of fuel lhs s = (Normal true, s1) ->
  ast.Execute (S fuel) (And lhs rhs) s =
  bind (truth_of fuel rhs) (fun b => ret (Own (Bool b))) s1.
Proof.
  intros H. rewrite And_eq. unfold and_then, bind at 1 2. now rewrite H.
Qed.

Lemma Or_left_Fail (fuel : nat) (lhs rhs : Statement) (s s1 : Closure * World) (f : Failure) :
  truth_of fuel lhs s = (Fail f, s1) ->
  ast.Execute (S fuel) (Or lhs rhs) s = (Fail f, s1).
Proof.
  intros H. rewrite Or_eq. unfold or_else, bind at 1 2. now rewrite H.
Qed.

Lemma And_left_Fail (fuel : nat) (lhs rhs : Statement) (s s1 : Closure * World) (f : Failure) :
  truth_of fuel lhs s = (Fail f, s1) ->
  ast.Execute (S fuel) (And lhs rhs) s = (Fail f, s1).
Proof.
  intros H. rewrite And_eq. unfold and_then, bind at 1 2. now rewrite H.
Qed.

Lemma logical_result_Bool (m : M (Closure * World) bool) (s s' : Closure * World)
    (v : ObjectHolder) :
  bind m (fun b => ret (Own (Bool b))) s = (Normal v, s') -> exists b, v = Own (Bool b).
Proof.
  unfold bind, ret. destruct (m s) as [[b|f] s1]; intros H; [|discriminate].
  exists b. congruence.
Qed.

(** *** More fuel changes no result

    An execution that ends with the fuel it has, in a result or in an error
    of the program, ends the same way with any larger amount. *)

Definition refines {S A : Type} (m1 m2 : M S A) : Prop :=
  forall s r s', m1 s = (r, s') -> r <> Fail OutOfFuel -> m2 s = (r, s').

Lemma refines_refl {S A : Type} (m : M S A) : refines m m.
Proof. intros s r s' H _. exact H. Qed.

Lemma refines_bind {S A B : Type} (m1 m2 : M S A) (k1 k2 : A -> M S B) :
  refines m1 m2 -> (forall a, refines (k1 a) (k2 a)) ->
  refines (bind m1 k1) (bind m2 k2).
Proof.
  intros Hm Hk s r s' H Hr. unfold bind in *.
  destruct (m1 s) as [[a|f] s1] eqn:E.
  - rewrite (Hm s (Normal a) s1 E) by discriminate. now apply Hk.
  - injection H as <- <-.
    rewrite (Hm s (Fail f) s1 E); [reflexivity|].
    intros Heq. apply Hr. injection Heq as ->. reflexivity.
Qed.

Lemma refines_lift {A : Type} (m1 m2 : M World A) :
  refines m1 m2 -> refines (lift m1) (lift m2).
Proof.
  intros Hm [c w] r s' H Hr. unfold lift in *. simpl in *.
  destruct (m1 w) as [r1 w1] eqn:E. injection H as <- <-.
  now rewrite (Hm w r1 w1 E).
Qed.

Lemma refines_and_then {S : Type} (a1 a2 b1 b2 : M S bool) :
  refines a1 a2 -> refines b1 b2 -> refines (and_then a1 b1) (and_then a2 b2).
Proof.
  intros Ha Hb. apply refines_bind; [exact Ha|].
  intros [|]; [exact Hb | apply refines_refl].
Qed.

Lemma refines_or_else {S : Type} (a1 a2 b1 b2 : M S bool) :
  refines a1 a2 -> refines b1 b2 -> refines (or_else a1 b1) (or_else a2 b2).
Proof.
  intros Ha Hb. apply refines_bind; [exact Ha|].
  intros [|]; [apply refines_refl | exact Hb].
Qed.

Lemma refines_not_ {S : Type} (a1 a2 : M S bool) :
  refines a1 a2 -> refines (not_ a1) (not_ a2).
Proof. intros Ha. apply refines_bind; [exact Ha|]. intros b. apply refines_refl. Qed.

Section More_fuel.

Variables Execute1 Execute2 : Statement -> M (Closure * World) ObjectHolder.
Variables Print1 Print2 : Object -> string -> M World string.
Hypothesis Execute_refines : forall s, refines (Execute1 s) (Execute2 s).
Hypothesis Print_refines : forall object os, refines (Print1 object os) (Print2 object os).

Lemma in_closure_refines (closure : Closure) (s : Statement) :
  refines (runtime.in_closure Execute1 closure s) (runtime.in_closure Execute2 closure s).
Proof.
  intros w r w' H Hr. unfold runtime.in_closure in *.
  destruct (Execute1 s (closure, w)) as [r1 [c1 w1]] eqn:E.
  injection H as <- <-. now rewrite (Execute_refines s _ _ _ E).
Qed.

Lemma Call_refines (class_ : Class) (fields_ : nat) (method_name : string)
    (actual_args : list ObjectHolder) :
  refines (runtime.Call Execute1 class_ fields_ method_name actual_args)
          (runtime.Call Execute2 class_ fields_ method_name actual_args).
Proof.
  unfold runtime.Call. destruct (runtime.GetMethod class_ method_name);
    [|apply refines_refl].
  destruct (negb _); [apply refines_refl | apply in_closure_refines].
Qed.

Lemma Equal_refines (lhs rhs : ObjectHolder) :
  refines (runtime.Equal Execute1 lhs rhs) (runtime.Equal Execute2 lhs rhs).
Proof.
  unfold runtime.Equal. destruct (_ && _)%bool; [apply refines_refl|].
  repeat (destruct (runtime.SameType _ _ lhs rhs); [apply refines_refl|]).
  destruct (TryAs_ClassInstance lhs) as [[c l]|]; [|apply refines_refl].
  apply refines_bind; [apply Call_refines | intros a; apply refines_refl].
Qed.

Lemma Less_refines (lhs rhs : ObjectHolder) :
  refines (runtime.Less Execute1 lhs rhs) (runtime.Less Execute2 lhs rhs).
Proof.
  unfold runtime.Less.
  repeat (destruct (runtime.SameType _ _ lhs rhs); [apply refines_refl|]).
  destruct (TryAs_ClassInstance lhs) as [[c l]|]; [|apply refines_refl].
  apply refines_bind; [apply Call_refines | intros a; apply refines_refl].
Qed.

Lemma compare_refines (cmp : Comparator) (lhs rhs : ObjectHolder) :
  refines (runtime.compare Execute1 cmp lhs rhs) (runtime.compare Execute2 cmp lhs rhs).
Proof.
  destruct cmp; simpl.
  - apply Equal_refines.
  - apply refines_not_, Equal_refines.
  - apply Less_refines.
  - apply refines_and_then; apply refines_not_; [apply Less_refines | apply Equal_refines].
  - apply refines_or_else; [apply Less_refines | apply Equal_refines].
  - apply refines_not_, Less_refines.
Qed.

Lemma GetActualArgs_refines (args : list Statement) :
  refines (ast.GetActualArgs Execute1 args) (ast.GetActualArgs Execute2 args).
Proof.
  induction args as [|arg args IH]; simpl; [apply refines_refl|].
  apply refines_bind; [apply Execute_refines|]. intros v.
  apply refines_bind; [exact IH|]. intros vs. apply refines_refl.
Qed.

Lemma print_holder_refines (oh : ObjectHolder) (os : string) :
  refines (ast.print_holder Print1 oh os) (ast.print_holder Print2 oh os).
Proof.
  unfold ast.print_holder. destruct (Get oh); [apply Print_refines | apply refines_refl].
Qed.

Lemma print_arguments_refines (args : list Statement) :
  forall first os,
    refines (ast.print_arguments Execute1 Print1 first args os)
            (ast.print_arguments Execute2 Print2 first args os).
Proof.
  induction args as [|arg args IH]; intros first os; simpl; [apply refines_refl|].
  apply refines_bind; [apply Execute_refines|]. intros oh.
  apply refines_bind; [apply refines_lift, print_holder_refines|]. intros os2.
  apply IH.
Qed.

Lemma execute_all_refines (stmts : list Statement) :
  refines (ast.execute_all Execute1 stmts) (ast.execute_all Execute2 stmts).
Proof.
  induction stmts as [|stmt stmts IH]; simpl; [apply refines_refl|].
  apply refines_bind; [apply Execute_refines|]. intros _. exact IH.
Qed.

Lemma operands_refines (lhs rhs : Statement) (what : string) :
  refines (ast.operands Execute1 lhs rhs what) (ast.operands Execute2 lhs rhs what).
Proof.
  unfold ast.operands.
  apply refines_bind; [apply Execute_refines|]. intros l.
  apply refines_bind; [apply Execute_refines|]. intros r. apply refines_refl.
Qed.

Lemma arithmetic_refines (op : Z -> Z -> M (Closure * World) ObjectHolder)
    (lhs rhs : Statement) (what : string) :
  refines (ast.arithmetic Execute1 op lhs rhs what)
          (ast.arithmetic Execute2 op lhs rhs what).
Proof.
  unfold ast.arithmetic. apply refines_bind; [apply operands_refines|].
  intros [l r]. apply refines_refl.
Qed.

Lemma truth_refines (operand : Statement) :
  refines (bind (Execute1 operand) (fun v => lift (ast.IsTrue Execute1 v)))
          (bind (Execute2 operand) (fun v => lift (ast.IsTrue Execute2 v))).
Proof.
  apply refines_bind; [apply Execute_refines|]. intros v.
  apply refines_lift, Equal_refines.
Qed.

Lemma node_refines (s : Statement) :
  refines (ast.node Execute1 Print1 s) (ast.node Execute2 Print2 s).
Proof.
  destruct s; simpl.
  - (* Assignment *)
    apply refines_bind; [apply Execute_refines | intros v; apply refines_refl].
  - apply refines_refl.
  - (* Print *)
    apply refines_bind; [apply print_arguments_refines | intros os; apply refines_refl].
  - (* MethodCall *)
    apply refines_bind; [apply Execute_refines|]. intros oh.
    destruct (TryAs_ClassInstance oh) as [[c l]|]; [|apply refines_refl].
    destruct (runtime.HasMethod _ _ _); [|apply refines_refl].
    apply refines_bind; [apply GetActualArgs_refines|]. intros actual.
    apply refines_lift, Call_refines.
  - (* Stringify *)
    apply refines_bind; [apply Execute_refines|]. intros oh.
    apply refines_bind; [apply refines_lift, print_holder_refines|].
    intros os. apply refines_refl.
  - (* Add *)
    apply refines_bind; [apply operands_refines|]. intros [l r].
    destruct (runtime.SameType _ _ l r); [apply refines_refl|].
    destruct (runtime.SameType _ _ l r); [apply refines_refl|].
    destruct (TryAs_ClassInstance l) as [[c loc]|]; [|apply refines_refl].
    destruct (negb _); [apply refines_refl | apply refines_lift, Call_refines].
  - apply arithmetic_refines.
  - apply arithmetic_refines.
  - apply arithmetic_refines.
  - (* Compound *)
    apply refines_bind; [apply execute_all_refines | intros _; apply refines_refl].
  - (* Return *)
    apply refines_bind; [apply Execute_refines | intros v; apply refines_refl].
  - apply refines_refl.
  - (* FieldAssignment *)
    apply refines_bind; [apply refines_refl|]. intros obg.
    apply refines_bind; [apply Execute_refines | intros v; apply refines_refl].
  - (* IfElse *)
    apply refines_bind; [apply Execute_refines|]. intros cond.
    destruct (negb _); [apply refines_refl|].
    apply refines_bind; [apply refines_refl|]. intros [|].
    + apply Execute_refines.
    + destruct else_body_; [apply Execute_refines | apply refines_refl].
  - (* Or *)
    apply refines_bind; [|intros b; apply refines_refl].
    apply refines_or_else; apply truth_refines.
  - (* And *)
    apply refines_bind; [|intros b; apply refines_refl].
    apply refines_and_then; apply truth_refines.
  - (* Not *)
    apply refines_bind; [apply Execute_refines | intros v; apply refines_refl].
  - (* Comparison *)
    apply refines_bind; [apply Execute_refines|]. intros l.
    apply refines_bind; [apply Execute_refines|]. intros r.
    apply refines_bind; [apply refines_lift, compare_refines|].
    intros b. apply refines_refl.
  - (* NewInstance *)
    apply refines_bind; [apply refines_refl|]. intros loc.
    destruct (runtime.HasMethod _ _ _); [|apply refines_refl].
    apply refines_bind; [apply GetActualArgs_refines|]. intros actual.
    apply refines_bind; [apply refines_lift, Call_refines|].
    intros _. apply refines_refl.
  - (* MethodBody *)
    intros st r st' H Hr.
    destruct (Execute1 s st) as [[v|f] st1] eqn:E.
    + now rewrite (Execute_refines s _ _ _ E).
    + assert (f <> OutOfFuel) as Hf by (intros ->; injection H as <- <-; congruence).
      rewrite (Execute_refines s _ _ _ E) by congruence. exact H.
Qed.

Lemma print_refines (object : Object) (os : string) :
  refines (ast.print Execute1 Print1 object os) (ast.print Execute2 Print2 object os).
Proof.
  destruct object; simpl; try apply refines_refl.
  destruct (runtime.HasMethod _ _ _); [|apply refines_refl].
  apply refines_bind; [apply Call_refines|]. intros result.
  destruct (Get result); [apply Print_refines | apply refines_refl].
Qed.

End More_fuel.

Lemma Execute_Print_step (fuel : nat) :
  (forall s, refines (ast.Execute fuel s) (ast.Execute (S fuel) s)) /\
  (forall object os,
      refines (ast.Print_object fuel object os) (ast.Print_object (S fuel) object os)).
Proof.
  induction fuel as [|fuel [IHE IHP]].
  - split; intros; intros st r st' H Hr; injection H as <- <-; congruence.
  - split.
    + intros s. apply (node_refines _ _ _ _ IHE IHP s).
    + intros object os. apply (print_refines _ _ _ _ IHE IHP object os).
Qed.

(** An execution that does not run out of fuel is the same with more. *)
Theorem Execute_more_fuel (fuel fuel' : nat) (s : Statement) (st st' : Closure * World)
    (r : Outcome ObjectHolder) :
  (fuel <= fuel')%nat ->
  ast.Execute fuel s st = (r, st') -> r <> Fail OutOfFuel ->
  ast.Execute fuel' s st = (r, st').
Proof.
  intros Hle H Hr. induction Hle as [|fuel' Hle IH]; [exact H|].
  now apply (proj1 (Execute_Print_step fuel') s).
Qed.

(** C1, as the code has it.  [Or] and [And] are written with the operators
    [||] and [&&] of C++: the right operand is executed only when the left
    one does not decide.  When the left operand of [Or] is true, or the left
    operand of [And] is false, the node ends in the state the left operand
    left, whatever the right operand is; otherwise the right operand is
    executed next and its truth is the result.  The result is an owning
    Bool. *)
Theorem Or_And_short_circuit (fuel : nat) (lhs rhs : Statement) (c : Closure) (w : World) :
  let IsTrue := ast.IsTrue (ast.Execute fuel) in
  (forall l c1 w1 w2,
      ast.Execute fuel lhs (c, w) = (Normal l, (c1, w1)) ->
      IsTrue l w1 = (Normal true, w2) ->
      ast.Execute (S fuel) (Or lhs rhs) (c, w) = (Normal (Own (Bool true)), (c1, w2))) /\
  (forall l c1 w1 w2,
      ast.Execute fuel lhs (c, w) = (Normal l, (c1, w1)) ->
      IsTrue l w1 = (Normal false, w2) ->
      ast.Execute (S fuel) (And lhs rhs) (c, w) = (Normal (Own (Bool false)), (c1, w2))) /\
  (forall l c1 w1 w2 r c3 w3 b w4,
      ast.Execute fuel lhs (c, w) = (Normal l, (c1, w1)) ->
      IsTrue l w1 = (Normal false, w2) ->
      ast.Execute fuel rhs (c1, w2) = (Normal r, (c3, w3)) ->
      IsTrue r w3 = (Normal b, w4) ->
      ast.Execute (S fuel) (Or lhs rhs) (c, w) = (Normal (Own (Bool b)), (c3, w4))) /\
  (forall l c1 w1 w2 r c3 w3 b w4,
      ast.Execute fuel lhs (c, w) = (Normal l, (c1, w1)) ->
      IsTrue l w1 = (Normal true, w2) ->
      ast.Execute fuel rhs (c1, w2) = (Normal r, (c3, w3)) ->
      IsTrue r w3 = (Normal b, w4) ->
      ast.Execute (S fuel) (And lhs rhs) (c, w) = (Normal (Own (Bool b)), (c3, w4))) /\
  (forall v s',
      ast.Execute (S fuel) (Or lhs rhs) (c, w) = (Normal v, s') \/
      ast.Execute (S fuel) (And lhs rhs) (c, w) = (Normal v, s') ->
      exists b, v = Own (Bool b)).
Proof.
  cbv zeta. split; [|split; [|split; [|split]]].
  - intros l c1 w1 w2 Hl Ht. apply Or_left_true. eapply truth_of_eq; eassumption.
  - intros l c1 w1 w2 Hl Ht. apply And_left_false. eapply truth_of_eq; eassumption.
  - intros l c1 w1 w2 r c3 w3 b w4 Hl Ht Hr Hb.
    erewrite Or_left_false by (eapply truth_of_eq; eassumption).
    erewrite bind_Normal by (eapply truth_of_eq; eassumption). reflexivity.
  - intros l c1 w1 w2 r c3 w3 b w4 Hl Ht Hr Hb.
    erewrite And_left_true by (eapply truth_of_eq; eassumption).
    erewrite bind_Normal by (eapply truth_of_eq; eassumption). reflexivity.
  - intros v s' [H | H]; [rewrite Or_eq in H | rewrite And_eq in H];
      eapply logical_result_Bool; exact H.
Qed.

(** The values that [Equal] has no rule to compare with a Bool. *)
Definition Number_String_or_empty (v : ObjectHolder) : Prop :=
  v = Empty \/ (exists n, Get v = Some (Number n)) \/ (exists s, Get v = Some (String s)).

Definition equality_error : Failure :=
  RuntimeError "Cannot compare objects for equality".

Lemma IsTrue_no_rule (exec : Statement -> M (Closure * World) ObjectHolder)
    (v : ObjectHolder) (w : World) :
  Number_String_or_empty v -> ast.IsTrue exec v w = (Fail equality_error, w).
Proof.
  intros Hv. unfold ast.IsTrue. rewrite Equal_no_rule.
  - replace (TryAs_ClassInstance v) with (@None (Class * nat)); [reflexivity|].
    unfold TryAs_ClassInstance.
    destruct Hv as [-> | [[n ->] | [s ->]]]; reflexivity.
  - unfold no_Equal_rule, TryAs_Bool, TryAs_Number, TryAs_String.
    destruct Hv as [-> | [[n ->] | [s ->]]]; simpl; auto 6.
Qed.

Lemma truth_of_no_rule (fuel : nat) (operand : Statement) (s s1 : Closure * World)
    (v : ObjectHolder) :
  ast.Execute fuel operand s = (Normal v, s1) -> Number_String_or_empty v ->
  truth_of fuel operand s = (Fail equality_error, s1).
Proof.
  intros Hv Hno. destruct s as [c w], s1 as [c1 w1].
  eapply truth_of_eq; [exact Hv|]. now apply IsTrue_no_rule.
Qed.

(** C10.  The truth of an operand of [Or] and [And] is its equality with an
    owned [Bool(true)], by [runtime::Equal]; an operand that evaluates to a
    Number, to a String or to the empty handle therefore ends the operation
    with the exception of [Equal], in the state that operand left. *)
Theorem logical_operand_not_Bool (fuel : nat) (lhs rhs : Statement) (c : Closure) (w : World) :
  let IsTrue := ast.IsTrue (ast.Execute fuel) in
  (forall v w0, IsTrue v w0 = runtime.Equal (ast.Execute fuel) v (Own (Bool true)) w0) /\
  (forall v w0, Number_String_or_empty v -> IsTrue v w0 = (Fail equality_error, w0)) /\
  (forall l s1,
      ast.Execute fuel lhs (c, w) = (Normal l, s1) ->
      Number_String_or_empty l ->
      ast.Execute (S fuel) (Or lhs rhs) (c, w) = (Fail equality_error, s1) /\
      ast.Execute (S fuel) (And lhs rhs) (c, w) = (Fail equality_error, s1)) /\
  (forall l c1 w1 w2 r s3,
      ast.Execute fuel lhs (c, w) = (Normal l, (c1, w1)) ->
      IsTrue l w1 = (Normal false, w2) ->
      ast.Execute fuel rhs (c1, w2) = (Normal r, s3) ->
      Number_String_or_empty r ->
      ast.Execute (S fuel) (Or lhs rhs) (c, w) = (Fail equality_error, s3)) /\
  (forall l c1 w1 w2 r s3,
      ast.Execute fuel lhs (c, w) = (Normal l, (c1, w1)) ->
      IsTrue l w1 = (Normal true, w2) ->
      ast.Execute fuel rhs (c1, w2) = (Normal r, s3) ->
      Number_String_or_empty r ->
      ast.Execute (S fuel) (And lhs rhs) (c, w) = (Fail equality_error, s3)).
Proof.
  cbv zeta. split; [|split; [|split; [|split]]].
  - reflexivity.
  - intros v w0. apply IsTrue_no_rule.
  - intros l s1 Hl Hno. split.
    + apply Or_left_Fail. eapply truth_of_no_rule; eassumption.
    + apply And_left_Fail. eapply truth_of_no_rule; eassumption.
  - intros l c1 w1 w2 r s3 Hl Ht Hr Hno.
    erewrite Or_left_false by (eapply truth_of_eq; eassumption).
    apply bind_Fail. eapply truth_of_no_rule; eassumption.
  - intros l c1 w1 w2 r s3 Hl Ht Hr Hno.
    erewrite And_left_true by (eapply truth_of_eq; eassumption).
    apply bind_Fail. eapply truth_of_no_rule; eassumption.
Qed.

(** C9.  [IfElse] executes its condition first.  An empty result fails the
    assertion of the node; a result that is not a Bool is cast to a null
    pointer, which is then dereferenced; neither is taken for a truth value.
    On a Bool the branch chosen is executed and the node ends as the branch
    does, with its value; with the condition false and no [else] the node
    returns the empty handle. *)
Theorem IfElse_condition_is_Bool (fuel : nat) (condition if_body : Statement)
    (else_body : option Statement) (s s1 : Closure * World) (cond : ObjectHolder) :
  ast.Execute fuel condition s = (Normal cond, s1) ->
  let result := ast.Execute (S fuel) (IfElse condition if_body else_body) s in
  (has_object cond = false -> result = (Fail AssertionFailed, s1)) /\
  (has_object cond = true -> TryAs_Bool cond = None ->
   result = (Fail UndefinedBehaviour, s1)) /\
  (TryAs_Bool cond = Some true -> result = ast.Execute fuel if_body s1) /\
  (TryAs_Bool cond = Some false ->
   result = match else_body with
            | Some else_stmt => ast.Execute fuel else_stmt s1
            | None => (Normal Empty, s1)
            end).
Proof.
  intros Hc. cbv zeta. rewrite Execute_S. simpl ast.node.
  erewrite bind_Normal by exact Hc.
  split; [|split; [|split]].
  - now intros ->.
  - intros -> ->. reflexivity.
  - intros Hb. assert (has_object cond = true) as ->
      by (destruct cond; [discriminate | reflexivity | reflexivity]).
    rewrite Hb. reflexivity.
  - intros Hb. assert (has_object cond = true) as ->
      by (destruct cond; [discriminate | reflexivity | reflexivity]).
    rewrite Hb. simpl. destruct else_body; reflexivity.
Qed.

(** ** The properties on small programs *)

(** A closure with a true and a false Bool and a Number, and a world in
    which nothing was created or written yet. *)
Definition sample_closure : Closure :=
  <["t" := Own (Bool true)]> (<["f" := Own (Bool false)]> (<["x" := Own (Number 1)]> ∅)).

Definition empty_world : World := mk_World [] "".

Definition print_x : Statement := Print [VariableValue ["x"]].

(** [class Same: def __eq__(self, other): return other] and
    [def get(self, v): return v]. *)
Definition class_Same : Class :=
  mk_Class "Same"
    [mk_Method "__eq__" ["other"] (MethodBody (Return (VariableValue ["other"])));
     mk_Method "get" ["v"] (MethodBody (Return (VariableValue ["v"])))]
    None.

(** A class without methods of its own, derived from [Same]. *)
Definition class_Derived : Class := mk_Class "Derived" [] (Some class_Same).

(** A class with no [__eq__] at all. *)
Definition class_Plain : Class := mk_Class "Plain" [] None.

Definition one_instance : World := mk_World [∅] "".

(** C1, against the specification as written: with a true left operand,
    [Or] returns without executing its right operand.  The right operand is
    a [print] that, executed in the same state, writes a line; after the
    [Or] nothing has been written.  The same holds for [And] with a false
    left operand. *)
Lemma Or_And_skip_right_operand :
  output (snd (snd (ast.Execute 3 print_x (sample_closure, empty_world)))) = "1" ++ nl /\
  ast.Execute 4 (Or (VariableValue ["t"]) print_x) (sample_closure, empty_world)
  = (Normal (Own (Bool true)), (sample_closure, empty_world)) /\
  ast.Execute 4 (And (VariableValue ["f"]) print_x) (sample_closure, empty_world)
  = (Normal (Own (Bool false)), (sample_closure, empty_world)).
Proof. repeat split; vm_compute; reflexivity. Qed.

(** The truth of a Number: [runtime::IsTrue] takes a Number other than zero
    for true, the [IsTrue] of the evaluator has no answer. *)
Example IsTrue_of_a_Number :
  runtime.IsTrue (Own (Number 5)) = true /\
  ast.IsTrue (ast.Execute 5) (Own (Number 5)) empty_world
  = (Fail (RuntimeError "Cannot compare objects for equality"), empty_world).
Proof. split; reflexivity. Qed.

Lemma Or_And_short_circuit_witness :
  ast.Execute 4 (Or (VariableValue ["t"]) print_x) (sample_closure, empty_world)
  = (Normal (Own (Bool true)), (sample_closure, empty_world)) /\
  ast.Execute 4 (And (VariableValue ["t"]) (VariableValue ["f"])) (sample_closure, empty_world)
  = (Normal (Own (Bool false)), (sample_closure, empty_world)).
Proof.
  split.
  - apply (proj1 (Or_And_short_circuit 3 (VariableValue ["t"]) print_x
                    sample_closure empty_world)
             (Own (Bool true)) sample_closure empty_world empty_world);
      vm_compute; reflexivity.
  - apply (proj1 (proj2 (proj2 (proj2
             (Or_And_short_circuit 3 (VariableValue ["t"]) (VariableValue ["f"])
                sample_closure empty_world))))
             (Own (Bool true)) sample_closure empty_world empty_world
             (Own (Bool false)) sample_closure empty_world false empty_world);
      vm_compute; reflexivity.
Defined.

Lemma Call_arity_checked_witness :
  runtime.Call (ast.Execute 5) class_Derived 0 "missing" [] one_instance
  = (Fail (RuntimeError "Not implemented"), one_instance) /\
  runtime.Call (ast.Execute 5) class_Derived 0 "get" [] one_instance
  = (Fail (RuntimeError "Not implemented"), one_instance) /\
  runtime.Call (ast.Execute 5) class_Derived 0 "get" [Own (Number 7)] one_instance
  = (Normal (Own (Number 7)), one_instance).
Proof.
  split; [|split].
  - apply (proj1 (Call_arity_checked 5 class_Derived 0 "missing" [] one_instance)).
    reflexivity.
  - apply (proj1 (proj2 (Call_arity_checked 5 class_Derived 0 "get" [] one_instance))
             (mk_Method "get" ["v"] (MethodBody (Return (VariableValue ["v"]))))).
    + reflexivity.
    + simpl. lia.
  - rewrite (proj2 (proj2 (Call_arity_checked 5 class_Derived 0 "get" [Own (Number 7)]
                             one_instance))
               (mk_Method "get" ["v"] (MethodBody (Return (VariableValue ["v"]))))
               eq_refl eq_refl).
    vm_compute. reflexivity.
Defined.

(** C4, against the specification as written: an [__eq__] that returns
    what is no Bool.  The class [Same] has [__eq__(self, other)] return
    [other]; compared with the Number 1, an instance of it makes [Equal]
    neither return a truth value nor raise an exception of the runtime: the
    cast of the result to Bool is null and is dereferenced. *)
Lemma Equal_result_not_Bool :
  runtime.HasMethod class_Same "__eq__" 1 = true /\
  runtime.Equal (ast.Execute 5) (Own (ClassInstance class_Same 0)) (Own (Number 1))
    one_instance = (Fail UndefinedBehaviour, one_instance).
Proof. split; vm_compute; reflexivity. Qed.

Lemma Equal_cascade_witness :
  runtime.Equal (ast.Execute 5) Empty Empty empty_world = (Normal true, empty_world) /\
  runtime.Equal (ast.Execute 5) (Own (Number 1)) (Share (Number 2)) empty_world
  = (Normal false, empty_world) /\
  runtime.Equal (ast.Execute 5) (Own (ClassInstance class_Derived 0)) (Own (Bool true))
    one_instance = (Normal true, one_instance) /\
  runtime.Equal (ast.Execute 5) (Own (ClassInstance class_Derived 0)) (Own (Bool false))
    one_instance = (Normal false, one_instance) /\
  runtime.Equal (ast.Execute 5) (Own (ClassInstance class_Plain 0)) (Own (Bool true))
    one_instance = (Fail (RuntimeError "Not implemented"), one_instance) /\
  runtime.Equal (ast.Execute 5) (Own (Number 1)) (Own (String "1")) empty_world
  = (Fail (RuntimeError "Cannot compare objects for equality"), empty_world).
Proof.
  split; [|split; [|split; [|split; [|split]]]].
  - apply (proj1 (Equal_cascade 5 Empty Empty empty_world)); reflexivity.
  - apply (proj1 (proj2 (proj2
             (Equal_cascade 5 (Own (Number 1)) (Share (Number 2)) empty_world)))
             1 2); reflexivity.
  - destruct (proj1 (proj2 (proj2 (proj2 (proj2
               (Equal_cascade 5 (Own (ClassInstance class_Derived 0)) (Own (Bool true))
                  one_instance)))))
               class_Derived 0%nat eq_refl eq_refl) as (m & p & Hm & Hp & Hequal).
    injection Hm as <-. injection Hp as <-. rewrite Hequal. vm_compute. reflexivity.
  - destruct (proj1 (proj2 (proj2 (proj2 (proj2
               (Equal_cascade 5 (Own (ClassInstance class_Derived 0)) (Own (Bool false))
                  one_instance)))))
               class_Derived 0%nat eq_refl eq_refl) as (m & p & Hm & Hp & Hequal).
    injection Hm as <-. injection Hp as <-. rewrite Hequal. vm_compute. reflexivity.
  - apply (proj1 (proj2 (proj2 (proj2 (proj2 (proj2
             (Equal_cascade 5 (Own (ClassInstance class_Plain 0)) (Own (Bool true))
                one_instance))))))
             class_Plain 0%nat); reflexivity.
  - apply (proj2 (proj2 (proj2 (proj2 (proj2 (proj2
             (Equal_cascade 5 (Own (Number 1)) (Own (String "1")) empty_world)))))));
      [unfold no_Equal_rule; simpl; auto | reflexivity].
Defined.

Lemma derived_comparators_witness :
  runtime.Greater (ast.Execute 5) (Own (Number 2)) (Own (Number 1)) empty_world
  = (Normal true, empty_world) /\
  runtime.LessOrEqual (ast.Execute 5) (Own (Number 2)) (Own (Number 1)) empty_world
  = (Normal false, empty_world) /\
  runtime.GreaterOrEqual (ast.Execute 5) (Own (String "a")) (Own (String "b")) empty_world
  = (Normal false, empty_world) /\
  runtime.NotEqual (ast.Execute 5) (Own (Bool true)) (Own (Bool true)) empty_world
  = (Normal false, empty_world).
Proof.
  split; [|split; [|split]].
  - apply (proj1 (proj1 (derived_comparators 5 (Own (Number 2)) (Own (Number 1))
                           empty_world)
                    false empty_world false empty_world eq_refl eq_refl)).
  - apply (proj2 (proj1 (derived_comparators 5 (Own (Number 2)) (Own (Number 1))
                           empty_world)
                    false empty_world false empty_world eq_refl eq_refl)).
  - apply (proj1 (proj2 (derived_comparators 5 (Own (String "a")) (Own (String "b"))
                           empty_world))
             true empty_world eq_refl).
  - apply (proj2 (proj2 (derived_comparators 5 (Own (Bool true)) (Own (Bool true))
                           empty_world))
             true empty_world eq_refl).
Defined.

Lemma logical_operand_not_Bool_witness :
  ast.Execute 4 (Or (VariableValue ["x"]) (VariableValue ["t"])) (sample_closure, empty_world)
  = (Fail equality_error, (sample_closure, empty_world)) /\
  ast.Execute 4 (And (VariableValue ["t"]) print_x) (sample_closure, empty_world)
  = (Fail equality_error, (sample_closure, mk_World [] ("1" ++ nl))).
Proof.
  split.
  - apply (proj1 (proj2 (proj2
             (logical_operand_not_Bool 3 (VariableValue ["x"]) (VariableValue ["t"])
                sample_closure empty_world)))
             (Own (Number 1)) (sample_closure, empty_world)).
    + vm_compute. reflexivity.
    + right. left. exists 1. reflexivity.
  - apply (proj2 (proj2 (proj2 (proj2
             (logical_operand_not_Bool 3 (VariableValue ["t"]) print_x
                sample_closure empty_world))))
             (Own (Bool true)) sample_closure empty_world empty_world
             (Own (String ("1" ++ nl))) (sample_closure, mk_World [] ("1" ++ nl))).
    + vm_compute. reflexivity.
    + vm_compute. reflexivity.
    + vm_compute. reflexivity.
    + right. right. eexists. reflexivity.
Defined.

Lemma IfElse_condition_is_Bool_witness :
  ast.Execute 4 (IfElse (VariableValue ["x"]) print_x None) (sample_closure, empty_world)
  = (Fail UndefinedBehaviour, (sample_closure, empty_world)) /\
  ast.Execute 4 (IfElse (VariableValue ["f"]) print_x None) (sample_closure, empty_world)
  = (Normal Empty, (sample_closure, empty_world)) /\
  ast.Execute 4 (IfElse (VariableValue ["t"]) print_x None) (sample_closure, empty_world)
  = (Normal (Own (String ("1" ++ nl))), (sample_closure, mk_World [] ("1" ++ nl))) /\
  ast.Execute 4 (IfElse (Compound []) print_x None) (sample_closure, empty_world)
  = (Fail AssertionFailed, (sample_closure, empty_world)).
Proof.
  split; [|split; [|split]].
  - apply (proj1 (proj2
             (IfElse_condition_is_Bool 3 (VariableValue ["x"]) print_x None
                (sample_closure, empty_world) (sample_closure, empty_world)
                (Own (Number 1)) eq_refl))); reflexivity.
  - apply (proj2 (proj2 (proj2
             (IfElse_condition_is_Bool 3 (VariableValue ["f"]) print_x None
                (sample_closure, empty_world) (sample_closure, empty_world)
                (Own (Bool false)) eq_refl)))); reflexivity.
  - rewrite (proj1 (proj2 (proj2
             (IfElse_condition_is_Bool 3 (VariableValue ["t"]) print_x None
                (sample_closure, empty_world) (sample_closure, empty_world)
                (Own (Bool true)) eq_refl))) eq_refl).
    vm_compute. reflexivity.
  - apply (proj1
             (IfElse_condition_is_Bool 3 (Compound []) print_x None
                (sample_closure, empty_world) (sample_closure, empty_world)
                Empty eq_refl)); reflexivity.
Defined.

(** ** The lexer *)

Definition SPACE : ascii := " "%char.

Lemma scan_spaces (n : nat) (rest : list ascii) :
  head rest <> Some SPACE ->
  scan_buf is_space (repeat SPACE n ++ rest)
  = (repeat SPACE n, mk_istream rest (parse.empty_buffer rest)).
Proof.
  intros Hrest. induction n as [|n IH]; simpl.
  - destruct rest as [|c rest]; [reflexivity|].
    simpl. destruct (is_space c) eqn:E; [|reflexivity].
    apply char_eqb_eq in E. subst c. now contradiction Hrest.
  - rewrite IH. reflexivity.
Qed.

Lemma rem_2_odd (n : nat) : Nat.odd n = true -> Z.eqb (Z.rem (Z.of_nat n) 2) 0 = false.
Proof.
  intros H. apply Nat.odd_spec in H as [k ->]. apply Z.eqb_neq.
  rewrite Z.rem_mod_nonneg by lia.
  replace (Z.of_nat (2 * k + 1)) with (1 + Z.of_nat k * 2) by lia.
  rewrite Z.mod_add by lia. discriminate.
Qed.

Lemma rem_2_even (n : nat) : Nat.even n = true -> Z.eqb (Z.rem (Z.of_nat n) 2) 0 = true.
Proof.
  intros H. apply Nat.even_spec in H as [k ->]. apply Z.eqb_eq.
  rewrite Z.rem_mod_nonneg by lia.
  replace (Z.of_nat (2 * k)) with (0 + Z.of_nat k * 2) by lia.
  rewrite Z.mod_add by lia. reflexivity.
Qed.

Lemma quot_2_level (n : nat) : Z.quot (Z.of_nat n) 2 = Z.of_nat (n / 2).
Proof.
  rewrite Z.quot_div_nonneg by lia. symmetry. apply (Nat2Z.inj_div n 2).
Qed.

(** The character a [peek] finds after the leading spaces of a line that is
    not blank is not a line break. *)
Lemma peek_after_spaces (rest : list ascii) :
  head rest <> Some LF ->
  char_eqb (fst (peek (mk_istream rest (parse.empty_buffer rest)))) LF = false.
Proof.
  intros H. destruct rest as [|c rest]; [reflexivity|].
  unfold peek. simpl. apply char_eqb_neq. intros ->. now apply H.
Qed.

(** The run of layout tokens that takes the indentation from one level to
    another. *)
Definition layout (old new : Z) : list Token :=
  repeat (if Z.ltb old new then token_type.Indent else token_type.Dedent)
         (Z.to_nat (Z.abs (new - old))).

Lemma CalculateIndent_line (lx : parse.Lexer) (n : nat) (rest : list ascii) :
  eofbit (parse.input_ lx) = false ->
  rdbuf (parse.input_ lx) = (repeat SPACE n ++ rest)%list ->
  head rest <> Some SPACE -> head rest <> Some LF ->
  parse.CalculateIndent lx =
  if Nat.odd n then parse.AssertionFailed
  else parse.Ok (parse.mk_Lexer (mk_istream rest (parse.empty_buffer rest))
                   (parse.tokens_ lx ++ layout (parse.current_indent_ lx) (Z.of_nat (n / 2)))%list
                   (Z.of_nat (n / 2)) false).
Proof.
  intros Heof Hbuf Hsp Hlf. unfold parse.CalculateIndent, scan_while.
  rewrite Heof, Hbuf, scan_spaces by assumption.
  rewrite peek_after_spaces by assumption. rewrite repeat_length.
  destruct (Nat.odd n) eqn:Hodd.
  - now rewrite rem_2_odd.
  - rewrite rem_2_even by (rewrite <- Nat.negb_odd, Hodd; reflexivity).
    simpl negb. cbv iota. rewrite quot_2_level. unfold layout.
    do 2 f_equal. lia.
Qed.

(** C3, as the code has it.  At the start of a line whose leading spaces
    are followed by something else than a line break, an odd number of
    spaces fails the assertion [counter % 2 == 0] of [CalculateIndent], and
    with it the call of [LoadToken]: the program stops there and no
    [LexerError] is thrown.  An even number sets the indentation level to
    half the count, after that many [Indent] or [Dedent] tokens as the level
    has changed by. *)
Theorem odd_indent_fails_assertion (lx : parse.Lexer) (n : nat) (rest : list ascii) :
  eofbit (parse.input_ lx) = false ->
  rdbuf (parse.input_ lx) = (repeat SPACE n ++ rest)%list ->
  head rest <> Some SPACE -> head rest <> Some LF ->
  (Nat.odd n = true ->
   parse.CalculateIndent lx = parse.AssertionFailed /\
   (parse.new_line_ lx = true ->
    forall fuel, parse.LoadToken (S fuel) lx = parse.AssertionFailed)) /\
  (Nat.odd n = false ->
   exists lx',
     parse.CalculateIndent lx = parse.Ok lx' /\
     parse.current_indent_ lx' = Z.of_nat (n / 2) /\
     parse.tokens_ lx' =
       (parse.tokens_ lx ++ layout (parse.current_indent_ lx) (Z.of_nat (n / 2)))%list /\
     rdbuf (parse.input_ lx') = rest /\
     parse.new_line_ lx' = false).
Proof.
  intros Heof Hbuf Hsp Hlf.
  pose proof (CalculateIndent_line lx n rest Heof Hbuf Hsp Hlf) as H.
  split; intros Hodd; rewrite Hodd in H.
  - split; [exact H|]. intros Hnl fuel. simpl. now rewrite Hnl, H.
  - eexists. split; [exact H|]. simpl. auto.
Qed.

(** C3, against the specification as written: a line that starts with one
    space is not refused with a [LexerError]; the assertion fails. *)
Lemma odd_indent_is_no_LexerError :
  parse.tokenize " x" = parse.AssertionFailed /\
  ~ (exists what, parse.tokenize " x" = parse.LexerError what).
Proof.
  split; [vm_compute; reflexivity|].
  intros [what H]. vm_compute in H. discriminate.
Qed.

Lemma odd_indent_fails_assertion_witness :
  parse.CalculateIndent (parse.initial (list_ascii_of_string "   x"))
  = parse.AssertionFailed /\
  parse.LoadToken 1 (parse.initial (list_ascii_of_string "   x")) = parse.AssertionFailed /\
  exists lx',
    parse.CalculateIndent (parse.initial (list_ascii_of_string "    x")) = parse.Ok lx' /\
    parse.current_indent_ lx' = 2 /\
    parse.tokens_ lx' = [token_type.Indent; token_type.Indent].
Proof.
  assert (head (list_ascii_of_string "x") <> Some SPACE) as Hsp by (simpl; discriminate).
  assert (head (list_ascii_of_string "x") <> Some LF) as Hlf by (simpl; discriminate).
  destruct (odd_indent_fails_assertion
              (parse.initial (list_ascii_of_string "   x")) 3
              (list_ascii_of_string "x") eq_refl eq_refl Hsp Hlf) as [Hodd _].
  destruct (Hodd eq_refl) as [Hcalc Hload].
  destruct (odd_indent_fails_assertion
              (parse.initial (list_ascii_of_string "    x")) 4
              (list_ascii_of_string "x") eq_refl eq_refl Hsp Hlf) as [_ Heven].
  destruct (Heven eq_refl) as (lx' & H1 & H2 & H3 & _).
  split; [exact Hcalc|]. split; [exact (Hload eq_refl 0%nat)|].
  exists lx'. split; [exact H1|]. split; [exact H2|]. rewrite H3. reflexivity.
Defined.

(** The layout tokens of a small source: the scenario of the
    specification. *)
Example tokens_of_indented_source :
  parse.tokenize ("a = 1" ++ nl ++ "  b = 2" ++ nl ++ "c = 3" ++ nl)
  = parse.Ok [token_type.Id "a"; token_type.Char "="; token_type.Number 1;
              token_type.Newline; token_type.Indent;
              token_type.Id "b"; token_type.Char "="; token_type.Number 2;
              token_type.Newline; token_type.Dedent;
              token_type.Id "c"; token_type.Char "="; token_type.Number 3;
              token_type.Newline; token_type.Eof].
Proof. vm_compute. reflexivity. Qed.

(** Blank lines and lines with a comment alone give no [Newline] of their
    own when they are not indented further than the line before. *)
Example blank_and_comment_lines :
  parse.tokenize ("x" ++ nl ++ nl ++ "# note" ++ nl ++ "   " ++ nl ++ "y # end" ++ nl)
  = parse.Ok [token_type.Id "x"; token_type.Newline;
              token_type.Id "y"; token_type.Newline; token_type.Eof].
Proof. vm_compute. reflexivity. Qed.

(** A string literal that is not closed, and a number too large for an
    [int]. *)
Example unterminated_string :
  parse.tokenize "s = 'abc" = parse.LexerError "String parsing error".
Proof. vm_compute. reflexivity. Qed.

Example number_out_of_range :
  parse.tokenize "n = 2147483648" = parse.StdOutOfRange.
Proof. vm_compute. reflexivity. Qed.

(** *** The end of the input *)

Lemma LoadToken_no_input (fuel : nat) (lx : parse.Lexer) :
  rdbuf (parse.input_ lx) = [] -> parse.new_line_ lx = false ->
  parse.LoadToken (S fuel) lx
  = parse.Ok (parse.eof_token (parse.tokens_ lx),
              parse.mk_Lexer (mk_istream [] true) (parse.tokens_ lx)
                (parse.current_indent_ lx) false).
Proof.
  destruct lx as [[buf e] toks cur nlf]. simpl. intros -> ->.
  destruct e; reflexivity.
Qed.

Lemma CalculateIndent_no_input (lx : parse.Lexer) :
  rdbuf (parse.input_ lx) = [] ->
  parse.CalculateIndent lx
  = parse.Ok (parse.mk_Lexer (mk_istream [] true)
                (parse.tokens_ lx ++ layout (parse.current_indent_ lx) 0)%list
                (parse.current_indent_ lx + (0 - parse.current_indent_ lx)) false).
Proof.
  destruct lx as [[buf e] toks cur nlf]. simpl. intros ->.
  destruct e; reflexivity.
Qed.

(** The tokens in the buffer when [LoadToken] tests for the end of the
    input: at the start of a line the open indentation levels are closed
    first. *)
Definition emitted_at_end (lx : parse.Lexer) : list Token :=
  (parse.tokens_ lx ++
   if parse.new_line_ lx
   then repeat token_type.Dedent (Z.to_nat (parse.current_indent_ lx))
   else [])%list.

Lemma LoadToken_line_start_no_input (fuel : nat) (lx : parse.Lexer) :
  rdbuf (parse.input_ lx) = [] -> parse.new_line_ lx = true ->
  parse.LoadToken (S fuel) lx
  = parse.Ok (parse.eof_token (parse.tokens_ lx ++ layout (parse.current_indent_ lx) 0),
              parse.mk_Lexer (mk_istream [] true)
                (parse.tokens_ lx ++ layout (parse.current_indent_ lx) 0)%list
                (parse.current_indent_ lx + (0 - parse.current_indent_ lx)) false).
Proof.
  destruct lx as [[buf e] toks cur nlf]. simpl. intros -> ->.
  destruct e; reflexivity.
Qed.

Lemma layout_to_zero (cur : Z) :
  0 <= cur -> layout cur 0 = repeat token_type.Dedent (Z.to_nat cur).
Proof.
  intros H. unfold layout.
  replace (Z.ltb cur 0) with false by (symmetry; apply Z.ltb_ge; lia).
  f_equal. lia.
Qed.

Lemma LoadToken_at_end (fuel : nat) (lx : parse.Lexer) :
  rdbuf (parse.input_ lx) = [] -> 0 <= parse.current_indent_ lx ->
  exists cur,
    parse.LoadToken (S fuel) lx
    = parse.Ok (parse.eof_token (emitted_at_end lx),
                parse.mk_Lexer (mk_istream [] true) (emitted_at_end lx) cur false).
Proof.
  intros Hbuf Hcur. unfold emitted_at_end.
  destruct (parse.new_line_ lx) eqn:Hnl.
  - eexists. rewrite <- layout_to_zero by assumption.
    now apply LoadToken_line_start_no_input.
  - eexists. rewrite app_nil_r. now apply LoadToken_no_input.
Qed.

Lemma eof_token_cases (tokens : list Token) :
  (tokens = [] -> parse.eof_token tokens = token_type.Eof) /\
  (last tokens = Some token_type.Newline \/ last tokens = Some token_type.Dedent ->
   parse.eof_token tokens = token_type.Eof) /\
  (tokens <> [] -> last tokens <> Some token_type.Newline ->
   last tokens <> Some token_type.Dedent ->
   parse.eof_token tokens = token_type.Newline).
Proof.
  unfold parse.eof_token, parse.back_is. split; [|split].
  - now intros ->.
  - intros [H | H]; rewrite H; simpl; destruct tokens; reflexivity.
  - intros Hne Hnl Hde. destruct tokens as [|t tokens]; [contradiction|].
    simpl parse.empty. cbv iota.
    destruct (last (t :: tokens)) as [[]|]; try reflexivity; contradiction.
Qed.

(** The number of indentation levels a token sequence leaves open. *)
Fixpoint open_levels (tokens : list Token) : Z :=
  match tokens with
  | [] => 0
  | token_type.Indent :: rest => open_levels rest + 1
  | token_type.Dedent :: rest => open_levels rest - 1
  | _ :: rest => open_levels rest
  end.

(** C2, where the code departs from it.  A source whose last line is
    indented and has no line break after it: the [Newline] made up at the end
    of the input is followed by [Eof] at once, and the [Indent] is never
    closed.  With the line break present the same source gets its [Dedent]:
    the levels are closed only when the end of the input is found at the
    start of a line. *)
Theorem Indent_left_open_without_final_newline :
  parse.tokenize ("a" ++ nl ++ "  b")
  = parse.Ok [token_type.Id "a"; token_type.Newline; token_type.Indent;
              token_type.Id "b"; token_type.Newline; token_type.Eof] /\
  parse.tokenize ("a" ++ nl ++ "  b" ++ nl)
  = parse.Ok [token_type.Id "a"; token_type.Newline; token_type.Indent;
              token_type.Id "b"; token_type.Newline; token_type.Dedent;
              token_type.Eof] /\
  match parse.tokenize ("a" ++ nl ++ "  b") with
  | parse.Ok tokens => open_levels tokens = 1
  | _ => False
  end.
Proof. repeat split; vm_compute; reflexivity. Qed.

(** *** The token stream of any source

    What holds of the buffer the constructor fills, for every source it
    accepts: the constructor ends, the buffer ends with the only [Eof] in it,
    no [Newline] follows a [Newline], and no [Dedent] closes a level that was
    not opened. *)

(** A stream is well formed when the [eofbit] is only set with the buffer
    used up. *)
Definition stream_ok (s : istream) : Prop := eofbit s = true -> rdbuf s = [].

Lemma scan_buf_spec (p : ascii -> bool) (buf taken : list ascii) (s' : istream) :
  scan_buf p buf = (taken, s') ->
  buf = (taken ++ rdbuf s')%list /\ stream_ok s' /\ Forall (fun c => p c = true) taken /\
  (eofbit s' = false -> exists c rest, rdbuf s' = c :: rest /\ p c = false).
Proof.
  revert taken s'. induction buf as [|c buf IH]; intros taken s'; simpl.
  - intros [= <- <-]. split; [reflexivity|]. split; [intros _; reflexivity|].
    split; [constructor | discriminate].
  - destruct (p c) eqn:Hp.
    + destruct (scan_buf p buf) as [taken' s''] eqn:E. intros [= <- <-].
      destruct (IH _ _ eq_refl) as (Hbuf & Hok & Hall & Hnext).
      split; [simpl; now f_equal|]. split; [exact Hok|].
      split; [now constructor | exact Hnext].
    + intros [= <- <-]. split; [reflexivity|]. split; [intros H; discriminate|].
      split; [constructor|]. intros _. now exists c, buf.
Qed.

Lemma scan_while_spec (p : ascii -> bool) (s s' : istream) (taken : list ascii) :
  stream_ok s -> scan_while p s = (taken, s') ->
  rdbuf s = (taken ++ rdbuf s')%list /\ stream_ok s' /\
  Forall (fun c => p c = true) taken /\
  (eofbit s' = false -> exists c rest, rdbuf s' = c :: rest /\ p c = false).
Proof.
  intros Hok. unfold scan_while. destruct (eofbit s) eqn:He.
  - intros [= <- <-]. split; [reflexivity|]. split; [exact Hok|].
    split; [constructor|]. intros H. congruence.
  - apply scan_buf_spec.
Qed.

Lemma peek_spec (s : istream) :
  stream_ok s ->
  stream_ok (snd (peek s)) /\ rdbuf (snd (peek s)) = rdbuf s /\
  (eofbit (snd (peek s)) = true -> rdbuf s = []) /\
  (eofbit (snd (peek s)) = false ->
   eofbit s = false /\ snd (peek s) = s /\ exists rest, rdbuf s = fst (peek s) :: rest).
Proof.
  intros Hok. unfold peek. destruct (eofbit s) eqn:He; simpl.
  - split; [exact Hok|]. split; [reflexivity|].
    split; [intros _; now apply Hok | congruence].
  - destruct (rdbuf s) as [|c rest] eqn:Hb; simpl.
    + split; [intros _; reflexivity|]. split; [reflexivity|].
      split; [reflexivity | discriminate].
    + split; [intros H; congruence|]. split; [exact Hb|].
      split; [congruence|]. intros _. split; [reflexivity|]. split; [reflexivity|].
      now exists rest.
Qed.

Lemma get_nonempty (s : istream) (c : ascii) (rest : list ascii) :
  eofbit s = false -> rdbuf s = c :: rest -> get s = (c, mk_istream rest false).
Proof. intros He Hb. unfold get. now rewrite He, Hb. Qed.

(** The tokens that carry no layout. *)
Definition ordinary (t : Token) : bool :=
  negb (parse.is_Newline t || parse.is_Eof t || parse.is_Indent t || parse.is_Dedent t).

Lemma read_string_literal_shorter (q : ascii) (n : nat) :
  forall (buf acc s rest : list ascii),
    (length buf <= n)%nat ->
    parse.read_string_literal q buf acc = parse.Ok (s, rest) ->
    (length rest < length buf)%nat.
Proof.
  induction n as [|n IH]; intros buf acc s rest Hlen.
  - destruct buf; [discriminate | simpl in Hlen; lia].
  - destruct buf as [|ch buf]; [discriminate|]. simpl.
    destruct (char_eqb ch q).
    + intros [= <- <-]. lia.
    + destruct (char_eqb ch "\").
      * destruct buf as [|e buf]; [discriminate|].
        destruct (parse.escaped e); [|discriminate].
        intros H. apply IH in H; simpl in *; lia.
      * destruct (char_eqb ch LF || char_eqb ch CR)%bool; [discriminate|].
        intros H. apply IH in H; simpl in *; lia.
Qed.

Lemma LoadStringToken_spec (i i' : istream) (t : Token) (c : ascii) (rest : list ascii) :
  eofbit i = false -> rdbuf i = c :: rest ->
  parse.LoadStringToken i = parse.Ok (t, i') ->
  ordinary t = true /\ stream_ok i' /\ (length (rdbuf i') < length (rdbuf i))%nat.
Proof.
  intros He Hb. unfold parse.LoadStringToken.
  rewrite (get_nonempty i c rest He Hb). simpl.
  destruct (parse.read_string_literal c rest []) as [[s rest']| | | |] eqn:E;
    try discriminate.
  intros [= <- <-]. apply read_string_literal_shorter with (n := length rest) in E;
    [|lia].
  split; [reflexivity|]. split; [intros H; discriminate|]. rewrite Hb. simpl. lia.
Qed.

Lemma LoadNumberToken_spec (i i' : istream) (t : Token) (c : ascii) (rest : list ascii) :
  eofbit i = false -> rdbuf i = c :: rest -> parse.IsDigit c = true ->
  parse.LoadNumberToken i = parse.Ok (t, i') ->
  ordinary t = true /\ stream_ok i' /\ (length (rdbuf i') < length (rdbuf i))%nat.
Proof.
  intros He Hb Hc. unfold parse.LoadNumberToken, scan_while. rewrite He, Hb.
  simpl. rewrite Hc. destruct (scan_buf parse.IsDigit rest) as [taken s'] eqn:E.
  destruct (parse.stoi (c :: taken)); try discriminate.
  intros [= <- <-]. apply scan_buf_spec in E as (Hrest & Hok & _).
  split; [reflexivity|]. split; [exact Hok|].
  rewrite Hrest. simpl. rewrite length_app. lia.
Qed.

Lemma KEY_WORDS_TOKENS_ordinary (s : string) (t : Token) :
  parse.KEY_WORDS_TOKENS s = Some t -> ordinary t = true.
Proof.
  unfold parse.KEY_WORDS_TOKENS.
  repeat (match goal with
          | |- context [if ?b then _ else _] => destruct b
          end; [intros [= <-]; reflexivity|]).
  discriminate.
Qed.

Lemma LoadIdToken_spec (i i' : istream) (t : Token) (c : ascii) (rest : list ascii) :
  eofbit i = false -> rdbuf i = c :: rest -> parse.IsIdOpening c = true ->
  parse.LoadIdToken i = (t, i') ->
  ordinary t = true /\ stream_ok i' /\ (length (rdbuf i') < length (rdbuf i))%nat.
Proof.
  intros He Hb Hc. unfold parse.LoadIdToken, scan_while. rewrite He, Hb.
  simpl. unfold parse.IsIdCharacter at 1. rewrite Hc. simpl.
  destruct (scan_buf parse.IsIdCharacter rest) as [taken s'] eqn:E.
  apply scan_buf_spec in E as (Hrest & Hok & _).
  destruct (parse.KEY_WORDS_TOKENS _) as [kw|] eqn:K; intros [= <- <-].
  - split; [now apply KEY_WORDS_TOKENS_ordinary in K|]. split; [exact Hok|].
    rewrite Hrest. simpl. rewrite length_app. lia.
  - split; [reflexivity|]. split; [exact Hok|].
    rewrite Hrest. simpl. rewrite length_app. lia.
Qed.

Lemma get_spec (s : istream) :
  stream_ok s ->
  stream_ok (snd (get s)) /\ (length (rdbuf (snd (get s))) <= length (rdbuf s))%nat.
Proof.
  intros Hok. unfold get. destruct (eofbit s) eqn:He; simpl.
  - split; [exact Hok | lia].
  - destruct (rdbuf s); simpl.
    + split; [intros _; reflexivity | lia].
    + split; [intros H; discriminate | lia].
Qed.

Lemma LoadOperatorsToken_spec (i i' : istream) (t : Token) (c : ascii) (rest : list ascii) :
  eofbit i = false -> rdbuf i = c :: rest ->
  parse.LoadOperatorsToken i = (t, i') ->
  ordinary t = true /\ stream_ok i' /\ (length (rdbuf i') < length (rdbuf i))%nat.
Proof.
  intros He Hb. unfold parse.LoadOperatorsToken.
  rewrite (get_nonempty i c rest He Hb), Hb.
  assert (stream_ok (mk_istream rest false)) as Hok0 by (intros H; discriminate).
  destruct (_ || _)%bool.
  - destruct (peek_spec (mk_istream rest false) Hok0) as (Hok & Hbuf & _ & _).
    destruct (peek (mk_istream rest false)) as [c2 i2] eqn:Hp. simpl in Hok, Hbuf.
    destruct (char_eqb c2 "=").
    + destruct (get_spec i2 Hok) as [Hok3 Hlen3]. rewrite Hbuf in Hlen3.
      repeat (match goal with
              | |- context [if ?b then _ else _] => destruct b
              end); intros [= <- <-];
        (split; [reflexivity|]; split; [exact Hok3 | simpl; lia]).
    + intros [= <- <-]. split; [reflexivity|]. split; [exact Hok|].
      rewrite Hbuf. simpl. lia.
  - intros [= <- <-]. split; [reflexivity|]. split; [exact Hok0 | simpl; lia].
Qed.

(** Two [Newline] tokens in a row. *)
Definition consecutive_Newlines (tokens : list Token) : Prop :=
  exists pre post,
    tokens = (pre ++ token_type.Newline :: token_type.Newline :: post)%list.

(** At no point of the sequence have more levels been closed than opened. *)
Definition levels_ok (tokens : list Token) : Prop :=
  forall pre post, tokens = (pre ++ post)%list -> 0 <= open_levels pre.

Lemma open_levels_app (l1 l2 : list Token) :
  open_levels (l1 ++ l2) = open_levels l1 + open_levels l2.
Proof.
  induction l1 as [|t l1 IH]; simpl; [lia|].
  destruct t; rewrite ?IH; lia.
Qed.

Lemma open_levels_Indents (k : nat) :
  open_levels (repeat token_type.Indent k) = Z.of_nat k.
Proof. induction k as [|k IH]; simpl repeat; simpl open_levels; lia. Qed.

Lemma open_levels_Dedents (k : nat) :
  open_levels (repeat token_type.Dedent k) = - Z.of_nat k.
Proof. induction k as [|k IH]; simpl repeat; simpl open_levels; lia. Qed.

Lemma open_levels_layout (old new : Z) : open_levels (layout old new) = new - old.
Proof.
  unfold layout. destruct (Z.ltb_spec old new).
  - rewrite open_levels_Indents. lia.
  - rewrite open_levels_Dedents. lia.
Qed.

Lemma repeat_prefix {A : Type} (x : A) (k : nat) (m post : list A) :
  repeat x k = (m ++ post)%list -> m = repeat x (length m) /\ (length m <= k)%nat.
Proof.
  revert m. induction k as [|k IH]; intros m H.
  - destruct m; [split; [reflexivity | simpl; lia] | discriminate].
  - destruct m as [|a m]; [split; [reflexivity | simpl; lia]|].
    simpl in H. injection H as <- H. destruct (IH m H) as [Hm Hlen].
    split; [simpl; now f_equal | simpl; lia].
Qed.

Lemma app_eq_app_cases {A : Type} (l1 l2 pre post : list A) :
  (pre ++ post = l1 ++ l2)%list ->
  (exists m, l1 = pre ++ m)%list \/ (exists m, pre = l1 ++ m /\ l2 = m ++ post)%list.
Proof.
  revert l1. induction pre as [|a pre IH]; intros l1 H.
  - left. now exists l1.
  - destruct l1 as [|b l1].
    + right. exists (a :: pre). split; [reflexivity | simpl in H; now symmetry].
    + simpl in H. injection H as <- H. destruct (IH l1 H) as [[m ->] | (m & -> & ->)].
      * left. now exists m.
      * right. now exists m.
Qed.

Lemma levels_ok_prefix (l m : list Token) : levels_ok (l ++ m) -> levels_ok l.
Proof.
  intros H pre post ->. apply (H pre (post ++ m)%list). now rewrite app_assoc.
Qed.

Lemma levels_ok_total (l : list Token) : levels_ok l -> 0 <= open_levels l.
Proof. intros H. apply (H l []). now rewrite app_nil_r. Qed.

Lemma levels_ok_layout (l : list Token) (old new : Z) :
  levels_ok l -> open_levels l = old -> 0 <= new -> levels_ok (l ++ layout old new).
Proof.
  intros Hl Hold Hnew pre post H. symmetry in H.
  apply app_eq_app_cases in H as [[m ->] | (m & -> & Hm)].
  - apply (Hl pre m eq_refl).
  - rewrite open_levels_app, Hold. pose proof (levels_ok_total l Hl) as H0.
    unfold layout in Hm. apply repeat_prefix in Hm as [Hm Hlen]. rewrite Hm.
    destruct (Z.ltb_spec old new).
    + rewrite open_levels_Indents. lia.
    + rewrite open_levels_Dedents. lia.
Qed.

Lemma levels_ok_snoc (l : list Token) (t : Token) :
  levels_ok l -> parse.is_Dedent t = false -> levels_ok (l ++ [t]).
Proof.
  intros Hl Ht pre post H. symmetry in H.
  apply app_eq_app_cases in H as [[m ->] | (m & -> & Hm)].
  - apply (Hl pre m eq_refl).
  - rewrite open_levels_app. pose proof (levels_ok_total l Hl) as H0.
    destruct m as [|a m]; [simpl; lia|].
    simpl in Hm. injection Hm as <- Hm.
    destruct m; [|discriminate]. destruct t; simpl; try lia. discriminate.
Qed.

Lemma no_consecutive_snoc (l : list Token) (t : Token) :
  ~ consecutive_Newlines l ->
  (parse.is_Newline t = true -> parse.back_is parse.is_Newline l = false) ->
  ~ consecutive_Newlines (l ++ [t]).
Proof.
  intros Hl Ht (pre & post & H).
  destruct post as [|x post' _] using rev_ind.
  - change (pre ++ [token_type.Newline; token_type.Newline])%list
      with (pre ++ [token_type.Newline] ++ [token_type.Newline])%list in H.
    rewrite app_assoc in H. apply app_inj_tail in H as [-> ->].
    specialize (Ht eq_refl). unfold parse.back_is in Ht.
    rewrite last_snoc in Ht. discriminate.
  - change (pre ++ token_type.Newline :: token_type.Newline :: post' ++ [x])%list
      with (pre ++ (token_type.Newline :: token_type.Newline :: post') ++ [x])%list in H.
    rewrite app_assoc in H. apply app_inj_tail in H as [-> _].
    apply Hl. now exists pre, post'.
Qed.

Lemma no_consecutive_app (l l' : list Token) :
  ~ consecutive_Newlines l ->
  Forall (fun t => parse.is_Newline t = false) l' ->
  ~ consecutive_Newlines (l ++ l').
Proof.
  revert l. induction l' as [|a l' IH]; intros l Hl Hall.
  - now rewrite app_nil_r.
  - inversion Hall as [|x xs Ha Hall']; subst.
    change (l ++ a :: l')%list with (l ++ [a] ++ l')%list. rewrite app_assoc.
    apply IH; [|exact Hall'].
    apply no_consecutive_snoc; [exact Hl | congruence].
Qed.

Lemma layout_tokens (old new : Z) (p : Token -> bool) :
  p token_type.Indent = false -> p token_type.Dedent = false ->
  Forall (fun t => p t = false) (layout old new).
Proof.
  intros Hi Hd. apply List.Forall_forall. intros t Hin.
  unfold layout in Hin. apply repeat_spec in Hin. subst t.
  now destruct (Z.ltb old new).
Qed.

(** What the token buffer satisfies while it is filled, [cur] being the
    current indentation level. *)
Definition tokens_ok (tokens : list Token) (cur : Z) : Prop :=
  0 <= cur /\ open_levels tokens = cur /\ levels_ok tokens /\
  ~ consecutive_Newlines tokens /\
  Forall (fun t => parse.is_Eof t = false) tokens.

Lemma tokens_ok_layout (tokens : list Token) (old new : Z) :
  tokens_ok tokens old -> 0 <= new -> tokens_ok (tokens ++ layout old new) new.
Proof.
  intros (Hcur & Hopen & Hlev & Hnl & Heof) Hnew.
  split; [exact Hnew|]. split; [rewrite open_levels_app, open_levels_layout; lia|].
  split; [now apply levels_ok_layout|].
  split; [apply no_consecutive_app; [exact Hnl | now apply layout_tokens]|].
  apply Forall_app. split; [exact Heof | now apply layout_tokens].
Qed.

Lemma tokens_ok_snoc (tokens : list Token) (cur : Z) (t : Token) :
  tokens_ok tokens cur ->
  parse.is_Indent t = false -> parse.is_Dedent t = false -> parse.is_Eof t = false ->
  (parse.is_Newline t = true -> parse.back_is parse.is_Newline tokens = false) ->
  tokens_ok (tokens ++ [t]) cur.
Proof.
  intros (Hcur & Hopen & Hlev & Hnl & Heof) Hi Hd He Hn.
  split; [exact Hcur|].
  split; [rewrite open_levels_app, Hopen; destruct t; simpl; try lia; discriminate|].
  split; [now apply levels_ok_snoc|].
  split; [now apply no_consecutive_snoc|].
  apply Forall_app. split; [exact Heof | now repeat constructor].
Qed.

Lemma tokens_ok_nil : tokens_ok [] 0.
Proof.
  split; [lia|]. split; [reflexivity|].
  split; [intros pre post H; symmetry in H; apply app_eq_nil in H as [-> _]; simpl; lia|].
  split; [|constructor].
  intros (pre & post & H). destruct pre; discriminate.
Qed.

Lemma CalculateIndent_ok (lx lx1 : parse.Lexer) :
  stream_ok (parse.input_ lx) ->
  tokens_ok (parse.tokens_ lx) (parse.current_indent_ lx) ->
  parse.CalculateIndent lx = parse.Ok lx1 ->
  stream_ok (parse.input_ lx1) /\
  tokens_ok (parse.tokens_ lx1) (parse.current_indent_ lx1) /\
  (length (rdbuf (parse.input_ lx1)) <= length (rdbuf (parse.input_ lx)))%nat.
Proof.
  intros Hs Ht. unfold parse.CalculateIndent.
  destruct (scan_while is_space (parse.input_ lx)) as [spaces input1] eqn:E.
  apply scan_while_spec in E as (Hbuf & Hok1 & _); [|exact Hs].
  assert (length (rdbuf input1) <= length (rdbuf (parse.input_ lx)))%nat as Hlen
    by (rewrite Hbuf, length_app; lia).
  destruct (char_eqb _ LF).
  - intros [= <-]. simpl. auto.
  - destruct (negb _); [discriminate|]. intros [= <-]. simpl.
    split; [exact Hok1|]. split; [|exact Hlen].
    replace (parse.current_indent_ lx +
             (Z.quot (Z.of_nat (length spaces)) 2 - parse.current_indent_ lx))
      with (Z.quot (Z.of_nat (length spaces)) 2) by lia.
    apply tokens_ok_layout; [exact Ht|]. apply Z.quot_pos; lia.
Qed.

(** The part of [LoadToken] between the layout and the choice of the token:
    spaces and a comment are skipped, and the next character is looked at. *)
Definition next_character (i : istream) : ascii * istream :=
  let input1 := snd (scan_while is_space i) in
  let c := fst (peek input1) in
  let input2 := if char_eqb c "#" then snd (scan_while not_newline input1) else input1 in
  peek input2.

Lemma next_character_spec (i : istream) :
  stream_ok i ->
  stream_ok (snd (next_character i)) /\
  (length (rdbuf (snd (next_character i))) <= length (rdbuf i))%nat /\
  (eofbit (snd (next_character i)) = false ->
   exists rest, rdbuf (snd (next_character i)) = fst (next_character i) :: rest).
Proof.
  intros Hs. unfold next_character.
  destruct (scan_while is_space i) as [sp input1] eqn:E1.
  apply scan_while_spec in E1 as (Hb1 & Hok1 & _); [|exact Hs]. simpl.
  assert (exists input2,
             (if char_eqb (fst (peek input1)) "#"
              then snd (scan_while not_newline input1) else input1) = input2 /\
             stream_ok input2 /\
             (length (rdbuf input2) <= length (rdbuf input1))%nat)
    as (input2 & -> & Hok2 & Hlen2).
  { destruct (char_eqb _ "#").
    - destruct (scan_while not_newline input1) as [cm input2] eqn:E2.
      apply scan_while_spec in E2 as (Hb2 & Hok2 & _); [|exact Hok1].
      exists input2. simpl. split; [reflexivity|]. split; [exact Hok2|].
      rewrite Hb2, length_app. lia.
    - exists input1. split; [reflexivity|]. split; [exact Hok1 | lia]. }
  destruct (peek_spec input2 Hok2) as (Hok3 & Hb3 & _ & Hnext).
  split; [exact Hok3|]. split; [rewrite Hb3, Hb1, length_app; lia|].
  intros He. destruct (Hnext He) as (_ & _ & rest & Hrest).
  exists rest. now rewrite Hb3.
Qed.

Lemma LoadToken_S (fuel : nat) (lx : parse.Lexer) :
  parse.LoadToken (S fuel) lx =
  parse.lift_result (if parse.new_line_ lx then parse.CalculateIndent lx else parse.Ok lx)
    (fun lx1 =>
       let c := fst (next_character (parse.input_ lx1)) in
       let input3 := snd (next_character (parse.input_ lx1)) in
       let with_input (i : istream) :=
         parse.mk_Lexer i (parse.tokens_ lx1) (parse.current_indent_ lx1)
           (parse.new_line_ lx1) in
       if char_eqb c LF then
         let lx2 := parse.mk_Lexer (snd (get input3)) (parse.tokens_ lx1)
                      (parse.current_indent_ lx1) true in
         if (parse.empty (parse.tokens_ lx1) ||
             parse.back_is parse.is_Newline (parse.tokens_ lx1))%bool
         then parse.LoadToken fuel lx2
         else parse.Ok (token_type.Newline, lx2)
       else if eof input3 then
         parse.Ok (parse.eof_token (parse.tokens_ lx1), with_input input3)
       else if parse.IsStringOpening c then
         parse.lift_result (parse.LoadStringToken input3)
           (fun '(t, i) => parse.Ok (t, with_input i))
       else if parse.IsDigit c then
         parse.lift_result (parse.LoadNumberToken input3)
           (fun '(t, i) => parse.Ok (t, with_input i))
       else if parse.IsIdOpening c then
         let '(t, i) := parse.LoadIdToken input3 in parse.Ok (t, with_input i)
       else
         let '(t, i) := parse.LoadOperatorsToken input3 in parse.Ok (t, with_input i)).
Proof.
  unfold next_character.
  change (parse.LoadToken (S fuel) lx) with
    (parse.lift_result
       (if parse.new_line_ lx then parse.CalculateIndent lx else parse.Ok lx)
       (fun lx1 =>
          let input1 := snd (scan_while is_space (parse.input_ lx1)) in
          let c := fst (peek input1) in
          let input2 :=
            if char_eqb c "#" then snd (scan_while not_newline input1) else input1 in
          let '(c, input3) := peek input2 in
          if char_eqb c LF then
            let lx2 := parse.mk_Lexer (snd (get input3)) (parse.tokens_ lx1)
                         (parse.current_indent_ lx1) true in
            if (parse.empty (parse.tokens_ lx1) ||
                parse.back_is parse.is_Newline (parse.tokens_ lx1))%bool
            then parse.LoadToken fuel lx2
            else parse.Ok (token_type.Newline, lx2)
          else
            let with_input (i : istream) :=
              parse.mk_Lexer i (parse.tokens_ lx1) (parse.current_indent_ lx1)
                (parse.new_line_ lx1) in
            if eof input3 then
              parse.Ok (parse.eof_token (parse.tokens_ lx1), with_input input3)
            else if parse.IsStringOpening c then
              parse.lift_result (parse.LoadStringToken input3)
                (fun '(t, i) => parse.Ok (t, with_input i))
            else if parse.IsDigit c then
              parse.lift_result (parse.LoadNumberToken input3)
                (fun '(t, i) => parse.Ok (t, with_input i))
            else if parse.IsIdOpening c then
              let '(t, i) := parse.LoadIdToken input3 in parse.Ok (t, with_input i)
            else
              let '(t, i) := parse.LoadOperatorsToken input3 in
              parse.Ok (t, with_input i))).
  destruct (if parse.new_line_ lx then parse.CalculateIndent lx else parse.Ok lx)
    as [lx1| | | |]; try reflexivity.
  cbv beta zeta delta [parse.lift_result]. cbv beta iota.
  match goal with
  | |- context [peek (if ?b then ?x else ?y)] =>
      destruct (peek (if b then x else y)) as [c input3]
  end.
  reflexivity.
Qed.

(** What is left to do before the constructor ends: two steps for each
    character not yet read, and up to two more for the [Newline] and the
    [Eof] at the end. *)
Definition pending (tokens : list Token) : nat :=
  if parse.back_is parse.is_Eof tokens then 0
  else if (parse.back_is parse.is_Newline tokens ||
           parse.back_is parse.is_Dedent tokens)%bool then 1
  else 2.

Definition remaining_work (lx : parse.Lexer) : nat :=
  2 * length (rdbuf (parse.input_ lx)) + pending (parse.tokens_ lx).

Lemma back_is_snoc (p : Token -> bool) (l : list Token) (t : Token) :
  parse.back_is p (l ++ [t]) = p t.
Proof. unfold parse.back_is. now rewrite last_snoc. Qed.

Lemma empty_snoc (l : list Token) (t : Token) : parse.empty (l ++ [t]) = false.
Proof. now destruct l. Qed.

Lemma back_is_no_Eof (l : list Token) :
  Forall (fun t => parse.is_Eof t = false) l -> parse.back_is parse.is_Eof l = false.
Proof.
  destruct l as [|x l' _] using rev_ind; [reflexivity|].
  intros H. rewrite back_is_snoc. apply Forall_app in H as [_ H].
  now inversion H.
Qed.

Lemma pending_le (l : list Token) : (pending l <= 2)%nat.
Proof. unfold pending. repeat destruct (_ : bool); lia. Qed.

Lemma pending_pos (l : list Token) :
  Forall (fun t => parse.is_Eof t = false) l -> (1 <= pending l)%nat.
Proof.
  intros H. unfold pending. rewrite back_is_no_Eof by exact H.
  destruct (_ || _)%bool; lia.
Qed.

Lemma pending_snoc_Eof (l : list Token) : pending (l ++ [token_type.Eof]) = 0%nat.
Proof. unfold pending. now rewrite back_is_snoc. Qed.

Lemma pending_snoc_Newline (l : list Token) : pending (l ++ [token_type.Newline]) = 1%nat.
Proof. unfold pending. now rewrite !back_is_snoc. Qed.

Definition eof_ok (tokens : list Token) : Prop :=
  tokens = [] \/ parse.back_is parse.is_Newline tokens = true \/
  parse.back_is parse.is_Dedent tokens = true.

Lemma eof_token_spec (l : list Token) :
  (parse.eof_token l = token_type.Eof /\ eof_ok l) \/
  (parse.eof_token l = token_type.Newline /\ l <> [] /\
   parse.back_is parse.is_Newline l = false /\ parse.back_is parse.is_Dedent l = false).
Proof.
  unfold parse.eof_token, eof_ok. destruct l as [|a l]; [left; auto|].
  simpl parse.empty. cbv iota.
  destruct (parse.back_is parse.is_Newline (a :: l)) eqn:E1; [left; auto|].
  destruct (parse.back_is parse.is_Dedent (a :: l)) eqn:E2; [left; auto|].
  right. simpl. repeat split. discriminate.
Qed.

(** What a call of [LoadToken] that returns [t] and leaves [lx'] has
    achieved, from [lx]. *)
Definition step_result (lx : parse.Lexer) (t : Token) (lx' : parse.Lexer) : Prop :=
  stream_ok (parse.input_ lx') /\
  tokens_ok (parse.tokens_ lx') (parse.current_indent_ lx') /\
  parse.is_Indent t = false /\ parse.is_Dedent t = false /\
  (parse.is_Newline t = true ->
   parse.back_is parse.is_Newline (parse.tokens_ lx') = false) /\
  (parse.is_Eof t = true -> eof_ok (parse.tokens_ lx')) /\
  (remaining_work (parse.push_back lx' t) < remaining_work lx)%nat.

Lemma step_ordinary (lx : parse.Lexer) (tokens : list Token) (cur : Z) (nlf : bool)
    (t : Token) (i : istream) :
  tokens_ok (parse.tokens_ lx) (parse.current_indent_ lx) ->
  tokens_ok tokens cur -> ordinary t = true -> stream_ok i ->
  (length (rdbuf i) < length (rdbuf (parse.input_ lx)))%nat ->
  step_result lx t (parse.mk_Lexer i tokens cur nlf).
Proof.
  intros (_ & _ & _ & _ & Hno) Ht Hord Hi Hlen. unfold step_result. simpl.
  split; [exact Hi|]. split; [exact Ht|].
  split; [now destruct t|]. split; [now destruct t|].
  split; [now destruct t|]. split; [now destruct t|].
  unfold remaining_work. simpl.
  pose proof (pending_le (tokens ++ [t])). pose proof (pending_pos _ Hno). lia.
Qed.

Lemma step_end (lx : parse.Lexer) (tokens : list Token) (cur : Z) (nlf : bool)
    (i : istream) :
  tokens_ok tokens cur -> stream_ok i -> rdbuf i = [] ->
  (3 <= remaining_work lx)%nat \/
  (tokens = parse.tokens_ lx /\ Forall (fun t => parse.is_Eof t = false) tokens) \/
  (parse.back_is parse.is_Dedent tokens = true /\
   Forall (fun t => parse.is_Eof t = false) (parse.tokens_ lx)) ->
  step_result lx (parse.eof_token tokens) (parse.mk_Lexer i tokens cur nlf).
Proof.
  intros Ht Hi Hbuf Hwork. unfold step_result, remaining_work. simpl. rewrite Hbuf.
  split; [exact Hi|]. split; [exact Ht|].
  destruct (eof_token_spec tokens) as [[-> Hok] | (-> & Hne & Hnl & Hde)]; simpl.
  - split; [reflexivity|]. split; [reflexivity|]. split; [discriminate|].
    split; [intros _; exact Hok|]. rewrite pending_snoc_Eof.
    destruct Hwork as [H | [[-> H] | [_ H]]];
      [unfold remaining_work in H; lia | | ];
      pose proof (pending_pos _ H); lia.
  - split; [reflexivity|]. split; [reflexivity|]. split; [intros _; exact Hnl|].
    split; [discriminate|]. rewrite pending_snoc_Newline.
    destruct Hwork as [H | [[<- H] | [H _]]].
    + unfold remaining_work in H. lia.
    + unfold pending. rewrite back_is_no_Eof by exact H. rewrite Hnl, Hde. simpl. lia.
    + congruence.
Qed.

Lemma peek_eof (s : istream) : eofbit (snd (peek s)) = true -> fst (peek s) = EOF_char.
Proof.
  unfold peek. destruct (eofbit s) eqn:He; [reflexivity|].
  destruct (rdbuf s); [reflexivity|]. simpl. congruence.
Qed.

Lemma next_character_eof (i : istream) :
  eofbit (snd (next_character i)) = true -> fst (next_character i) = EOF_char.
Proof. unfold next_character. apply peek_eof. Qed.

Lemma LoadToken_at_end_level (fuel : nat) (lx : parse.Lexer) :
  rdbuf (parse.input_ lx) = [] -> 0 <= parse.current_indent_ lx ->
  parse.LoadToken (S fuel) lx
  = parse.Ok (parse.eof_token (emitted_at_end lx),
              parse.mk_Lexer (mk_istream [] true) (emitted_at_end lx)
                (if parse.new_line_ lx then 0 else parse.current_indent_ lx) false).
Proof.
  intros Hbuf Hcur. unfold emitted_at_end.
  destruct (parse.new_line_ lx) eqn:Hnl.
  - rewrite <- layout_to_zero by assumption.
    rewrite LoadToken_line_start_no_input by assumption.
    do 3 f_equal. lia.
  - rewrite app_nil_r. now apply LoadToken_no_input.
Qed.

Lemma layout_step (lx : parse.Lexer) :
  stream_ok (parse.input_ lx) ->
  tokens_ok (parse.tokens_ lx) (parse.current_indent_ lx) ->
  forall lx1,
    (if parse.new_line_ lx then parse.CalculateIndent lx else parse.Ok lx) = parse.Ok lx1 ->
    stream_ok (parse.input_ lx1) /\
    tokens_ok (parse.tokens_ lx1) (parse.current_indent_ lx1) /\
    (length (rdbuf (parse.input_ lx1)) <= length (rdbuf (parse.input_ lx)))%nat.
Proof.
  intros Hs Ht lx1. destruct (parse.new_line_ lx).
  - now apply CalculateIndent_ok.
  - intros [= <-]. auto.
Qed.

Lemma LoadToken_step (fuel : nat) :
  forall (lx : parse.Lexer) (t : Token) (lx' : parse.Lexer),
    stream_ok (parse.input_ lx) ->
    tokens_ok (parse.tokens_ lx) (parse.current_indent_ lx) ->
    parse.LoadToken fuel lx = parse.Ok (t, lx') ->
    step_result lx t lx'.
Proof.
  induction fuel as [|fuel IH]; intros lx t lx' Hs Ht; [discriminate|].
  destruct (rdbuf (parse.input_ lx)) as [|c0 buf0] eqn:Hbuf.
  - (* nothing left to read *)
    destruct Ht as (Hcur & Hopen & Hlev & Hnl & Hno) eqn:EHt.
    rewrite LoadToken_at_end_level by assumption. intros [= <- <-].
    apply step_end.
    + unfold emitted_at_end. destruct (parse.new_line_ lx).
      * rewrite <- layout_to_zero by assumption. now apply tokens_ok_layout.
      * now rewrite app_nil_r.
    + intros _. reflexivity.
    + reflexivity.
    + right. unfold emitted_at_end. destruct (parse.new_line_ lx).
      * destruct (Z.to_nat (parse.current_indent_ lx)) as [|k].
        -- left. simpl. rewrite app_nil_r. auto.
        -- right. split; [|exact Hno].
           replace (repeat token_type.Dedent (S k))
             with (repeat token_type.Dedent k ++ [token_type.Dedent])%list
             by (symmetry; apply (repeat_cons k token_type.Dedent)).
           rewrite app_assoc. apply back_is_snoc.
      * left. rewrite app_nil_r. auto.
  - (* some input left *)
    assert (3 <= remaining_work lx)%nat as Hwork.
    { unfold remaining_work. rewrite Hbuf. simpl.
      destruct Ht as (_ & _ & _ & _ & Hno). pose proof (pending_pos _ Hno). lia. }
    assert (length (rdbuf (parse.input_ lx)) = S (length buf0)) as Hlen0
      by now rewrite Hbuf.
    clear Hbuf. rewrite LoadToken_S.
    destruct (if parse.new_line_ lx then parse.CalculateIndent lx else parse.Ok lx)
      as [lx1| | | |] eqn:E1; try discriminate.
    destruct (layout_step lx Hs Ht lx1 E1) as (Hs1 & Ht1 & Hlen1).
    destruct (next_character_spec (parse.input_ lx1) Hs1) as (Hs3 & Hlen3 & Hnext).
    pose proof (next_character_eof (parse.input_ lx1)) as Heofc.
    unfold parse.lift_result at 1. cbv beta zeta.
    destruct (next_character (parse.input_ lx1)) as [c input3]. cbn [fst snd] in *.
    destruct (char_eqb c LF) eqn:Hc.
    + (* a line break *)
      apply char_eqb_eq in Hc. subst c.
      destruct (eofbit input3) eqn:He3; [specialize (Heofc eq_refl); discriminate|].
      destruct (Hnext eq_refl) as [rest Hrest].
      rewrite (get_nonempty input3 LF rest He3 Hrest). cbn [snd].
      assert (stream_ok (mk_istream rest false)) as Hs4 by (intros H; discriminate).
      assert (length rest < length (rdbuf (parse.input_ lx)))%nat as Hlen4
        by (rewrite Hrest in Hlen3; simpl in Hlen3; lia).
      destruct (parse.empty (parse.tokens_ lx1) ||
                parse.back_is parse.is_Newline (parse.tokens_ lx1))%bool eqn:Hrec.
      * intros H. apply IH in H; [|exact Hs4 | exact Ht1].
        destruct H as (R1 & R2 & R3 & R4 & R5 & R6 & R7).
        unfold step_result. repeat (split; [assumption|]).
        unfold remaining_work in *. cbn [parse.input_ parse.tokens_ rdbuf] in R7.
        pose proof (pending_le (parse.tokens_ lx1)).
        destruct Ht as (_ & _ & _ & _ & Hno). pose proof (pending_pos _ Hno). lia.
      * intros [= <- <-]. apply orb_false_iff in Hrec as [_ Hrec].
        unfold step_result. simpl.
        split; [exact Hs4|]. split; [exact Ht1|].
        split; [reflexivity|]. split; [reflexivity|]. split; [intros _; exact Hrec|].
        split; [discriminate|].
        unfold remaining_work. simpl. rewrite pending_snoc_Newline. lia.
    + unfold eof. destruct (eofbit input3) eqn:He3.
      * (* the end of the input *)
        intros [= <- <-]. apply step_end; [exact Ht1 | exact Hs3 | now apply Hs3 | now left].
      * destruct (Hnext eq_refl) as [rest Hrest].
        assert (forall i, (length (rdbuf i) < length (rdbuf input3))%nat ->
                          (length (rdbuf i) < length (rdbuf (parse.input_ lx)))%nat)
          as Hshorter by (intros i Hi; lia).
        destruct (parse.IsStringOpening c).
        { destruct (parse.LoadStringToken input3) as [[t0 i0]| | | |] eqn:El;
            try discriminate.
          intros [= <- <-].
          destruct (LoadStringToken_spec _ _ _ _ _ He3 Hrest El) as (Ho & Hi & Hl).
          apply step_ordinary; auto. }
        destruct (parse.IsDigit c) eqn:Hd.
        { destruct (parse.LoadNumberToken input3) as [[t0 i0]| | | |] eqn:El;
            try discriminate.
          intros [= <- <-].
          destruct (LoadNumberToken_spec _ _ _ _ _ He3 Hrest Hd El) as (Ho & Hi & Hl).
          apply step_ordinary; auto. }
        destruct (parse.IsIdOpening c) eqn:Hid.
        { destruct (parse.LoadIdToken input3) as [t0 i0] eqn:El.
          intros [= <- <-].
          destruct (LoadIdToken_spec _ _ _ _ _ He3 Hrest Hid El) as (Ho & Hi & Hl).
          apply step_ordinary; auto. }
        destruct (parse.LoadOperatorsToken input3) as [t0 i0] eqn:El.
        intros [= <- <-].
        destruct (LoadOperatorsToken_spec _ _ _ _ _ He3 Hrest El) as (Ho & Hi & Hl).
        apply step_ordinary; auto.
Qed.

Lemma read_string_literal_ends (q : ascii) (n : nat) :
  forall (buf acc : list ascii),
    (length buf <= n)%nat ->
    parse.read_string_literal q buf acc <> parse.OutOfFuel.
Proof.
  induction n as [|n IH]; intros buf acc Hlen.
  - destruct buf; [discriminate | simpl in Hlen; lia].
  - destruct buf as [|ch buf]; [discriminate|]. simpl.
    destruct (char_eqb ch q); [discriminate|].
    destruct (char_eqb ch "\").
    + destruct buf as [|e buf]; [discriminate|].
      destruct (parse.escaped e); [|discriminate].
      apply IH. simpl in Hlen. lia.
    + destruct (char_eqb ch LF || char_eqb ch CR)%bool; [discriminate|].
      apply IH. simpl in Hlen. lia.
Qed.

Lemma LoadStringToken_ends (i : istream) : parse.LoadStringToken i <> parse.OutOfFuel.
Proof.
  unfold parse.LoadStringToken. destruct (get i) as [q i1].
  pose proof (read_string_literal_ends q (length (rdbuf i1)) (rdbuf i1) []
                (Nat.le_refl _)) as H.
  destruct (parse.read_string_literal q (rdbuf i1) []) as [[s rest]| | | |];
    try discriminate. contradiction.
Qed.

Lemma LoadNumberToken_ends (i : istream) : parse.LoadNumberToken i <> parse.OutOfFuel.
Proof.
  unfold parse.LoadNumberToken, parse.stoi.
  destruct (scan_while parse.IsDigit i) as [s i1].
  destruct (Z.leb _ _); discriminate.
Qed.

Lemma CalculateIndent_ends (lx : parse.Lexer) : parse.CalculateIndent lx <> parse.OutOfFuel.
Proof.
  unfold parse.CalculateIndent.
  destruct (scan_while is_space (parse.input_ lx)) as [spaces input1].
  destruct (char_eqb _ LF); [discriminate|].
  destruct (negb _); discriminate.
Qed.

(** [LoadToken] returns: the calls it makes to itself each follow a line
    break that was read, so as much fuel as there are characters left, and
    one more, is enough. *)
Lemma LoadToken_total (fuel : nat) :
  forall (lx : parse.Lexer),
    stream_ok (parse.input_ lx) ->
    tokens_ok (parse.tokens_ lx) (parse.current_indent_ lx) ->
    (length (rdbuf (parse.input_ lx)) < fuel)%nat ->
    parse.LoadToken fuel lx <> parse.OutOfFuel.
Proof.
  induction fuel as [|fuel IH]; intros lx Hs Ht Hfuel; [lia|].
  rewrite LoadToken_S.
  destruct (if parse.new_line_ lx then parse.CalculateIndent lx else parse.Ok lx)
    as [lx1| | | |] eqn:E1; try discriminate.
  2: { destruct (parse.new_line_ lx); [|discriminate].
       now apply CalculateIndent_ends in E1. }
  destruct (layout_step lx Hs Ht lx1 E1) as (Hs1 & Ht1 & Hlen1).
  destruct (next_character_spec (parse.input_ lx1) Hs1) as (Hs3 & Hlen3 & Hnext).
  pose proof (next_character_eof (parse.input_ lx1)) as Heofc.
  unfold parse.lift_result at 1. cbv beta zeta.
  destruct (next_character (parse.input_ lx1)) as [c input3]. cbn [fst snd] in *.
  destruct (char_eqb c LF) eqn:Hc.
  - apply char_eqb_eq in Hc. subst c.
    destruct (eofbit input3) eqn:He3; [specialize (Heofc eq_refl); discriminate|].
    destruct (Hnext eq_refl) as [rest Hrest].
    rewrite (get_nonempty input3 LF rest He3 Hrest). cbn [snd].
    destruct (_ || _)%bool; [|discriminate].
    apply IH; simpl; [intros H; discriminate | exact Ht1 |].
    rewrite Hrest in Hlen3. simpl in Hlen3. lia.
  - destruct (eof input3); [discriminate|].
    destruct (parse.IsStringOpening c).
    { pose proof (LoadStringToken_ends input3).
      destruct (parse.LoadStringToken input3) as [[t0 i0]| | | |];
        try discriminate; contradiction. }
    destruct (parse.IsDigit c).
    { pose proof (LoadNumberToken_ends input3).
      destruct (parse.LoadNumberToken input3) as [[t0 i0]| | | |];
        try discriminate; contradiction. }
    destruct (parse.IsIdOpening c).
    { destruct (parse.LoadIdToken input3); discriminate. }
    destruct (parse.LoadOperatorsToken input3); discriminate.
Qed.

(** The buffer the constructor ends with. *)
Definition final_tokens (tokens : list Token) : Prop :=
  exists pre,
    tokens = (pre ++ [token_type.Eof])%list /\
    Forall (fun t => parse.is_Eof t = false) pre /\
    eof_ok pre /\
    ~ consecutive_Newlines tokens /\
    levels_ok tokens.

Lemma fill_spec (fuel : nat) :
  forall (lx : parse.Lexer),
    stream_ok (parse.input_ lx) ->
    tokens_ok (parse.tokens_ lx) (parse.current_indent_ lx) ->
    (remaining_work lx < fuel)%nat ->
    match parse.fill fuel lx with
    | parse.Ok lx' => final_tokens (parse.tokens_ lx')
    | parse.OutOfFuel => False
    | _ => True
    end.
Proof.
  induction fuel as [|fuel IH]; intros lx Hs Ht Hfuel; [lia|].
  simpl parse.fill.
  assert (parse.back_is parse.is_Eof (parse.tokens_ lx) = false) as ->
    by (apply back_is_no_Eof; apply Ht).
  rewrite orb_true_r. unfold parse.LoadToken1.
  pose proof (LoadToken_total (S (length (rdbuf (parse.input_ lx)))) lx Hs Ht
                (Nat.lt_succ_diag_r _)) as Htotal.
  destruct (parse.LoadToken _ lx) as [[t lx1]| | | |] eqn:E; simpl; auto.
  apply LoadToken_step in E; [|exact Hs|exact Ht].
  unfold step_result in E. destruct E as (R1 & R2 & R3 & R4 & R5 & R6 & R7).
  destruct (parse.is_Eof t) eqn:Heof.
  - destruct t; try discriminate.
    destruct fuel as [|fuel]; [lia|]. simpl parse.fill.
    rewrite back_is_snoc. simpl. rewrite empty_snoc. simpl.
    exists (parse.tokens_ lx1).
    destruct R2 as (_ & _ & Hlev & Hnl & Hno).
    split; [reflexivity|]. split; [exact Hno|]. split; [now apply R6|].
    split; [apply no_consecutive_snoc; [exact Hnl | discriminate]|].
    now apply levels_ok_snoc.
  - apply IH; [exact R1 | | lia].
    simpl. now apply tokens_ok_snoc.
Qed.

(** For every source text the constructor of the lexer ends.  Unless it
    ends in an error, the buffer it leaves ends with [Eof], which occurs
    nowhere else and follows a [Newline] or a [Dedent] when something
    precedes it; no two [Newline] tokens are next to each other; and every
    [Dedent] closes a level that an [Indent] before it has opened. *)
Theorem token_stream_well_formed (source : list ascii) :
  match parse.new_Lexer source with
  | parse.Ok lx => final_tokens (parse.tokens_ lx)
  | parse.OutOfFuel => False
  | _ => True
  end.
Proof.
  unfold parse.new_Lexer. apply fill_spec.
  - intros H. discriminate.
  - apply tokens_ok_nil.
  - unfold remaining_work, parse.initial, pending. simpl. lia.
Qed.

Lemma back_is_true (p : Token -> bool) (l : list Token) :
  parse.back_is p l = true -> exists pre t, l = (pre ++ [t])%list /\ p t = true.
Proof.
  destruct l as [|t pre _] using rev_ind; [discriminate|].
  rewrite back_is_snoc. intros H. now exists pre, t.
Qed.

(** How the token stream of a source ends. *)
Lemma tokenize_ending (source : string) (tokens : list Token) :
  parse.tokenize source = parse.Ok tokens ->
  tokens = [token_type.Eof] \/
  exists pre, tokens = (pre ++ [token_type.Newline; token_type.Eof])%list \/
              tokens = (pre ++ [token_type.Dedent; token_type.Eof])%list.
Proof.
  unfold parse.tokenize.
  pose proof (token_stream_well_formed (list_ascii_of_string source)) as H.
  destruct (parse.new_Lexer (list_ascii_of_string source)) as [lx| | | |];
    try discriminate.
  simpl. intros [= <-]. destruct H as (pre & -> & _ & Hend & _).
  destruct Hend as [-> | [Hb | Hb]]; [now left | |];
    apply back_is_true in Hb as (pre' & t & -> & Ht); right; exists pre';
    destruct t; try discriminate; rewrite <- app_assoc; auto.
Qed.


(** What may stand between the place a call of [LoadToken] starts to read
    at and the end of the input, for the call to come to the test for the
    end of the input (line 272): [n] spaces, which the loops of
    [CalculateIndent] and of [LoadToken] take, and then nothing more or a
    comment that runs to the end of the input. *)
Definition end_of_last_line (buf : list ascii) (n : nat) : Prop :=
  exists comment,
    buf = (repeat SPACE n ++ comment)%list /\
    (comment = [] \/ exists body, comment = "#"%char :: body /\ ~ In LF body).

(** The token buffer at that test: at the start of a line [CalculateIndent]
    has first added the [Indent] or [Dedent] tokens that take the
    indentation to the level of the [n] spaces. *)
Definition buffer_at_end (lx : parse.Lexer) (n : nat) : list Token :=
  if parse.new_line_ lx
  then (parse.tokens_ lx ++ layout (parse.current_indent_ lx) (Z.of_nat (n / 2)))%list
  else parse.tokens_ lx.

Lemma scan_comment (body : list ascii) :
  ~ In LF body -> scan_buf not_newline body = (body, mk_istream [] true).
Proof.
  induction body as [|c body IH]; intros H; [reflexivity|].
  simpl. unfold not_newline at 1.
  replace (char_eqb c LF) with false
    by (symmetry; apply char_eqb_neq; intros ->; apply H; now left).
  simpl. rewrite IH by (intros Hin; apply H; now right). reflexivity.
Qed.

Lemma next_character_end (n : nat) (comment : list ascii) (e : bool) :
  stream_ok (mk_istream (repeat SPACE n ++ comment) e) ->
  (comment = [] \/ exists body, comment = "#"%char :: body /\ ~ In LF body) ->
  next_character (mk_istream (repeat SPACE n ++ comment) e)
  = (EOF_char, mk_istream [] true).
Proof.
  intros Hok Hcomment. unfold next_character, scan_while. simpl eofbit. simpl rdbuf.
  destruct e.
  - specialize (Hok eq_refl). simpl in Hok. rewrite Hok. reflexivity.
  - rewrite scan_spaces
      by (destruct Hcomment as [-> | (body & -> & _)]; simpl; discriminate).
    destruct Hcomment as [-> | (body & -> & Hbody)]; [reflexivity|].
    cbn [snd parse.empty_buffer]. unfold peek at 2. cbn [eofbit rdbuf fst].
    rewrite char_eqb_refl. cbn [eofbit rdbuf].
    rewrite scan_comment; [reflexivity|].
    intros [H | H]; [discriminate | now apply Hbody].
Qed.

(** A call of [LoadToken] that finds the end of the input. *)
Lemma LoadToken_end_of_last_line (fuel : nat) (lx : parse.Lexer) (n : nat) :
  stream_ok (parse.input_ lx) ->
  end_of_last_line (rdbuf (parse.input_ lx)) n ->
  (parse.new_line_ lx = true -> Nat.even n = true) ->
  exists cur,
    parse.LoadToken (S fuel) lx
    = parse.Ok (parse.eof_token (buffer_at_end lx n),
                parse.mk_Lexer (mk_istream [] true) (buffer_at_end lx n) cur false).
Proof.
  intros Hok (comment & Hbuf & Hcomment) Heven.
  destruct lx as [[buf e] toks cur nlf]. simpl in Hok, Hbuf, Heven. subst buf.
  rewrite LoadToken_S. unfold buffer_at_end. simpl parse.new_line_.
  destruct nlf.
  - assert (exists input1,
               parse.CalculateIndent
                 (parse.mk_Lexer (mk_istream (repeat SPACE n ++ comment) e) toks cur true)
               = parse.Ok (parse.mk_Lexer input1
                             (toks ++ layout cur (Z.of_nat (n / 2)))%list
                             (Z.of_nat (n / 2)) false) /\
               next_character input1 = (EOF_char, mk_istream [] true))
      as (input1 & -> & Hnext).
    { destruct e.
      - specialize (Hok eq_refl). simpl in Hok.
        apply app_eq_nil in Hok as [Hn ->].
        destruct n as [|n]; [|discriminate].
        exists (mk_istream [] true). split; [|reflexivity].
        rewrite CalculateIndent_no_input by reflexivity. simpl.
        do 2 f_equal. lia.
      - exists (mk_istream comment (parse.empty_buffer comment)). split.
        + rewrite (CalculateIndent_line
                     (parse.mk_Lexer (mk_istream (repeat SPACE n ++ comment) false)
                        toks cur true) n comment eq_refl eq_refl)
            by (destruct Hcomment as [-> | (body & -> & _)]; simpl; discriminate).
          unfold Nat.odd. now rewrite (Heven eq_refl).
        + apply (next_character_end 0 comment); [|exact Hcomment].
          intros H. simpl in H. now destruct comment. }
    unfold parse.lift_result. cbv beta zeta. cbn [parse.input_]. rewrite Hnext.
    simpl. now exists (Z.of_nat (n / 2)).
  - unfold parse.lift_result. cbv beta zeta. cbn [parse.input_].
    rewrite (next_character_end n comment e Hok Hcomment). simpl. now exists cur.
Qed.

(** A line that holds spaces alone. *)
Lemma LoadToken_blank_line (fuel : nat) (lx : parse.Lexer) (n : nat) (rest : list ascii) :
  eofbit (parse.input_ lx) = false ->
  rdbuf (parse.input_ lx) = (repeat SPACE n ++ LF :: rest)%list ->
  parse.LoadToken (S fuel) lx =
  let lx2 := parse.mk_Lexer (mk_istream rest false) (parse.tokens_ lx)
               (parse.current_indent_ lx) true in
  if (parse.empty (parse.tokens_ lx) ||
      parse.back_is parse.is_Newline (parse.tokens_ lx))%bool
  then parse.LoadToken fuel lx2
  else parse.Ok (token_type.Newline, lx2).
Proof.
  intros He Hbuf. destruct lx as [[buf e] toks cur nlf]. simpl in He, Hbuf. subst buf e.
  assert (scan_buf is_space (repeat SPACE n ++ LF :: rest)
          = (repeat SPACE n, mk_istream (LF :: rest) false)) as Hscan
    by (rewrite scan_spaces by (simpl; discriminate); reflexivity).
  assert (next_character (mk_istream (repeat SPACE n ++ LF :: rest) false)
          = (LF, mk_istream (LF :: rest) false)) as Hnext
    by (unfold next_character, scan_while; simpl eofbit; simpl rdbuf; cbv iota;
        rewrite Hscan; reflexivity).
  assert (next_character (mk_istream (LF :: rest) false)
          = (LF, mk_istream (LF :: rest) false)) as Hnext0 by reflexivity.
  rewrite LoadToken_S. simpl parse.new_line_. destruct nlf.
  - unfold parse.CalculateIndent, scan_while. simpl eofbit. simpl rdbuf. cbv iota.
    cbn [parse.input_ parse.tokens_ parse.current_indent_ parse.new_line_].
    rewrite Hscan. simpl. reflexivity.
  - unfold parse.lift_result. cbv beta zeta. cbn [parse.input_]. rewrite Hnext.
    reflexivity.
Qed.

(** C6.  The end of the input.  A call of [LoadToken] comes to the test for
    the end of the input when nothing is left to read but spaces and then,
    possibly, a comment that runs to the end; at the start of a line the
    number of the spaces is even (an odd number fails the assertion of
    [CalculateIndent] first).  The call then returns [Eof] when the token
    buffer is empty and when its last token is [Newline] or [Dedent];
    otherwise it returns [Newline], and the call that follows, with that
    [Newline] in the buffer, returns [Eof].  The buffer meant is the one at
    the test: at the start of a line the tokens [CalculateIndent] adds for
    the level of the last line are already in it.  A line of spaces alone
    that ends with a line break gives a [Newline], or, when the buffer is
    empty or ends with a [Newline], nothing: the call goes on with the next
    line, so that the end of the input may be found there.  So the token
    stream of any source is [Eof] alone, as for the empty source or a source
    that is one comment, or ends with [Newline] and [Eof] or with [Dedent]
    and [Eof]; a source that stops after a token, with no line break, gets a
    [Newline] before its [Eof]. *)
Theorem end_of_input_tokens :
  (forall (fuel : nat) (lx : parse.Lexer) (n : nat),
      stream_ok (parse.input_ lx) ->
      end_of_last_line (rdbuf (parse.input_ lx)) n ->
      (parse.new_line_ lx = true -> Nat.even n = true) ->
      let buffer := buffer_at_end lx n in
      exists t lx',
        parse.LoadToken (S fuel) lx = parse.Ok (t, lx') /\
        parse.tokens_ lx' = buffer /\
        (buffer = [] -> t = token_type.Eof) /\
        (last buffer = Some token_type.Newline \/
         last buffer = Some token_type.Dedent -> t = token_type.Eof) /\
        (buffer <> [] ->
         last buffer <> Some token_type.Newline ->
         last buffer <> Some token_type.Dedent ->
         t = token_type.Newline /\
         exists lx'',
           parse.LoadToken (S fuel) (parse.push_back lx' t)
           = parse.Ok (token_type.Eof, lx''))) /\
  (forall (fuel : nat) (lx : parse.Lexer) (n : nat) (rest : list ascii),
      eofbit (parse.input_ lx) = false ->
      rdbuf (parse.input_ lx) = (repeat SPACE n ++ LF :: rest)%list ->
      parse.LoadToken (S fuel) lx =
      let lx2 := parse.mk_Lexer (mk_istream rest false) (parse.tokens_ lx)
                   (parse.current_indent_ lx) true in
      if (parse.empty (parse.tokens_ lx) ||
          parse.back_is parse.is_Newline (parse.tokens_ lx))%bool
      then parse.LoadToken fuel lx2
      else parse.Ok (token_type.Newline, lx2)) /\
  (forall (source : string) (tokens : list Token),
      parse.tokenize source = parse.Ok tokens ->
      tokens = [token_type.Eof] \/
      exists pre, tokens = (pre ++ [token_type.Newline; token_type.Eof])%list \/
                  tokens = (pre ++ [token_type.Dedent; token_type.Eof])%list) /\
  parse.tokenize "" = parse.Ok [token_type.Eof] /\
  parse.tokenize "# c" = parse.Ok [token_type.Eof] /\
  parse.tokenize "x = 1"
  = parse.Ok [token_type.Id "x"; token_type.Char "="; token_type.Number 1;
              token_type.Newline; token_type.Eof] /\
  parse.tokenize "x  # c"
  = parse.Ok [token_type.Id "x"; token_type.Newline; token_type.Eof].
Proof.
  split; [|split; [exact LoadToken_blank_line |
                   split; [exact tokenize_ending | repeat split; vm_compute; reflexivity]]].
  intros fuel lx n Hok Hend Heven buffer.
  destruct (LoadToken_end_of_last_line fuel lx n Hok Hend Heven) as [cur H].
  fold buffer in H.
  destruct (eof_token_cases buffer) as (Hempty & Hback & Hother).
  do 2 eexists. split; [exact H|]. split; [reflexivity|].
  split; [exact Hempty|]. split; [exact Hback|].
  intros Hne Hnl Hde. split; [now apply Hother|].
  rewrite (Hother Hne Hnl Hde). eexists.
  rewrite LoadToken_no_input by reflexivity. simpl parse.tokens_.
  f_equal. f_equal.
  unfold parse.eof_token, parse.back_is. rewrite last_snoc. simpl.
  now destruct buffer.
Qed.

Lemma end_of_input_tokens_witness :
  (exists t lx',
      parse.LoadToken 1
        (parse.mk_Lexer (mk_istream (list_ascii_of_string "  # c") false)
           [token_type.Id "x"] 0 false)
      = parse.Ok (t, lx') /\ t = token_type.Newline) /\
  (exists t lx',
      parse.LoadToken 1 (parse.initial (list_ascii_of_string "# c")) = parse.Ok (t, lx') /\
      t = token_type.Eof).
Proof.
  split.
  - destruct (proj1 end_of_input_tokens 0%nat
                (parse.mk_Lexer (mk_istream (list_ascii_of_string "  # c") false)
                   [token_type.Id "x"] 0 false) 2%nat)
      as (t & lx' & H & _ & _ & _ & Hother).
    + intros H. discriminate.
    + exists (list_ascii_of_string "# c"). split; [reflexivity|].
      right. exists (list_ascii_of_string " c"). split; [reflexivity|].
      simpl. intros [H | [H | H]]; [discriminate | discriminate | exact H].
    + intros H. discriminate.
    + exists t, lx'. split; [exact H|]. apply Hother; simpl; discriminate.
  - destruct (proj1 end_of_input_tokens 0%nat
                (parse.initial (list_ascii_of_string "# c")) 0%nat)
      as (t & lx' & H & _ & Hempty & _).
    + intros H. discriminate.
    + exists (list_ascii_of_string "# c"). split; [reflexivity|].
      right. exists (list_ascii_of_string " c"). split; [reflexivity|].
      simpl. intros [H | [H | H]]; [discriminate | discriminate | exact H].
    + reflexivity.
    + exists t, lx'. split; [exact H|]. apply Hempty. reflexivity.
Defined.

(** *** Sources that end with a line break

    When the last character of the source is a line break, the end of the
    input is found at the start of a line, where [CalculateIndent] closes
    the open levels: the token stream is balanced. *)

(** From [i] to [i'] characters were read, and the last character of the
    buffer of [i], if it was read, was not a line break. *)
Definition reads (i i' : istream) : Prop :=
  (exists chunk, rdbuf i = (chunk ++ rdbuf i')%list) /\
  (rdbuf i' = [] -> rdbuf i <> [] -> last (rdbuf i) <> Some LF).

Lemma last_app_nonempty {A : Type} (l1 l2 : list A) :
  l2 <> [] -> last (l1 ++ l2) = last l2.
Proof.
  destruct l2 as [|x l2 _] using rev_ind; [contradiction|].
  intros _. now rewrite app_assoc, !last_snoc.
Qed.

Lemma reads_refl (i i' : istream) : rdbuf i' = rdbuf i -> reads i i'.
Proof.
  intros H. split; [exists []; now rewrite H|].
  rewrite H. intros H1 H2. contradiction.
Qed.

Lemma reads_trans (i1 i2 i3 : istream) : reads i1 i2 -> reads i2 i3 -> reads i1 i3.
Proof.
  intros [[c1 H1] E1] [[c2 H2] E2]. split.
  - exists (c1 ++ c2)%list. now rewrite H1, H2, app_assoc.
  - intros H3 Hne. destruct (rdbuf i2) as [|a l] eqn:Hb2.
    + now apply E1.
    + rewrite H1, last_app_nonempty by discriminate. apply E2; [exact H3 | discriminate].
Qed.

Lemma reads_taken (i i' : istream) (taken : list ascii) (p : ascii -> bool) :
  rdbuf i = (taken ++ rdbuf i')%list -> Forall (fun c => p c = true) taken ->
  p LF = false -> reads i i'.
Proof.
  intros Hb Hall Hp. split; [now exists taken|].
  intros He Hne. rewrite Hb, He, app_nil_r in *.
  destruct taken as [|x taken _] using rev_ind; [contradiction|].
  rewrite last_snoc. apply Forall_app in Hall as [_ Hx]. inversion Hx; subst.
  congruence.
Qed.

Lemma scan_while_reads (p : ascii -> bool) (s s' : istream) (taken : list ascii) :
  stream_ok s -> p LF = false -> scan_while p s = (taken, s') -> reads s s'.
Proof.
  intros Hs Hp E. apply scan_while_spec in E as (Hb & _ & Hall & _); [|exact Hs].
  now apply reads_taken with (taken := taken) (p := p).
Qed.

Lemma next_character_reads (i : istream) :
  stream_ok i -> reads i (snd (next_character i)).
Proof.
  intros Hs. unfold next_character.
  destruct (scan_while is_space i) as [sp input1] eqn:E1.
  pose proof (scan_while_reads _ _ _ _ Hs eq_refl E1) as R1.
  apply scan_while_spec in E1 as (_ & Hok1 & _); [|exact Hs]. simpl.
  assert (exists input2,
             (if char_eqb (fst (peek input1)) "#"
              then snd (scan_while not_newline input1) else input1) = input2 /\
             stream_ok input2 /\ reads input1 input2)
    as (input2 & -> & Hok2 & R2).
  { destruct (char_eqb _ "#").
    - destruct (scan_while not_newline input1) as [cm input2] eqn:E2.
      pose proof (scan_while_reads _ _ _ _ Hok1 eq_refl E2) as R2.
      apply scan_while_spec in E2 as (_ & Hok2 & _); [|exact Hok1].
      now exists input2.
    - exists input1. split; [reflexivity|]. split; [exact Hok1 | now apply reads_refl]. }
  destruct (peek_spec input2 Hok2) as (_ & Hb3 & _).
  eapply reads_trans; [exact R1|]. eapply reads_trans; [exact R2|].
  now apply reads_refl.
Qed.

Lemma reads_consumed (i i' : istream) (chunk : list ascii) (x : ascii) :
  rdbuf i = (chunk ++ x :: rdbuf i')%list -> x <> LF -> reads i i'.
Proof.
  intros Hb Hx. split.
  - exists (chunk ++ [x])%list. now rewrite <- app_assoc.
  - intros He _. rewrite Hb, He, last_snoc. congruence.
Qed.

Lemma read_string_literal_quote (q : ascii) (n : nat) :
  forall (buf acc s rest : list ascii),
    (length buf <= n)%nat ->
    parse.read_string_literal q buf acc = parse.Ok (s, rest) ->
    exists chunk, buf = (chunk ++ q :: rest)%list.
Proof.
  induction n as [|n IH]; intros buf acc s rest Hlen.
  - destruct buf; [discriminate | simpl in Hlen; lia].
  - destruct buf as [|ch buf]; [discriminate|]. simpl.
    destruct (char_eqb ch q) eqn:Hq.
    + intros [= <- <-]. apply char_eqb_eq in Hq. subst. now exists [].
    + destruct (char_eqb ch "\").
      * destruct buf as [|e buf]; [discriminate|].
        destruct (parse.escaped e); [|discriminate].
        intros H. apply IH in H as [chunk ->]; [|simpl in Hlen; lia].
        now exists (ch :: e :: chunk).
      * destruct (char_eqb ch LF || char_eqb ch CR)%bool; [discriminate|].
        intros H. apply IH in H as [chunk ->]; [|simpl in Hlen; lia].
        now exists (ch :: chunk).
Qed.

Lemma LoadStringToken_reads (i i' : istream) (t : Token) (c : ascii) (rest : list ascii) :
  eofbit i = false -> rdbuf i = c :: rest -> c <> LF ->
  parse.LoadStringToken i = parse.Ok (t, i') -> reads i i'.
Proof.
  intros He Hb Hc. unfold parse.LoadStringToken.
  rewrite (get_nonempty i c rest He Hb). simpl.
  destruct (parse.read_string_literal c rest []) as [[s rest']| | | |] eqn:E;
    try discriminate.
  intros [= <- <-].
  apply read_string_literal_quote with (n := length rest) in E as [chunk ->]; [|lia].
  apply reads_consumed with (chunk := c :: chunk) (x := c); [|exact Hc].
  rewrite Hb. reflexivity.
Qed.

Lemma LoadNumberToken_reads (i i' : istream) (t : Token) :
  stream_ok i -> parse.LoadNumberToken i = parse.Ok (t, i') -> reads i i'.
Proof.
  intros Hs. unfold parse.LoadNumberToken.
  destruct (scan_while parse.IsDigit i) as [taken s'] eqn:E.
  destruct (parse.stoi taken); try discriminate. intros [= <- <-].
  now apply (scan_while_reads _ _ _ _ Hs eq_refl E).
Qed.

Lemma LoadIdToken_reads (i i' : istream) (t : Token) :
  stream_ok i -> parse.LoadIdToken i = (t, i') -> reads i i'.
Proof.
  intros Hs. unfold parse.LoadIdToken.
  destruct (scan_while parse.IsIdCharacter i) as [taken s'] eqn:E.
  pose proof (scan_while_reads _ _ _ _ Hs eq_refl E) as R.
  destruct (parse.KEY_WORDS_TOKENS _); intros [= <- <-]; exact R.
Qed.

Lemma LoadOperatorsToken_reads (i i' : istream) (t : Token) (c : ascii) (rest : list ascii) :
  eofbit i = false -> rdbuf i = c :: rest -> c <> LF ->
  parse.LoadOperatorsToken i = (t, i') -> reads i i'.
Proof.
  intros He Hb Hc. unfold parse.LoadOperatorsToken.
  rewrite (get_nonempty i c rest He Hb).
  assert (reads i (mk_istream rest false)) as R0
    by (apply reads_consumed with (chunk := []) (x := c); [now rewrite Hb | exact Hc]).
  assert (stream_ok (mk_istream rest false)) as Hok0 by (intros H; discriminate).
  destruct (_ || _)%bool; [|intros [= <- <-]; exact R0].
  destruct (peek_spec (mk_istream rest false) Hok0) as (Hok & Hbuf & Hend & Hnext).
  pose proof (peek_eof (mk_istream rest false)) as Hpe.
  destruct (peek (mk_istream rest false)) as [c2 i2] eqn:Hp. cbn [fst snd] in *.
  simpl in Hbuf, Hend, Hnext.
  destruct (char_eqb c2 "=") eqn:Hc2.
  - apply char_eqb_eq in Hc2. subst c2.
    destruct (eofbit i2) eqn:He2; [specialize (Hpe eq_refl); discriminate|].
    destruct (Hnext eq_refl) as (_ & -> & rest2 & Hrest2).
    rewrite (get_nonempty (mk_istream rest false) "="%char rest2 eq_refl Hrest2).
    cbn [snd].
    assert (reads i (mk_istream rest2 false)) as R
      by (apply reads_consumed with (chunk := [c]) (x := "="%char);
          [rewrite Hb, Hrest2; reflexivity | discriminate]).
    repeat (match goal with
            | |- context [if ?b then _ else _] => destruct b
            end); intros [= <- <-]; exact R.
  - intros [= <- <-]. eapply reads_trans; [exact R0 | now apply reads_refl].
Qed.

Section Final_line_break.

Variable source : list ascii.
Hypothesis source_ends_with_LF : last source = Some LF.

(** The buffer is what is left of the source, and when nothing is left
    either the line break was the last thing read or every level is
    closed. *)
Definition at_line_end (lx : parse.Lexer) : Prop :=
  (exists consumed, source = (consumed ++ rdbuf (parse.input_ lx))%list) /\
  (rdbuf (parse.input_ lx) = [] ->
   (parse.new_line_ lx = true /\ eofbit (parse.input_ lx) = false) \/
   parse.current_indent_ lx = 0).

Definition rest_of_source (i : istream) : Prop :=
  exists consumed, source = (consumed ++ rdbuf i)%list.

Lemma reads_rest (i i' : istream) :
  rest_of_source i -> reads i i' ->
  rest_of_source i' /\ (rdbuf i' = [] -> rdbuf i = []).
Proof.
  intros [consumed Hsrc] [[chunk Hb] Hend]. split.
  - exists (consumed ++ chunk)%list. now rewrite Hsrc, Hb, app_assoc.
  - intros He. destruct (rdbuf i) as [|a l] eqn:Hbi; [reflexivity|].
    exfalso. apply Hend; [exact He | discriminate|].
    rewrite <- source_ends_with_LF, Hsrc. symmetry. apply last_app_nonempty.
    discriminate.
Qed.

Lemma CalculateIndent_line_end (lx lx1 : parse.Lexer) :
  stream_ok (parse.input_ lx) -> rest_of_source (parse.input_ lx) ->
  parse.CalculateIndent lx = parse.Ok lx1 ->
  rest_of_source (parse.input_ lx1) /\
  (rdbuf (parse.input_ lx1) = [] -> parse.current_indent_ lx1 = 0).
Proof.
  intros Hs Hrest. unfold parse.CalculateIndent.
  destruct (scan_while is_space (parse.input_ lx)) as [spaces input1] eqn:E.
  pose proof (scan_while_reads _ _ _ _ Hs eq_refl E) as R.
  apply scan_while_spec in E as (Hb & Hok1 & _); [|exact Hs].
  destruct (reads_rest _ _ Hrest R) as [Hrest1 Hend1].
  destruct (char_eqb (fst (peek input1)) LF) eqn:Hc.
  - intros [= <-]. simpl. split; [exact Hrest1|]. intros He.
    apply char_eqb_eq in Hc. unfold peek in Hc. rewrite He in Hc.
    destruct (eofbit input1); discriminate.
  - destruct (negb _); [discriminate|]. intros [= <-]. simpl.
    split; [exact Hrest1|]. intros He. specialize (Hend1 He).
    rewrite Hend1 in Hb. symmetry in Hb. apply app_eq_nil in Hb as [-> _].
    change (Z.quot (Z.of_nat (length (@nil ascii))) 2) with 0. lia.
Qed.

Lemma layout_step_line_end (lx lx1 : parse.Lexer) :
  stream_ok (parse.input_ lx) -> at_line_end lx ->
  (if parse.new_line_ lx then parse.CalculateIndent lx else parse.Ok lx) = parse.Ok lx1 ->
  rest_of_source (parse.input_ lx1) /\
  (rdbuf (parse.input_ lx1) = [] -> parse.current_indent_ lx1 = 0).
Proof.
  intros Hs [Hrest Hend]. destruct (parse.new_line_ lx) eqn:Hnl.
  - now apply CalculateIndent_line_end.
  - intros [= <-]. split; [exact Hrest|]. intros He.
    destruct (Hend He) as [[H _] | H]; [congruence | exact H].
Qed.

Lemma LoadToken_line_end (fuel : nat) :
  forall (lx : parse.Lexer) (t : Token) (lx' : parse.Lexer),
    stream_ok (parse.input_ lx) -> at_line_end lx ->
    parse.LoadToken fuel lx = parse.Ok (t, lx') ->
    at_line_end lx' /\ (parse.is_Eof t = true -> parse.current_indent_ lx' = 0).
Proof.
  induction fuel as [|fuel IH]; intros lx t lx' Hs Hle; [discriminate|].
  rewrite LoadToken_S.
  destruct (if parse.new_line_ lx then parse.CalculateIndent lx else parse.Ok lx)
    as [lx1| | | |] eqn:E1; try discriminate.
  destruct (layout_step_line_end lx lx1 Hs Hle E1) as [Hrest1 Hend1].
  assert (stream_ok (parse.input_ lx1)) as Hs1.
  { destruct (parse.new_line_ lx); [|now injection E1 as <-].
    unfold parse.CalculateIndent in E1.
    destruct (scan_while is_space (parse.input_ lx)) as [spaces input1] eqn:E.
    apply scan_while_spec in E as (_ & Hok1 & _); [|exact Hs].
    destruct (char_eqb _ LF); [now injection E1 as <-|].
    destruct (negb _); [discriminate | now injection E1 as <-]. }
  destruct (next_character_spec (parse.input_ lx1) Hs1) as (Hs3 & Hlen3 & Hnext).
  pose proof (next_character_eof (parse.input_ lx1)) as Heofc.
  pose proof (next_character_reads (parse.input_ lx1) Hs1) as R3.
  destruct (reads_rest _ _ Hrest1 R3) as [Hrest3 Hend3].
  unfold parse.lift_result at 1. cbv beta zeta.
  destruct (next_character (parse.input_ lx1)) as [c input3]. cbn [fst snd] in *.
  assert (forall i nlf, reads input3 i -> rdbuf input3 <> [] ->
            at_line_end (parse.mk_Lexer i (parse.tokens_ lx1)
                           (parse.current_indent_ lx1) nlf)) as Htoken.
  { intros i nlf R Hne. destruct (reads_rest _ _ Hrest3 R) as [Hresti Hendi].
    split; [exact Hresti|]. simpl. intros He. now apply Hendi in He. }
  destruct (char_eqb c LF) eqn:Hc.
  - apply char_eqb_eq in Hc. subst c.
    destruct (eofbit input3) eqn:He3; [specialize (Heofc eq_refl); discriminate|].
    destruct (Hnext eq_refl) as [rest Hrest].
    rewrite (get_nonempty input3 LF rest He3 Hrest). cbn [snd].
    assert (at_line_end (parse.mk_Lexer (mk_istream rest false) (parse.tokens_ lx1)
                           (parse.current_indent_ lx1) true)) as Hle2.
    { split; simpl; [|intros _; left; auto].
      destruct Hrest3 as [consumed Hsrc]. exists (consumed ++ [LF])%list.
      now rewrite Hsrc, Hrest, <- app_assoc. }
    destruct (_ || _)%bool.
    + apply IH; [intros H; discriminate | exact Hle2].
    + intros [= <- <-]. split; [exact Hle2 | discriminate].
  - apply char_eqb_neq in Hc. unfold eof. destruct (eofbit input3) eqn:He3.
    + intros [= <- <-]. simpl.
      assert (parse.current_indent_ lx1 = 0) as H0
        by (apply Hend1, Hend3, Hs3, He3).
      split; [|intros _; exact H0]. split; [exact Hrest3|]. simpl. auto.
    + destruct (Hnext eq_refl) as [rest Hrest].
      assert (rdbuf input3 <> []) as Hne by (rewrite Hrest; discriminate).
      destruct (parse.IsStringOpening c).
      { destruct (parse.LoadStringToken input3) as [[t0 i0]| | | |] eqn:El;
          try discriminate.
        intros [= <- <-].
        destruct (LoadStringToken_spec _ _ _ _ _ He3 Hrest El) as (Ho & _).
        split; [|intros H; destruct t0; discriminate].
        apply Htoken; [|exact Hne]. eapply LoadStringToken_reads; eassumption. }
      destruct (parse.IsDigit c) eqn:Hd.
      { destruct (parse.LoadNumberToken input3) as [[t0 i0]| | | |] eqn:El;
          try discriminate.
        intros [= <- <-].
        destruct (LoadNumberToken_spec _ _ _ _ _ He3 Hrest Hd El) as (Ho & _).
        split; [|intros H; destruct t0; discriminate].
        apply Htoken; [|exact Hne]. eapply LoadNumberToken_reads; eassumption. }
      destruct (parse.IsIdOpening c) eqn:Hid.
      { destruct (parse.LoadIdToken input3) as [t0 i0] eqn:El.
        intros [= <- <-].
        destruct (LoadIdToken_spec _ _ _ _ _ He3 Hrest Hid El) as (Ho & _).
        split; [|intros H; destruct t0; discriminate].
        apply Htoken; [|exact Hne]. eapply LoadIdToken_reads; eassumption. }
      destruct (parse.LoadOperatorsToken input3) as [t0 i0] eqn:El.
      intros [= <- <-].
      destruct (LoadOperatorsToken_spec _ _ _ _ _ He3 Hrest El) as (Ho & _).
      split; [|intros H; destruct t0; discriminate].
      apply Htoken; [|exact Hne]. eapply LoadOperatorsToken_reads; eassumption.
Qed.

Lemma fill_line_end (fuel : nat) :
  forall (lx lx' : parse.Lexer),
    stream_ok (parse.input_ lx) ->
    tokens_ok (parse.tokens_ lx) (parse.current_indent_ lx) ->
    at_line_end lx ->
    parse.fill fuel lx = parse.Ok lx' ->
    open_levels (parse.tokens_ lx') = 0.
Proof.
  induction fuel as [|fuel IH]; intros lx lx' Hs Ht Hle; [discriminate|].
  simpl parse.fill.
  assert (parse.back_is parse.is_Eof (parse.tokens_ lx) = false) as ->
    by (apply back_is_no_Eof; apply Ht).
  rewrite orb_true_r. unfold parse.LoadToken1.
  destruct (parse.LoadToken _ lx) as [[t lx1]| | | |] eqn:E; try discriminate.
  simpl.
  destruct (LoadToken_line_end _ _ _ _ Hs Hle E) as [Hle1 Hzero].
  apply LoadToken_step in E; [|exact Hs|exact Ht].
  unfold step_result in E. destruct E as (R1 & R2 & R3 & R4 & R5 & R6 & R7).
  destruct (parse.is_Eof t) eqn:Heof.
  - destruct t; try discriminate.
    destruct fuel as [|fuel]; [discriminate|]. simpl parse.fill.
    rewrite back_is_snoc. simpl. rewrite empty_snoc. simpl.
    intros [= <-]. simpl. rewrite open_levels_app. simpl.
    destruct R2 as (_ & -> & _). rewrite (Hzero eq_refl). reflexivity.
  - apply IH; [exact R1 | simpl; now apply tokens_ok_snoc | exact Hle1].
Qed.

End Final_line_break.

(** A source that ends with a line break gets every [Indent] closed: the
    levels opened and the levels closed are as many. *)
Theorem levels_closed_after_final_line_break (source : list ascii) (lx : parse.Lexer) :
  last source = Some LF ->
  parse.new_Lexer source = parse.Ok lx ->
  open_levels (parse.tokens_ lx) = 0.
Proof.
  intros Hlast. unfold parse.new_Lexer.
  apply (fill_line_end source Hlast).
  - intros H. discriminate.
  - apply tokens_ok_nil.
  - split; simpl; [now exists [] | intros _; left; auto].
Qed.


(** * Further properties of the lexer *)

(** X1.  The constructor of the lexer ends for every source text, and
    unless it ends in an error the buffer it leaves ends with an [Eof], which
    is the only one in it. *)
Theorem Lexer_ends_with_the_only_Eof (source : list ascii) :
  match parse.new_Lexer source with
  | parse.Ok lx =>
      exists pre, parse.tokens_ lx = (pre ++ [token_type.Eof])%list /\
                  Forall (fun t => parse.is_Eof t = false) pre
  | parse.OutOfFuel => False
  | _ => True
  end.
Proof.
  pose proof (token_stream_well_formed source) as H.
  destruct (parse.new_Lexer source); auto.
  destruct H as (pre & Hpre & Hno & _). now exists pre.
Qed.

Lemma tokenize_Ok (source : string) (tokens : list Token) :
  parse.tokenize source = parse.Ok tokens ->
  exists lx, parse.new_Lexer (list_ascii_of_string source) = parse.Ok lx /\
             parse.tokens_ lx = tokens.
Proof.
  unfold parse.tokenize.
  destruct (parse.new_Lexer (list_ascii_of_string source)) as [lx| | | |];
    try discriminate.
  simpl. intros [= <-]. now exists lx.
Qed.

(** X2.  In the token stream of a source no [Newline] follows a [Newline]:
    empty lines, lines of spaces and repeated line breaks give one. *)
Theorem no_consecutive_Newlines (source : string) (tokens : list Token) :
  parse.tokenize source = parse.Ok tokens -> ~ consecutive_Newlines tokens.
Proof.
  intros H. apply tokenize_Ok in H as (lx & Hlx & <-).
  pose proof (token_stream_well_formed (list_ascii_of_string source)) as Hw.
  rewrite Hlx in Hw. now destruct Hw as (pre & _ & _ & _ & Hnl & _).
Qed.

Lemma no_consecutive_Newlines_witness :
  ~ consecutive_Newlines
      [token_type.Id "x"; token_type.Newline; token_type.Id "y"; token_type.Newline;
       token_type.Eof].
Proof.
  apply (no_consecutive_Newlines ("x" ++ nl ++ nl ++ "  " ++ nl ++ nl ++ "y" ++ nl)).
  vm_compute. reflexivity.
Defined.

(** X3.  At every point of the token stream of a source at least as many
    [Indent] tokens as [Dedent] tokens have been emitted: a [Dedent] always
    closes a level that is open. *)
Theorem Dedent_closes_an_open_level (source : string) (tokens before after : list Token) :
  parse.tokenize source = parse.Ok tokens ->
  tokens = (before ++ after)%list ->
  0 <= open_levels before.
Proof.
  intros H Hsplit. apply tokenize_Ok in H as (lx & Hlx & <-).
  pose proof (token_stream_well_formed (list_ascii_of_string source)) as Hw.
  rewrite Hlx in Hw. destruct Hw as (pre & _ & _ & _ & _ & Hlev).
  exact (Hlev before after Hsplit).
Qed.

Lemma Dedent_closes_an_open_level_witness :
  0 <= open_levels [token_type.Indent; token_type.Id "a"; token_type.Newline;
                    token_type.Dedent].
Proof.
  apply (Dedent_closes_an_open_level ("  a" ++ nl ++ "b" ++ nl)
           [token_type.Indent; token_type.Id "a"; token_type.Newline;
            token_type.Dedent; token_type.Id "b"; token_type.Newline; token_type.Eof]
           [token_type.Indent; token_type.Id "a"; token_type.Newline; token_type.Dedent]
           [token_type.Id "b"; token_type.Newline; token_type.Eof]).
  - vm_compute. reflexivity.
  - reflexivity.
Defined.

Lemma last_of_line (text : string) :
  last (list_ascii_of_string (text ++ nl)) = Some LF.
Proof.
  induction text as [|c text IH]; [reflexivity|].
  change (list_ascii_of_string (String.String c text ++ nl))
    with (c :: list_ascii_of_string (text ++ nl)).
  rewrite last_cons, IH. reflexivity.
Qed.

(** X4.  A source text whose last character is a line break gets every
    level of indentation closed: its token stream holds as many [Dedent]
    tokens as [Indent] tokens, however deep the last line is indented. *)
Theorem Indents_closed_after_final_line_break (text : string) (tokens : list Token) :
  parse.tokenize (text ++ nl) = parse.Ok tokens ->
  open_levels tokens = 0.
Proof.
  intros H. apply tokenize_Ok in H as (lx & Hlx & <-).
  exact (levels_closed_after_final_line_break _ lx (last_of_line text) Hlx).
Qed.

Lemma Indents_closed_after_final_line_break_witness :
  open_levels
    [token_type.Id "a"; token_type.Newline; token_type.Indent; token_type.Id "b";
     token_type.Newline; token_type.Indent; token_type.Id "c"; token_type.Newline;
     token_type.Dedent; token_type.Dedent; token_type.Eof] = 0.
Proof.
  apply (Indents_closed_after_final_line_break ("a" ++ nl ++ "  b" ++ nl ++ "    c")).
  vm_compute. reflexivity.
Defined.


(** *** The values of the tokens *)

Definition BACKSLASH : ascii := "\"%char.

(** What the value of a token of each kind is made of. *)
Definition well_formed (t : Token) : Prop :=
  match t with
  | token_type.Number v => 0 <= v <= parse.INT_MAX
  | token_type.Id name =>
      parse.KEY_WORDS_TOKENS name = None /\
      exists c rest,
        list_ascii_of_string name = c :: rest /\ parse.IsIdOpening c = true /\
        Forall (fun c => parse.IsIdCharacter c = true) rest
  | token_type.String s =>
      Forall (fun c => c <> BACKSLASH /\ c <> CR) (list_ascii_of_string s)
  | token_type.Char c =>
      c <> SPACE /\ c <> LF /\ c <> "#"%char /\ parse.IsStringOpening c = false /\
      parse.IsDigit c = false /\ parse.IsIdOpening c = false
  | _ => True
  end.

Lemma digit_value_nonneg (c : ascii) : parse.IsDigit c = true -> 0 <= parse.digit_value c.
Proof.
  unfold parse.IsDigit, parse.char_in_range, parse.digit_value.
  intros H. apply andb_true_iff in H as [H _]. apply N.leb_le in H.
  change (N_of_ascii "0") with 48%N in H. lia.
Qed.

Lemma decimal_fold_nonneg (digits : list ascii) (acc : Z) :
  0 <= acc -> Forall (fun c => parse.IsDigit c = true) digits ->
  0 <= fold_left (fun acc c => 10 * acc + parse.digit_value c) digits acc.
Proof.
  revert acc. induction digits as [|c digits IH]; intros acc Hacc Hall; simpl;
    [exact Hacc|].
  inversion Hall as [|x xs Hc Hrest]; subst. apply IH; [|exact Hrest].
  pose proof (digit_value_nonneg c Hc). lia.
Qed.

Lemma LoadNumberToken_value (i i' : istream) (t : Token) :
  stream_ok i -> parse.LoadNumberToken i = parse.Ok (t, i') ->
  exists v, t = token_type.Number v /\ 0 <= v <= parse.INT_MAX.
Proof.
  intros Hs. unfold parse.LoadNumberToken, parse.stoi.
  destruct (scan_while parse.IsDigit i) as [digits i1] eqn:E.
  apply scan_while_spec in E as (_ & _ & Hall & _); [|exact Hs].
  destruct (Z.leb_spec (parse.decimal_value digits) parse.INT_MAX); [|discriminate].
  intros [= <- <-]. eexists. split; [reflexivity|]. split; [|assumption].
  apply decimal_fold_nonneg; [lia | exact Hall].
Qed.

Lemma read_string_literal_chars (q : ascii) (n : nat) :
  forall (buf acc s rest : list ascii),
    (length buf <= n)%nat ->
    Forall (fun c => c <> BACKSLASH /\ c <> CR) acc ->
    parse.read_string_literal q buf acc = parse.Ok (s, rest) ->
    Forall (fun c => c <> BACKSLASH /\ c <> CR) s.
Proof.
  induction n as [|n IH]; intros buf acc s rest Hlen Hacc.
  - destruct buf; [discriminate | simpl in Hlen; lia].
  - destruct buf as [|ch buf]; [discriminate|]. simpl.
    destruct (char_eqb ch q); [now intros [= <- <-]|].
    destruct (char_eqb ch "\") eqn:Hb.
    + destruct buf as [|e buf]; [discriminate|].
      unfold parse.escaped.
      repeat (match goal with
              | |- context [if ?b then _ else _] => destruct b
              end;
              [apply IH; [simpl in Hlen; lia|];
               apply Forall_app; split; [exact Hacc|];
               constructor; [split; discriminate | constructor] |]).
      discriminate.
    + destruct (char_eqb ch LF || char_eqb ch CR)%bool eqn:Hnl; [discriminate|].
      apply orb_false_iff in Hnl as [_ Hcr].
      apply IH; [simpl in Hlen; lia|].
      apply Forall_app. split; [exact Hacc|]. constructor; [|constructor].
      split; [now apply char_eqb_neq in Hb | now apply char_eqb_neq in Hcr].
Qed.

Lemma LoadStringToken_value (i i' : istream) (t : Token) :
  parse.LoadStringToken i = parse.Ok (t, i') ->
  exists s, t = token_type.String s /\
            Forall (fun c => c <> BACKSLASH /\ c <> CR) (list_ascii_of_string s).
Proof.
  unfold parse.LoadStringToken. destruct (get i) as [q i1].
  destruct (parse.read_string_literal q (rdbuf i1) []) as [[s rest]| | | |] eqn:E;
    try discriminate.
  intros [= <- <-]. eexists. split; [reflexivity|].
  rewrite list_ascii_of_string_of_list_ascii.
  eapply read_string_literal_chars; [apply Nat.le_refl | constructor | exact E].
Qed.

Lemma KEY_WORDS_TOKENS_well_formed (s : string) (t : Token) :
  parse.KEY_WORDS_TOKENS s = Some t -> well_formed t.
Proof.
  unfold parse.KEY_WORDS_TOKENS.
  repeat (match goal with
          | |- context [if ?b then _ else _] => destruct b
          end; [intros [= <-]; exact I|]).
  discriminate.
Qed.

Lemma LoadIdToken_value (i i' : istream) (t : Token) (c : ascii) (rest : list ascii) :
  eofbit i = false -> rdbuf i = c :: rest -> parse.IsIdOpening c = true ->
  parse.LoadIdToken i = (t, i') ->
  well_formed t.
Proof.
  intros He Hb Hc. unfold parse.LoadIdToken, scan_while. rewrite He, Hb.
  simpl. unfold parse.IsIdCharacter at 1. rewrite Hc. simpl.
  destruct (scan_buf parse.IsIdCharacter rest) as [taken s'] eqn:E.
  apply scan_buf_spec in E as (_ & _ & Hall & _).
  destruct (parse.KEY_WORDS_TOKENS _) as [kw|] eqn:K; intros [= <- <-].
  - now apply KEY_WORDS_TOKENS_well_formed in K.
  - simpl. split; [exact K|]. exists c, taken.
    rewrite list_ascii_of_string_of_list_ascii. auto.
Qed.

Lemma LoadOperatorsToken_value (i i' : istream) (t : Token) (c : ascii) (rest : list ascii) :
  eofbit i = false -> rdbuf i = c :: rest ->
  parse.LoadOperatorsToken i = (t, i') ->
  t = token_type.Char c \/ t = token_type.Eq \/ t = token_type.NotEq \/
  t = token_type.GreaterOrEq \/ t = token_type.LessOrEq.
Proof.
  intros He Hb. unfold parse.LoadOperatorsToken.
  rewrite (get_nonempty i c rest He Hb).
  destruct (_ || _)%bool; [|intros [= <- <-]; now left].
  destruct (peek (mk_istream rest false)) as [c2 i2].
  destruct (char_eqb c2 "="); [|intros [= <- <-]; now left].
  repeat (match goal with
          | |- context [if ?b then _ else _] => destruct b
          end); intros [= <- <-]; auto.
Qed.

(** The character [LoadToken] chooses the token by is no space and does not
    start a comment. *)
Lemma next_character_kind (i : istream) :
  stream_ok i -> eofbit (snd (next_character i)) = false ->
  fst (next_character i) <> SPACE /\ fst (next_character i) <> "#"%char.
Proof.
  intros Hs. unfold next_character.
  destruct (scan_while is_space i) as [sp input1] eqn:E1.
  apply scan_while_spec in E1 as (_ & Hok1 & _ & Hn1); [|exact Hs]. simpl.
  destruct (char_eqb (fst (peek input1)) "#") eqn:Hc.
  - destruct (scan_while not_newline input1) as [cm input2] eqn:E2.
    apply scan_while_spec in E2 as (_ & Hok2 & _ & Hn2); [|exact Hok1]. simpl.
    intros He. destruct (peek_spec input2 Hok2) as (_ & _ & _ & Hp).
    destruct (Hp He) as (He2 & _ & rest & Hrest).
    destruct (Hn2 He2) as (c2 & rest2 & Hb2 & Hnl).
    rewrite Hrest in Hb2. injection Hb2 as Hc2 _. rewrite <- Hc2 in Hnl.
    unfold not_newline in Hnl. apply negb_false_iff, char_eqb_eq in Hnl.
    rewrite Hnl. split; discriminate.
  - intros He. destruct (peek_spec input1 Hok1) as (_ & _ & _ & Hp).
    destruct (Hp He) as (He1 & _ & rest & Hrest).
    destruct (Hn1 He1) as (c1 & rest1 & Hb1 & Hsp).
    rewrite Hrest in Hb1. injection Hb1 as Hc1 _. rewrite <- Hc1 in Hsp.
    split; [now apply char_eqb_neq in Hsp | now apply char_eqb_neq in Hc].
Qed.


Lemma layout_step_well_formed (lx lx1 : parse.Lexer) :
  stream_ok (parse.input_ lx) ->
  Forall well_formed (parse.tokens_ lx) ->
  (if parse.new_line_ lx then parse.CalculateIndent lx else parse.Ok lx) = parse.Ok lx1 ->
  stream_ok (parse.input_ lx1) /\ Forall well_formed (parse.tokens_ lx1).
Proof.
  intros Hs Hw. destruct (parse.new_line_ lx); [|intros [= <-]; auto].
  unfold parse.CalculateIndent.
  destruct (scan_while is_space (parse.input_ lx)) as [spaces input1] eqn:E.
  apply scan_while_spec in E as (_ & Hok1 & _); [|exact Hs].
  destruct (char_eqb _ LF); [intros [= <-]; auto|].
  destruct (negb _); [discriminate|]. intros [= <-]. simpl.
  split; [exact Hok1|]. apply Forall_app. split; [exact Hw|].
  apply List.Forall_forall. intros t Hin. apply repeat_spec in Hin. subst t.
  now destruct (Z.ltb _ _).
Qed.

Lemma eof_token_well_formed (tokens : list Token) : well_formed (parse.eof_token tokens).
Proof.
  unfold parse.eof_token. destruct (parse.empty tokens); [exact I|].
  destruct (_ || _)%bool; exact I.
Qed.

Lemma LoadToken_well_formed (fuel : nat) :
  forall (lx : parse.Lexer) (t : Token) (lx' : parse.Lexer),
    stream_ok (parse.input_ lx) ->
    Forall well_formed (parse.tokens_ lx) ->
    parse.LoadToken fuel lx = parse.Ok (t, lx') ->
    stream_ok (parse.input_ lx') /\ Forall well_formed (parse.tokens_ lx') /\
    well_formed t.
Proof.
  induction fuel as [|fuel IH]; intros lx t lx' Hs Hw; [discriminate|].
  rewrite LoadToken_S.
  destruct (if parse.new_line_ lx then parse.CalculateIndent lx else parse.Ok lx)
    as [lx1| | | |] eqn:E1; try discriminate.
  destruct (layout_step_well_formed lx lx1 Hs Hw E1) as [Hs1 Hw1].
  destruct (next_character_spec (parse.input_ lx1) Hs1) as (Hs3 & _ & Hnext).
  pose proof (next_character_eof (parse.input_ lx1)) as Heofc.
  pose proof (next_character_kind (parse.input_ lx1) Hs1) as Hkind.
  unfold parse.lift_result at 1. cbv beta zeta.
  destruct (next_character (parse.input_ lx1)) as [c input3]. cbn [fst snd] in *.
  destruct (char_eqb c LF) eqn:Hc.
  - apply char_eqb_eq in Hc. subst c.
    destruct (eofbit input3) eqn:He3; [specialize (Heofc eq_refl); discriminate|].
    destruct (Hnext eq_refl) as [rest Hrest].
    rewrite (get_nonempty input3 LF rest He3 Hrest). cbn [snd].
    destruct (_ || _)%bool.
    + apply IH; simpl; [intros H; discriminate | exact Hw1].
    + intros [= <- <-]. simpl. split; [intros H; discriminate|]. split; [exact Hw1 | exact I].
  - apply char_eqb_neq in Hc. unfold eof. destruct (eofbit input3) eqn:He3.
    + intros [= <- <-]. simpl. split; [exact Hs3|]. split; [exact Hw1|].
      apply eof_token_well_formed.
    + destruct (Hnext eq_refl) as [rest Hrest]. destruct (Hkind eq_refl) as [Hsp Hhash].
      destruct (parse.IsStringOpening c) eqn:Hq.
      { destruct (parse.LoadStringToken input3) as [[t0 i0]| | | |] eqn:El;
          try discriminate.
        intros [= <- <-]. simpl.
        destruct (LoadStringToken_spec _ _ _ _ _ He3 Hrest El) as (_ & Hi & _).
        destruct (LoadStringToken_value _ _ _ El) as (s & -> & Hchars).
        auto. }
      destruct (parse.IsDigit c) eqn:Hd.
      { destruct (parse.LoadNumberToken input3) as [[t0 i0]| | | |] eqn:El;
          try discriminate.
        intros [= <- <-]. simpl.
        destruct (LoadNumberToken_spec _ _ _ _ _ He3 Hrest Hd El) as (_ & Hi & _).
        destruct (LoadNumberToken_value _ _ _ Hs3 El) as (v & -> & Hv).
        auto. }
      destruct (parse.IsIdOpening c) eqn:Hid.
      { destruct (parse.LoadIdToken input3) as [t0 i0] eqn:El.
        intros [= <- <-]. simpl.
        destruct (LoadIdToken_spec _ _ _ _ _ He3 Hrest Hid El) as (_ & Hi & _).
        pose proof (LoadIdToken_value _ _ _ _ _ He3 Hrest Hid El). auto. }
      destruct (parse.LoadOperatorsToken input3) as [t0 i0] eqn:El.
      intros [= <- <-]. simpl.
      destruct (LoadOperatorsToken_spec _ _ _ _ _ He3 Hrest El) as (_ & Hi & _).
      split; [exact Hi|]. split; [exact Hw1|].
      destruct (LoadOperatorsToken_value _ _ _ _ _ He3 Hrest El)
        as [-> | [-> | [-> | [-> | ->]]]]; try exact I.
      simpl. auto 7.
Qed.

Lemma fill_well_formed (fuel : nat) :
  forall (lx lx' : parse.Lexer),
    stream_ok (parse.input_ lx) ->
    Forall well_formed (parse.tokens_ lx) ->
    parse.fill fuel lx = parse.Ok lx' ->
    Forall well_formed (parse.tokens_ lx').
Proof.
  induction fuel as [|fuel IH]; intros lx lx' Hs Hw; [discriminate|].
  simpl parse.fill. destruct (_ || _)%bool; [|now intros [= <-]].
  unfold parse.LoadToken1.
  destruct (parse.LoadToken _ lx) as [[t lx1]| | | |] eqn:E; try discriminate.
  simpl. destruct (LoadToken_well_formed _ _ _ _ Hs Hw E) as (Hs1 & Hw1 & Ht).
  apply IH; [exact Hs1|]. simpl. apply Forall_app. split; [exact Hw1|].
  now repeat constructor.
Qed.

(** X5.  The values of the tokens of any source: a [Number] lies between 0
    and [INT_MAX]; an [Id] is not a keyword, starts with a letter or an
    underscore and goes on with letters, digits and underscores; a [String]
    holds no backslash and no carriage return; a [Char] is no space, no line
    break, no [#], no quote, no digit, no letter and no underscore. *)
Theorem token_values_well_formed (source : string) (tokens : list Token) :
  parse.tokenize source = parse.Ok tokens -> Forall well_formed tokens.
Proof.
  intros H. apply tokenize_Ok in H as (lx & Hlx & <-).
  unfold parse.new_Lexer in Hlx. eapply fill_well_formed; [| |exact Hlx].
  - intros H. discriminate.
  - constructor.
Qed.

Lemma token_values_well_formed_witness :
  Forall well_formed
    [token_type.Id "classy"; token_type.Char "="; token_type.Number 12;
     token_type.Char "+"; token_type.String "it's"; token_type.Newline; token_type.Eof].
Proof.
  apply (token_values_well_formed ("classy = 12 + 'it\'s'")).
  vm_compute. reflexivity.
Defined.


(** *** String literals *)

(** How a character is written inside a string literal: the four escapes
    of [LoadStringToken], read backwards. *)
Definition escape (c : ascii) : list ascii :=
  if char_eqb c LF then [BACKSLASH; "n"%char]
  else if char_eqb c TAB then [BACKSLASH; "t"%char]
  else if char_eqb c "'" then [BACKSLASH; "'"%char]
  else if char_eqb c DQUOTE then [BACKSLASH; DQUOTE]
  else [c].

(** The literal for a text, between two quotes of one kind. *)
Definition literal (quote : ascii) (text : list ascii) : list ascii :=
  (quote :: concat (map escape text) ++ [quote])%list.

#[local] Arguments char_eqb : simpl never.

Lemma read_escape (quote c : ascii) (rest acc : list ascii) :
  parse.IsStringOpening quote = true -> c <> BACKSLASH -> c <> CR ->
  parse.read_string_literal quote (escape c ++ rest)%list acc
  = parse.read_string_literal quote rest (acc ++ [c])%list.
Proof.
  intros Hq Hb Hcr. unfold BACKSLASH in *.
  assert (char_eqb "\" quote = false) as Hbq.
  { apply char_eqb_neq. intros <-. discriminate. }
  unfold escape, BACKSLASH.
  destruct (char_eqb c LF) eqn:H1.
  { apply char_eqb_eq in H1. subst c. simpl. now rewrite Hbq. }
  destruct (char_eqb c TAB) eqn:H2.
  { apply char_eqb_eq in H2. subst c. simpl. now rewrite Hbq. }
  destruct (char_eqb c "'") eqn:H3.
  { apply char_eqb_eq in H3. subst c. simpl. now rewrite Hbq. }
  destruct (char_eqb c DQUOTE) eqn:H4.
  { apply char_eqb_eq in H4. subst c. simpl. now rewrite Hbq. }
  simpl.
  assert (char_eqb c quote = false) as ->.
  { unfold parse.IsStringOpening in Hq. apply orb_true_iff in Hq as [Hq | Hq];
      apply char_eqb_eq in Hq; subst quote; assumption. }
  assert (char_eqb c "\" = false) as -> by now apply char_eqb_neq.
  rewrite H1. assert (char_eqb c CR = false) as -> by now apply char_eqb_neq.
  reflexivity.
Qed.

Lemma read_escaped (quote : ascii) (text rest acc : list ascii) :
  parse.IsStringOpening quote = true ->
  Forall (fun c => c <> BACKSLASH /\ c <> CR) text ->
  parse.read_string_literal quote (concat (map escape text) ++ quote :: rest)%list acc
  = parse.Ok ((acc ++ text)%list, rest).
Proof.
  intros Hq. revert acc. induction text as [|c text IH]; intros acc Hall.
  - simpl. rewrite char_eqb_refl, app_nil_r. reflexivity.
  - inversion Hall as [|x xs [Hb Hcr] Hrest]; subst.
    replace (acc ++ c :: text)%list with ((acc ++ [c]) ++ text)%list
      by (now rewrite <- app_assoc).
    cbn [map concat]. rewrite <- app_assoc.
    rewrite read_escape by assumption. now apply IH.
Qed.

(** X6.  A string literal is read back: for a text without backslash and
    carriage return, written between two single or two double quotes with
    line breaks, tabs and both quotes escaped, [LoadStringToken] returns the
    [String] token of that text and stops after the closing quote. *)
Theorem string_literal_round_trip (quote : ascii) (text rest : list ascii) :
  parse.IsStringOpening quote = true ->
  Forall (fun c => c <> BACKSLASH /\ c <> CR) text ->
  parse.LoadStringToken (mk_istream (literal quote text ++ rest)%list false)
  = parse.Ok (token_type.String (string_of_list_ascii text), mk_istream rest false).
Proof.
  intros Hq Hall. unfold parse.LoadStringToken, literal, get. simpl.
  rewrite <- app_assoc. simpl. now rewrite read_escaped.
Qed.

Lemma string_literal_round_trip_witness :
  parse.LoadStringToken
    (mk_istream (list_ascii_of_string "'it\'s\n' + x") false)
  = parse.Ok (token_type.String ("it's" ++ nl),
              mk_istream (list_ascii_of_string " + x") false).
Proof.
  apply (string_literal_round_trip "'"%char (list_ascii_of_string ("it's" ++ nl))
           (list_ascii_of_string " + x")).
  - reflexivity.
  - repeat constructor; discriminate.
Defined.


(** *** Numbers *)

Lemma pretty_N_char_digit (d : N) :
  (d < 10)%N ->
  parse.IsDigit (pretty_N_char d) = true /\
  parse.digit_value (pretty_N_char d) = Z.of_N d.
Proof.
  intros H.
  assert (d = 0 \/ d = 1 \/ d = 2 \/ d = 3 \/ d = 4 \/ d = 5 \/ d = 6 \/ d = 7 \/
          d = 8 \/ d = 9)%N as Hd by lia.
  repeat (destruct Hd as [-> | Hd]; [split; reflexivity|]). subst d.
  split; reflexivity.
Qed.

Definition decimal_step (acc : Z) (c : ascii) : Z := 10 * acc + parse.digit_value c.

Lemma pretty_N_go_digits (x : N) :
  forall s, exists ds,
    list_ascii_of_string (pretty_N_go x s) = (ds ++ list_ascii_of_string s)%list /\
    Forall (fun c => parse.IsDigit c = true) ds /\
    (forall acc, fold_left decimal_step ds acc
                 = acc * 10 ^ Z.of_nat (length ds) + Z.of_N x) /\
    ((0 < x)%N -> ds <> []).
Proof.
  induction (N.lt_wf_0 x) as [x _ IH]. intros s.
  destruct (N.eq_dec x 0%N) as [-> | Hx].
  - exists []. rewrite pretty_N_go_0. split; [reflexivity|]. split; [constructor|].
    split; [intros acc; simpl; lia | intros H; lia].
  - assert (0 < x)%N as Hpos by lia.
    rewrite pretty_N_go_step by exact Hpos.
    destruct (IH (x `div` 10)%N (N.div_lt x 10%N Hpos eq_refl)
                (String.String (pretty_N_char (x `mod` 10)) s))
      as (ds & Hds & Hall & Hval & _).
    destruct (pretty_N_char_digit (x `mod` 10)%N) as [Hdig Hdv];
      [apply N.mod_lt; lia|].
    exists (ds ++ [pretty_N_char (x `mod` 10)])%list.
    split; [rewrite Hds; simpl; now rewrite <- app_assoc|].
    split; [apply Forall_app; split; [exact Hall | now repeat constructor]|].
    split; [|intros _ H; destruct ds; discriminate].
    intros acc. rewrite fold_left_app, Hval. simpl. unfold decimal_step at 1.
    rewrite Hdv, length_app. simpl.
    replace (Z.of_nat (length ds + 1)) with (Z.of_nat (length ds) + 1) by lia.
    rewrite Z.pow_add_r by lia.
    pose proof (N.div_mod x 10%N ltac:(lia)) as Hdm.
    assert (Z.of_N x = 10 * Z.of_N (x `div` 10) + Z.of_N (x `mod` 10)) as -> by lia.
    lia.
Qed.

(** The decimal notation of a number that is not negative: a run of digits,
    not empty, whose value is the number. *)
Lemma pretty_digits (v : Z) :
  0 <= v ->
  exists ds,
    list_ascii_of_string (pretty v) = ds /\ ds <> [] /\
    Forall (fun c => parse.IsDigit c = true) ds /\ parse.decimal_value ds = v.
Proof.
  intros Hv. destruct v as [|p|p]; [| |lia].
  - exists ["0"%char]. split; [reflexivity|]. split; [discriminate|].
    split; [now repeat constructor | reflexivity].
  - unfold pretty, pretty_Z, pretty, pretty_positive, pretty, pretty_N.
    destruct (decide (N.pos p = 0%N)) as [H | _]; [discriminate|].
    destruct (pretty_N_go_digits (N.pos p) "") as (ds & Hds & Hall & Hval & Hne).
    exists ds. simpl in Hds. rewrite app_nil_r in Hds.
    split; [exact Hds|]. split; [apply Hne; lia|]. split; [exact Hall|].
    unfold parse.decimal_value. change (fun acc c => 10 * acc + parse.digit_value c)
      with decimal_step. rewrite Hval. simpl. lia.
Qed.

Lemma scan_run (p : ascii -> bool) (run rest : list ascii) :
  Forall (fun c => p c = true) run ->
  match rest with [] => True | c :: _ => p c = false end ->
  scan_buf p (run ++ rest) = (run, mk_istream rest (parse.empty_buffer rest)).
Proof.
  intros Hrun Hrest. induction Hrun as [|c run Hc Hrun IH]; simpl.
  - destruct rest as [|c rest]; [reflexivity|]. simpl. now rewrite Hrest.
  - now rewrite Hc, IH.
Qed.

(** X9.  A number written in decimal is read back: where the input holds
    the decimal notation of [v], which is not negative, followed by
    something that is no digit, [LoadNumberToken] consumes the digits and
    returns [Number v] when [v] fits an [int]; when it does not,
    [std::out_of_range] leaves the lexer. *)
Theorem decimal_number_round_trip (v : Z) (rest : list ascii) :
  0 <= v ->
  match rest with [] => True | c :: _ => parse.IsDigit c = false end ->
  parse.LoadNumberToken (mk_istream (list_ascii_of_string (pretty v) ++ rest) false)
  = if Z.leb v parse.INT_MAX
    then parse.Ok (token_type.Number v, mk_istream rest (parse.empty_buffer rest))
    else parse.StdOutOfRange.
Proof.
  intros Hv Hrest. destruct (pretty_digits v Hv) as (ds & -> & _ & Hall & Hval).
  unfold parse.LoadNumberToken, scan_while. simpl.
  rewrite (scan_run _ _ _ Hall Hrest). unfold parse.stoi. rewrite Hval.
  now destruct (Z.leb v parse.INT_MAX).
Qed.

Lemma decimal_number_round_trip_witness :
  parse.LoadNumberToken (mk_istream (list_ascii_of_string "2147483647)") false)
  = parse.Ok (token_type.Number 2147483647, mk_istream [")"%char] false) /\
  parse.LoadNumberToken (mk_istream (list_ascii_of_string "2147483648") false)
  = parse.StdOutOfRange.
Proof.
  split.
  - apply (decimal_number_round_trip 2147483647 [")"%char]); [lia | reflexivity].
  - apply (decimal_number_round_trip 2147483648 []); [lia | exact I].
Defined.


(** *** Comparing tokens and walking the buffer *)

(** Modelled from the spec: [Token] is a variant whose alternatives
    [lexer.h] declares; [index] numbers them in the order the specification
    lists the token kinds.  [operator==] only tests whether two indices are
    equal, so any numbering that tells the alternatives apart gives the same
    function. *)
Definition index (t : Token) : nat :=
  match t with
  | token_type.Number _ => 0 | token_type.Id _ => 1 | token_type.Char _ => 2
  | token_type.String _ => 3 | token_type.Class => 4 | token_type.Return => 5
  | token_type.If => 6 | token_type.Else => 7 | token_type.Def => 8
  | token_type.Newline => 9 | token_type.Print => 10 | token_type.Indent => 11
  | token_type.Dedent => 12 | token_type.And => 13 | token_type.Or => 14
  | token_type.Not => 15 | token_type.Eq => 16 | token_type.NotEq => 17
  | token_type.LessOrEq => 18 | token_type.GreaterOrEq => 19
  | token_type.None => 20 | token_type.True => 21 | token_type.False => 22
  | token_type.Eof => 23
  end%nat.

(** [t.TryAs<T>()] and the [value] it gives access to. *)
Definition As_Char (t : Token) : option ascii :=
  match t with token_type.Char value => Some value | _ => None end.
Definition As_Number (t : Token) : option Z :=
  match t with token_type.Number value => Some value | _ => None end.
Definition As_String (t : Token) : option string :=
  match t with token_type.String value => Some value | _ => None end.
Definition As_Id (t : Token) : option string :=
  match t with token_type.Id value => Some value | _ => None end.

(** [t.Is<T>()]. *)
Definition Is {A : Type} (as_T : option A) : bool :=
  match as_T with Some _ => true | None => false end.

(** [lhs.As<T>().value == rhs.As<T>().value], where both hold a [T]. *)
Definition same_value {A : Type} (eqb : A -> A -> bool) (lhs rhs : option A) : bool :=
  match lhs, rhs with
  | Some a, Some b => eqb a b
  | _, _ => false
  end.

(** [bool operator==(const Token& lhs, const Token& rhs)]. *)
Definition Token_eq (lhs rhs : Token) : bool :=
  if negb (Nat.eqb (index lhs) (index rhs)) then false
  else if Is (As_Char lhs) then same_value Ascii.eqb (As_Char lhs) (As_Char rhs)
  else if Is (As_Number lhs) then same_value Z.eqb (As_Number lhs) (As_Number rhs)
  else if Is (As_String lhs) then same_value String.eqb (As_String lhs) (As_String rhs)
  else if Is (As_Id lhs) then same_value String.eqb (As_Id lhs) (As_Id rhs)
  else true.

(** [bool operator!=(const Token& lhs, const Token& rhs)]. *)
Definition Token_ne (lhs rhs : Token) : bool := negb (Token_eq lhs rhs).

(** X7.  [operator==] on tokens is equality: two tokens compare equal
    exactly when they are of the same kind and, for the kinds that carry a
    value, carry the same value; [operator!=] is its negation. *)
Theorem Token_eq_is_equality (lhs rhs : Token) :
  (Token_eq lhs rhs = true <-> lhs = rhs) /\
  (Token_ne lhs rhs = true <-> lhs <> rhs).
Proof.
  assert (Token_eq lhs rhs = true <-> lhs = rhs) as H.
  { split.
    - destruct lhs, rhs; try discriminate; try reflexivity; unfold Token_eq; simpl;
        intros H;
        first [ apply Z.eqb_eq in H | apply String.eqb_eq in H | apply Ascii.eqb_eq in H ];
        now subst.
    - intros <-. destruct lhs; try reflexivity; unfold Token_eq; simpl.
      + apply Z.eqb_refl.
      + apply String.eqb_refl.
      + apply Ascii.eqb_refl.
      + apply String.eqb_refl. }
  split; [exact H|]. unfold Token_ne. rewrite negb_true_iff.
  destruct (Token_eq lhs rhs); split; intros H1; try discriminate; try reflexivity.
  - apply proj1 in H. specialize (H eq_refl). contradiction.
  - intros Heq. apply H in Heq. discriminate.
Qed.


(** The lexer after a call of [NextToken]. *)
Definition advance (lx : parse.Lexer) : parse.Lexer := fst (parse.NextToken lx).

Lemma tail_drop {A : Type} (j : nat) (l : list A) : tail (drop j l) = drop (S j) l.
Proof.
  revert l. induction j as [|j IH]; intros l; [now destruct l|].
  destruct l; [reflexivity | apply IH].
Qed.

Lemma tokens_after_advances (k : nat) (lx : parse.Lexer) :
  parse.tokens_ lx <> [] ->
  parse.tokens_ (Nat.iter k advance lx)
  = drop (Nat.min k (length (parse.tokens_ lx) - 1)) (parse.tokens_ lx).
Proof.
  intros Hne. induction k as [|k IH]; [reflexivity|].
  simpl Nat.iter. unfold advance at 1, parse.NextToken. cbn [fst].
  assert (length (parse.tokens_ (Nat.iter k advance lx))
          = length (parse.tokens_ lx) - Nat.min k (length (parse.tokens_ lx) - 1))%nat
    as Hlen by (rewrite IH; apply length_drop).
  destruct (Nat.ltb_spec 1 (length (parse.tokens_ (Nat.iter k advance lx))))
    as [Hlt | Hge]; cbn [parse.tokens_]; rewrite IH.
  - rewrite Hlen in Hlt. rewrite tail_drop. f_equal. lia.
  - rewrite Hlen in Hge. f_equal. lia.
Qed.

(** X8.  Walking the buffer of a lexer the constructor has built: the
    current token exists; after [k] calls of [NextToken] the current token is
    the one at place [k] of the buffer, and from the last place on, which
    holds [Eof], every further call leaves the lexer where it is and returns
    [Eof]. *)
Theorem NextToken_stops_at_Eof (source : list ascii) (lx : parse.Lexer) (k : nat) :
  parse.new_Lexer source = parse.Ok lx ->
  let n := length (parse.tokens_ lx) in
  (1 <= n)%nat /\
  parse.CurrentToken (Nat.iter k advance lx) = parse.tokens_ lx !! Nat.min k (n - 1) /\
  ((n - 1 <= k)%nat ->
   parse.NextToken (Nat.iter k advance lx)
   = (Nat.iter k advance lx, Some token_type.Eof)).
Proof.
  intros Hlx. pose proof (token_stream_well_formed source) as Hw.
  rewrite Hlx in Hw. destruct Hw as (pre & Hpre & _).
  assert (parse.tokens_ lx <> []) as Hne by (rewrite Hpre; now destruct pre).
  assert (1 <= length (parse.tokens_ lx))%nat as Hpos
    by (rewrite Hpre, length_app; simpl; lia).
  cbv zeta. split; [exact Hpos|].
  pose proof (tokens_after_advances k lx Hne) as Hk.
  assert (forall j, head (drop j (parse.tokens_ lx)) = parse.tokens_ lx !! j) as Hhead.
  { intros j. rewrite head_lookup, lookup_drop. f_equal. lia. }
  split.
  - unfold parse.CurrentToken. now rewrite Hk, Hhead.
  - intros Hge. unfold parse.NextToken.
    assert (length (parse.tokens_ (Nat.iter k advance lx)) = 1)%nat as Hlen.
    { rewrite Hk, length_drop. lia. }
    rewrite Hlen. simpl. f_equal. unfold parse.CurrentToken.
    rewrite Hk, Hhead. rewrite Hpre, length_app in Hge |- *. simpl in Hge |- *.
    replace (Nat.min k (length pre + 1 - 1)) with (length pre) by lia.
    now rewrite list_lookup_middle.
Qed.

Lemma NextToken_stops_at_Eof_witness :
  exists lx,
    parse.new_Lexer (list_ascii_of_string "x") = parse.Ok lx /\
    parse.CurrentToken (Nat.iter 1 advance lx) = Some token_type.Newline /\
    parse.NextToken (Nat.iter 5 advance lx)
    = (Nat.iter 5 advance lx, Some token_type.Eof).
Proof.
  destruct (parse.new_Lexer (list_ascii_of_string "x")) as [lx| | | |] eqn:E;
    try (vm_compute in E; discriminate).
  exists lx. split; [reflexivity|].
  destruct (NextToken_stops_at_Eof _ lx 1 E) as (_ & H1 & _).
  destruct (NextToken_stops_at_Eof _ lx 5 E) as (_ & _ & H5).
  vm_compute in E. injection E as <-.
  split; [exact H1 | apply H5; simpl; lia].
Defined.

(** ** What an execution leaves of the output

    The output stream is only written at its end: whatever a statement does,
    and however it ends, the text written before it is still the beginning
    of the output. *)

Definition extends (w w' : World) : Prop :=
  exists text, output w' = output w ++ text.

Definition frame_extends (s s' : Closure * World) : Prop := extends (snd s) (snd s').

Lemma append_empty (s : string) : s ++ "" = s.
Proof.
  induction s as [|c s IH]; [reflexivity|].
  change (String.String c s ++ "") with (String.String c (s ++ "")). now rewrite IH.
Qed.

Lemma append_append (s1 s2 s3 : string) : s1 ++ (s2 ++ s3) = (s1 ++ s2) ++ s3.
Proof.
  induction s1 as [|c s1 IH]; [reflexivity|].
  change (String.String c (s1 ++ s2 ++ s3) = String.String c ((s1 ++ s2) ++ s3)).
  now rewrite IH.
Qed.

Lemma extends_refl (w : World) : extends w w.
Proof. exists "". symmetry. apply append_empty. Qed.

Lemma extends_trans (w1 w2 w3 : World) : extends w1 w2 -> extends w2 w3 -> extends w1 w3.
Proof.
  intros [t1 E1] [t2 E2].
  exists (t1 ++ t2). rewrite E2, E1. symmetry. apply append_append.
Qed.

#[local] Instance extends_preorder : PreOrder extends.
Proof. split; [exact extends_refl | exact extends_trans]. Qed.

#[local] Instance frame_extends_preorder : PreOrder frame_extends.
Proof.
  split; [intros s; apply extends_refl|].
  intros s1 s2 s3. apply extends_trans.
Qed.

(** Every run of [m] ends in a state related to the one it started in. *)
Definition preserves {S A : Type} (R : S -> S -> Prop) (m : M S A) : Prop :=
  forall s r s', m s = (r, s') -> R s s'.

Section Preserves.

Context {S : Type} (R : S -> S -> Prop) `{!PreOrder R}.

Lemma preserves_ret {A : Type} (a : A) : preserves R (ret a).
Proof. intros s r s' H. injection H as _ <-. reflexivity. Qed.

Lemma preserves_fail {A : Type} (f : Failure) : preserves R (@fail S A f).
Proof. intros s r s' H. injection H as _ <-. reflexivity. Qed.

Lemma preserves_throw {A : Type} (what : string) : preserves R (@throw S A what).
Proof. apply preserves_fail. Qed.

Lemma preserves_GetValue {A : Type} (p : option A) : preserves R (GetValue p).
Proof. destruct p; [apply preserves_ret | apply preserves_fail]. Qed.

Lemma preserves_int_result (z : Z) : preserves R (int_result z).
Proof.
  unfold int_result. destruct (in_int_range z); [apply preserves_ret | apply preserves_fail].
Qed.

Lemma preserves_bind {A B : Type} (m : M S A) (k : A -> M S B) :
  preserves R m -> (forall a, preserves R (k a)) -> preserves R (bind m k).
Proof.
  intros Hm Hk s r s' H. unfold bind in H.
  destruct (m s) as [[a|f] s1] eqn:E.
  - transitivity s1; [exact (Hm _ _ _ E) | exact (Hk _ _ _ _ H)].
  - injection H as _ <-. exact (Hm _ _ _ E).
Qed.

Lemma preserves_and_then (a b : M S bool) :
  preserves R a -> preserves R b -> preserves R (and_then a b).
Proof.
  intros Ha Hb. apply preserves_bind; [exact Ha|].
  intros [|]; [exact Hb | apply preserves_ret].
Qed.

Lemma preserves_or_else (a b : M S bool) :
  preserves R a -> preserves R b -> preserves R (or_else a b).
Proof.
  intros Ha Hb. apply preserves_bind; [exact Ha|].
  intros [|]; [apply preserves_ret | exact Hb].
Qed.

Lemma preserves_not_ (a : M S bool) : preserves R a -> preserves R (not_ a).
Proof. intros Ha. apply preserves_bind; [exact Ha | intros b; apply preserves_ret]. Qed.

End Preserves.

Lemma preserves_lift {A : Type} (m : M World A) :
  preserves extends m -> preserves frame_extends (lift m).
Proof.
  intros Hm [c w] r s' H. unfold lift in H. simpl in H.
  destruct (m w) as [r1 w1] eqn:E. injection H as _ <-. exact (Hm _ _ _ E).
Qed.

Lemma preserves_get_closure : preserves frame_extends get_closure.
Proof. intros s r s' H. injection H as _ <-. reflexivity. Qed.

Lemma preserves_set_closure (c : Closure) : preserves frame_extends (set_closure c).
Proof. intros s r s' H. injection H as _ <-. apply extends_refl. Qed.

Lemma preserves_VariableValue (ids : list string) :
  preserves frame_extends (ast.VariableValue_Execute ids).
Proof. intros s r s' H. injection H as _ <-. reflexivity. Qed.

Lemma preserves_store_field (loc : nat) (field_name : string) (value : ObjectHolder) :
  preserves extends (store_field loc field_name value).
Proof.
  intros w r w' H. unfold store_field in H.
  destruct (heap w !! loc); injection H as _ <-; [|reflexivity].
  exists "". simpl. symmetry. apply append_empty.
Qed.

Lemma preserves_allocate : preserves extends allocate.
Proof.
  intros w r w' H. injection H as _ <-.
  exists "". simpl. symmetry. apply append_empty.
Qed.

Lemma preserves_write_output (text : string) : preserves extends (write_output text).
Proof.
  intros w r w' H. injection H as _ <-. now exists text.
Qed.

Section Keeps_the_world.

Variable Execute : Statement -> M (Closure * World) ObjectHolder.
Variable Print_object : Object -> string -> M World string.
Hypothesis Execute_preserves : forall s, preserves frame_extends (Execute s).
Hypothesis Print_preserves : forall object os, preserves extends (Print_object object os).

Lemma preserves_in_closure (closure : Closure) (s : Statement) :
  preserves extends (runtime.in_closure Execute closure s).
Proof.
  intros w r w' H. unfold runtime.in_closure in H.
  destruct (Execute s (closure, w)) as [r1 [c1 w1]] eqn:E.
  injection H as _ <-. exact (Execute_preserves _ _ _ _ E).
Qed.

Lemma preserves_Call (class_ : Class) (fields_ : nat) (method_name : string)
    (actual_args : list ObjectHolder) :
  preserves extends (runtime.Call Execute class_ fields_ method_name actual_args).
Proof.
  unfold runtime.Call. destruct (runtime.GetMethod class_ method_name);
    [|apply preserves_throw; apply _].
  destruct (negb _); [apply preserves_throw; apply _ | apply preserves_in_closure].
Qed.

Lemma preserves_Equal (lhs rhs : ObjectHolder) :
  preserves extends (runtime.Equal Execute lhs rhs).
Proof.
  unfold runtime.Equal. destruct (_ && _)%bool; [apply preserves_ret; apply _|].
  repeat (destruct (runtime.SameType _ _ lhs rhs); [apply preserves_ret; apply _|]).
  destruct (TryAs_ClassInstance lhs) as [[c l]|]; [|apply preserves_throw; apply _].
  apply preserves_bind; [apply _ | apply preserves_Call |].
  intros a. apply preserves_GetValue; apply _.
Qed.

Lemma preserves_Less (lhs rhs : ObjectHolder) :
  preserves extends (runtime.Less Execute lhs rhs).
Proof.
  unfold runtime.Less.
  repeat (destruct (runtime.SameType _ _ lhs rhs); [apply preserves_ret; apply _|]).
  destruct (TryAs_ClassInstance lhs) as [[c l]|]; [|apply preserves_throw; apply _].
  apply preserves_bind; [apply _ | apply preserves_Call |].
  intros a. apply preserves_GetValue; apply _.
Qed.

Lemma preserves_compare (cmp : Comparator) (lhs rhs : ObjectHolder) :
  preserves extends (runtime.compare Execute cmp lhs rhs).
Proof.
  pose proof (preserves_Equal lhs rhs) as HE. pose proof (preserves_Less lhs rhs) as HL.
  destruct cmp; simpl; [exact HE | | exact HL | | |].
  - now apply preserves_not_; [apply _|].
  - apply preserves_and_then; [apply _ | |]; now apply preserves_not_; [apply _|].
  - now apply preserves_or_else; [apply _ | |].
  - now apply preserves_not_; [apply _|].
Qed.

Lemma preserves_GetActualArgs (args : list Statement) :
  preserves frame_extends (ast.GetActualArgs Execute args).
Proof.
  induction args as [|arg args IH]; simpl; [apply preserves_ret; apply _|].
  apply preserves_bind; [apply _ | apply Execute_preserves |]. intros v.
  apply preserves_bind; [apply _ | exact IH |]. intros vs. apply preserves_ret; apply _.
Qed.

Lemma preserves_print_holder (oh : ObjectHolder) (os : string) :
  preserves extends (ast.print_holder Print_object oh os).
Proof.
  unfold ast.print_holder. destruct (Get oh); [apply Print_preserves | apply preserves_ret; apply _].
Qed.

Lemma preserves_print_arguments (args : list Statement) :
  forall first os,
    preserves frame_extends (ast.print_arguments Execute Print_object first args os).
Proof.
  induction args as [|arg args IH]; intros first os; simpl; [apply preserves_ret; apply _|].
  apply preserves_bind; [apply _ | apply Execute_preserves |]. intros oh.
  apply preserves_bind; [apply _ | apply preserves_lift, preserves_print_holder |].
  intros os2. apply IH.
Qed.

Lemma preserves_execute_all (stmts : list Statement) :
  preserves frame_extends (ast.execute_all Execute stmts).
Proof.
  induction stmts as [|stmt stmts IH]; simpl; [apply preserves_ret; apply _|].
  apply preserves_bind; [apply _ | apply Execute_preserves | intros _; exact IH].
Qed.

Lemma preserves_operands (lhs rhs : Statement) (what : string) :
  preserves frame_extends (ast.operands Execute lhs rhs what).
Proof.
  unfold ast.operands.
  apply preserves_bind; [apply _ | apply Execute_preserves |]. intros l.
  apply preserves_bind; [apply _ | apply Execute_preserves |]. intros r.
  destruct (_ || _)%bool; [apply preserves_throw | apply preserves_ret]; apply _.
Qed.

Lemma preserves_arithmetic (op : Z -> Z -> M (Closure * World) ObjectHolder)
    (lhs rhs : Statement) (what : string) :
  (forall a b, preserves frame_extends (op a b)) ->
  preserves frame_extends (ast.arithmetic Execute op lhs rhs what).
Proof.
  intros Hop. unfold ast.arithmetic.
  apply preserves_bind; [apply _ | apply preserves_operands |]. intros [l r].
  destruct (TryAs_Number l); [|apply preserves_throw; apply _].
  destruct (TryAs_Number r); [apply Hop | apply preserves_throw; apply _].
Qed.

Lemma preserves_truth (operand : Statement) :
  preserves frame_extends
    (bind (Execute operand) (fun v => lift (ast.IsTrue Execute v))).
Proof.
  apply preserves_bind; [apply _ | apply Execute_preserves |]. intros v.
  apply preserves_lift, preserves_Equal.
Qed.

Lemma preserves_node (s : Statement) :
  preserves frame_extends (ast.node Execute Print_object s).
Proof.
  destruct s; simpl.
  - (* Assignment *)
    apply preserves_bind; [apply _ | apply Execute_preserves |]. intros v.
    apply preserves_bind; [apply _ | apply preserves_get_closure |]. intros c.
    apply preserves_bind; [apply _ | apply preserves_set_closure |]. intros _.
    apply preserves_ret; apply _.
  - apply preserves_VariableValue.
  - (* Print *)
    apply preserves_bind; [apply _ | apply preserves_print_arguments |]. intros os.
    apply preserves_bind; [apply _ | apply preserves_lift, preserves_write_output |].
    intros _. apply preserves_ret; apply _.
  - (* MethodCall *)
    apply preserves_bind; [apply _ | apply Execute_preserves |]. intros oh.
    destruct (TryAs_ClassInstance oh) as [[c l]|]; [|apply preserves_ret; apply _].
    destruct (runtime.HasMethod _ _ _); [|apply preserves_ret; apply _].
    apply preserves_bind; [apply _ | apply preserves_GetActualArgs |]. intros actual.
    apply preserves_lift, preserves_Call.
  - (* Stringify *)
    apply preserves_bind; [apply _ | apply Execute_preserves |]. intros oh.
    apply preserves_bind; [apply _ | apply preserves_lift, preserves_print_holder |].
    intros os. apply preserves_ret; apply _.
  - (* Add *)
    apply preserves_bind; [apply _ | apply preserves_operands |]. intros [l r].
    destruct (runtime.SameType _ _ l r); [apply preserves_int_result; apply _|].
    destruct (runtime.SameType _ _ l r); [apply preserves_ret; apply _|].
    destruct (TryAs_ClassInstance l) as [[c loc]|]; [|apply preserves_throw; apply _].
    destruct (negb _); [apply preserves_throw; apply _ | apply preserves_lift, preserves_Call].
  - apply preserves_arithmetic. intros a b. apply preserves_int_result; apply _.
  - apply preserves_arithmetic. intros a b. apply preserves_int_result; apply _.
  - apply preserves_arithmetic. intros a b.
    destruct (Z.eqb b 0); [apply preserves_throw | apply preserves_int_result]; apply _.
  - (* Compound *)
    apply preserves_bind; [apply _ | apply preserves_execute_all |].
    intros _. apply preserves_ret; apply _.
  - (* Return *)
    apply preserves_bind; [apply _ | apply Execute_preserves |].
    intros v. apply preserves_fail; apply _.
  - (* ClassDefinition *)
    destruct (TryAs_Class cls_); [|apply preserves_fail; apply _].
    apply preserves_bind; [apply _ | apply preserves_get_closure |]. intros c0.
    apply preserves_bind; [apply _ | apply preserves_set_closure |]. intros _.
    apply preserves_ret; apply _.
  - (* FieldAssignment *)
    apply preserves_bind; [apply _ | apply preserves_VariableValue |]. intros obg.
    apply preserves_bind; [apply _ | apply Execute_preserves |]. intros v.
    destruct (TryAs_ClassInstance obg) as [[c l]|]; [|apply preserves_fail; apply _].
    apply preserves_bind; [apply _ | apply preserves_lift, preserves_store_field |].
    intros _. apply preserves_ret; apply _.
  - (* IfElse *)
    apply preserves_bind; [apply _ | apply Execute_preserves |]. intros cond.
    destruct (negb _); [apply preserves_fail; apply _|].
    apply preserves_bind; [apply _ | apply preserves_GetValue; apply _ |]. intros [|].
    + apply Execute_preserves.
    + destruct else_body_; [apply Execute_preserves | apply preserves_ret; apply _].
  - (* Or *)
    apply preserves_bind; [apply _ | | intros b; apply preserves_ret; apply _].
    apply preserves_or_else; [apply _ | |]; apply preserves_truth.
  - (* And *)
    apply preserves_bind; [apply _ | | intros b; apply preserves_ret; apply _].
    apply preserves_and_then; [apply _ | |]; apply preserves_truth.
  - (* Not *)
    apply preserves_bind; [apply _ | apply Execute_preserves |]. intros oh.
    apply preserves_bind; [apply _ | apply preserves_GetValue; apply _ |].
    intros v. apply preserves_ret; apply _.
  - (* Comparison *)
    apply preserves_bind; [apply _ | apply Execute_preserves |]. intros l.
    apply preserves_bind; [apply _ | apply Execute_preserves |]. intros r.
    apply preserves_bind; [apply _ | apply preserves_lift, preserves_compare |].
    intros b. apply preserves_ret; apply _.
  - (* NewInstance *)
    apply preserves_bind; [apply _ | apply preserves_lift, preserves_allocate |]. intros loc.
    destruct (runtime.HasMethod _ _ _); [|apply preserves_ret; apply _].
    apply preserves_bind; [apply _ | apply preserves_GetActualArgs |]. intros actual.
    apply preserves_bind; [apply _ | apply preserves_lift, preserves_Call |].
    intros _. apply preserves_ret; apply _.
  - (* MethodBody *)
    intros st r st' H.
    destruct (Execute s st) as [[v|f] st1] eqn:E.
    + injection H as _ <-. exact (Execute_preserves _ _ _ _ E).
    + destruct f; injection H as _ <-; exact (Execute_preserves _ _ _ _ E).
Qed.

Lemma preserves_print (object : Object) (os : string) :
  preserves extends (ast.print Execute Print_object object os).
Proof.
  destruct object; simpl; try (apply preserves_ret; apply _).
  destruct (runtime.HasMethod _ _ _); [|apply preserves_ret; apply _].
  apply preserves_bind; [apply _ | apply preserves_Call |]. intros result.
  destruct (Get result); [apply Print_preserves | apply preserves_fail; apply _].
Qed.

End Keeps_the_world.

Lemma Execute_Print_preserve (fuel : nat) :
  (forall s, preserves frame_extends (ast.Execute fuel s)) /\
  (forall object os, preserves extends (ast.Print_object fuel object os)).
Proof.
  induction fuel as [|fuel [IHE IHP]].
  - split; intros; intros st r st' H; injection H as _ <-; reflexivity.
  - split.
    + intros s. apply (preserves_node _ _ IHE IHP s).
    + intros object os. apply (preserves_print _ _ IHE IHP object os).
Qed.

(** X10.  However a statement ends, normally or with an error or a
    [return], the text written to the output stream before it is the
    beginning of the text written after it: a statement only appends to the
    output. *)
Theorem Execute_only_appends_output (fuel : nat) (s : Statement) (c c' : Closure)
    (w w' : World) (r : Outcome ObjectHolder) :
  ast.Execute fuel s (c, w) = (r, (c', w')) ->
  exists text, output w' = output w ++ text.
Proof. intros H. exact (proj1 (Execute_Print_preserve fuel) s _ _ _ H). Qed.

Lemma Execute_only_appends_output_witness :
  exists text,
    output (mk_World [] ("before" ++ "1" ++ nl)) = output (mk_World [] "before") ++ text.
Proof.
  apply (Execute_only_appends_output 3 print_x sample_closure sample_closure
           (mk_World [] "before") (mk_World [] ("before" ++ "1" ++ nl))
           (Normal (Own (String ("1" ++ nl))))).
  vm_compute. reflexivity.
Defined.

(** ** Variables and fields *)



(** The path of a [VariableValue] is read without a change of the state. *)
Lemma VariableValue_Execute_eq (fuel : nat) (ids : list string) (s : Closure * World) :
  ast.Execute (S fuel) (VariableValue ids) s = (ast.resolve ids (fst s) (snd s), s).
Proof. reflexivity. Qed.

Lemma resolve_result (ids : list string) :
  forall (fields : Closure) (w : World),
    (exists v, ast.resolve ids fields w = Normal v) \/
    ast.resolve ids fields w = Fail UndefinedBehaviour \/
    exists id, In id ids /\ ast.resolve ids fields w = Fail (ast.undefined_identifier id).
Proof.
  induction ids as [|id rest IH]; intros fields w; [right; left; reflexivity|].
  destruct rest as [|id' rest].
  - simpl. destruct (fields !! id) as [v|].
    + left. now exists v.
    + right. right. exists id. split; [now left | reflexivity].
  - change (ast.resolve (id :: id' :: rest) fields w)
      with (match fields !! id with
            | None => Fail (ast.undefined_identifier id)
            | Some value =>
                match TryAs_ClassInstance value with
                | Some (_, loc) =>
                    match heap w !! loc with
                    | Some fields' => ast.resolve (id' :: rest) fields' w
                    | None => Fail UndefinedBehaviour
                    end
                | None => Fail UndefinedBehaviour
                end
            end).
    destruct (fields !! id) as [v|].
    + destruct (TryAs_ClassInstance v) as [[c loc]|]; [|right; left; reflexivity].
      destruct (heap w !! loc) as [fields'|]; [|right; left; reflexivity].
      destruct (IH fields' w) as [H | [H | (x & Hin & H)]].
      * now left.
      * right. now left.
      * right. right. exists x. split; [now right | exact H].
    + right. right. exists id. split; [now left | reflexivity].
Qed.

(** X12.  [VariableValue] only reads: it leaves the closure, the fields
    of every instance and the output as they are, also when it fails; and
    when it fails with an exception, the exception is the
    [std::runtime_error] that names an identifier of its path as undefined.
    The one other way to fail is the null pointer dereferenced on a path
    through something that is no instance. *)
Theorem VariableValue_only_reads (fuel : nat) (ids : list string) (s : Closure * World) :
  exists r,
    ast.Execute (S fuel) (VariableValue ids) s = (r, s) /\
    ((exists v, r = Normal v) \/
     r = Fail UndefinedBehaviour \/
     exists id, In id ids /\
                r = Fail (RuntimeError ("Identifier '" ++ id ++ "' is undefined"))).
Proof.
  exists (ast.resolve ids (fst s) (snd s)). split; [apply VariableValue_Execute_eq|].
  apply resolve_result.
Qed.



(** ** Methods, [return] and instances *)

Lemma execute_all_app (Execute : Statement -> M (Closure * World) ObjectHolder)
    (pre post : list Statement) (s s1 : Closure * World) :
  ast.execute_all Execute pre s = (Normal tt, s1) ->
  ast.execute_all Execute (pre ++ post)%list s = ast.execute_all Execute post s1.
Proof.
  revert s. induction pre as [|stmt pre IH]; intros s H; simpl in *.
  - now injection H as <-.
  - unfold bind in *. destruct (Execute stmt s) as [[v|f] s0]; [|discriminate].
    now apply IH.
Qed.

(** X14.  A [return] ends the body of a method where it stands: when the
    statements before it have run and its expression has given a value, the
    [MethodBody] of a [Compound] returns that value in the state the
    expression has left, and none of the statements after the [return] is
    executed, whatever they are. *)
Theorem Return_ends_the_method_body (fuel : nat) (pre post : list Statement)
    (e : Statement) (s s1 s2 : Closure * World) (value : ObjectHolder) :
  ast.execute_all (ast.Execute (S fuel)) pre s = (Normal tt, s1) ->
  ast.Execute fuel e s1 = (Normal value, s2) ->
  ast.Execute (S (S (S fuel))) (MethodBody (Compound (pre ++ Return e :: post))) s
  = (Normal value, s2).
Proof.
  intros Hpre He.
  assert (ast.Execute (S (S fuel)) (Compound (pre ++ Return e :: post)) s
          = (Fail (ReturnException value), s2)) as H.
  { rewrite Execute_S. simpl ast.node. apply bind_Fail.
    rewrite (execute_all_app _ _ _ _ _ Hpre). simpl ast.execute_all.
    apply bind_Fail. erewrite bind_Normal by exact He. reflexivity. }
  rewrite Execute_S. unfold ast.node. now rewrite H.
Qed.

Lemma Return_ends_the_method_body_witness :
  ast.Execute 5
    (MethodBody (Compound ([Assignment "y" (VariableValue ["x"])]
                             ++ Return (VariableValue ["y"]) :: [print_x])))
    (sample_closure, empty_world)
  = (Normal (Own (Number 1)), (<["y" := Own (Number 1)]> sample_closure, empty_world)).
Proof.
  apply (Return_ends_the_method_body 2 [Assignment "y" (VariableValue ["x"])] [print_x]
           (VariableValue ["y"]) (sample_closure, empty_world)
           (<["y" := Own (Number 1)]> sample_closure, empty_world));
    vm_compute; reflexivity.
Defined.

(** X15.  No [ReturnException] leaves a [MethodBody]: whatever the body
    does, the node does not end with the exception of a [return].  When it
    ends normally, its value is the one a [return] of the body has thrown, or
    it is empty and the body has ended without a [return]. *)
Theorem MethodBody_catches_Return (fuel : nat) (body : Statement) (s s' : Closure * World)
    (r : Outcome ObjectHolder) :
  ast.Execute (S fuel) (MethodBody body) s = (r, s') ->
  (forall value, r <> Fail (ReturnException value)) /\
  (forall value, r = Normal value ->
     ast.Execute fuel body s = (Fail (ReturnException value), s') \/
     value = Empty /\ exists ignored, ast.Execute fuel body s = (Normal ignored, s')).
Proof.
  rewrite Execute_S. simpl ast.node.
  destruct (ast.Execute fuel body s) as [[v|f] s0] eqn:E.
  - intros H. injection H as <- <-. split; [discriminate|].
    intros value Hv. injection Hv as <-. right. split; [reflexivity | now exists v].
  - destruct f; intros H; injection H as <- <-; split; try discriminate.
    intros value Hv. injection Hv as <-. now left.
Qed.

Lemma MethodBody_catches_Return_witness :
  Normal (Own (Number 1)) <> Fail (ReturnException (Own (Number 1))).
Proof.
  apply (proj1 (MethodBody_catches_Return 2 (Return (VariableValue ["x"]))
                  (sample_closure, empty_world) (sample_closure, empty_world)
                  (Normal (Own (Number 1))) eq_refl)).
Defined.

(** X16.  A call of a method the object does not have is no error in
    [MethodCall]: the call returns the empty holder, in the state the object
    expression has left; the arguments are not evaluated, and the exception
    [Not implemented] of [ClassInstance::Call] is not seen.  This is so when
    the object expression, whatever it is, gives something that is no class
    instance, and when it is a variable or dotted name whose holder owns an
    instance of a class that has no method of the name with as many
    parameters as the call has arguments.  (The holder that the name stands
    for keeps the instance alive while the method is looked up.) *)
Theorem MethodCall_without_method_is_None (fuel : nat) (object : Statement)
    (method : string) (args : list Statement) (s s1 : Closure * World) (oh : ObjectHolder) :
  ast.Execute fuel object s = (Normal oh, s1) ->
  TryAs_ClassInstance oh = None \/
  (exists ids class_ fields_,
      object = VariableValue ids /\ oh = Own (ClassInstance class_ fields_) /\
      runtime.HasMethod class_ method (length args) = false) ->
  ast.Execute (S fuel) (MethodCall object method args) s = (Normal Empty, s1).
Proof.
  intros Hobj Hno. rewrite Execute_S. simpl ast.node.
  erewrite bind_Normal by exact Hobj.
  destruct Hno as [-> | (ids & class_ & fields_ & _ & -> & Hhas)]; [reflexivity|].
  simpl. now rewrite Hhas.
Qed.

Lemma MethodCall_without_method_is_None_witness :
  ast.Execute 2 (MethodCall (VariableValue ["a"]) "get" [print_x; print_x])
    (<["a" := Own (ClassInstance class_Same 0)]> sample_closure, one_instance)
  = (Normal Empty, (<["a" := Own (ClassInstance class_Same 0)]> sample_closure, one_instance)) /\
  ast.Execute 2 (MethodCall (VariableValue ["x"]) "get" [print_x])
    (sample_closure, empty_world)
  = (Normal Empty, (sample_closure, empty_world)).
Proof.
  split.
  - apply (MethodCall_without_method_is_None 1 (VariableValue ["a"]) "get" [print_x; print_x]
             (<["a" := Own (ClassInstance class_Same 0)]> sample_closure, one_instance)
             (<["a" := Own (ClassInstance class_Same 0)]> sample_closure, one_instance)
             (Own (ClassInstance class_Same 0))); [vm_compute; reflexivity|].
    right. exists ["a"], class_Same, 0%nat. split; [reflexivity|]. split; reflexivity.
  - apply (MethodCall_without_method_is_None 1 (VariableValue ["x"]) "get" [print_x]
             (sample_closure, empty_world) (sample_closure, empty_world)
             (Own (Number 1))); [vm_compute; reflexivity|].
    left. reflexivity.
Defined.

(** X17.  [NewInstance] and [__init__].  The node makes an instance with
    no fields.  When the class has no [__init__] with as many parameters as
    the node has arguments, also when it has one with another number of
    parameters, that instance is returned and nothing else is done: the
    arguments are not evaluated, nothing is written and no error is raised.
    When it has one, the arguments are evaluated, after the instance was
    made, and [__init__] is called on the instance with them: what the call
    returns is dropped and the instance is returned, and an exception that
    leaves the call leaves the node. *)
Theorem NewInstance_init_by_arity (fuel : nat) (class_ : Class) (args : list Statement)
    (c : Closure) (w : World) :
  let fields_ := length (heap w) in
  let made := mk_World (heap w ++ [∅]) (output w) in
  (runtime.HasMethod class_ ast.INIT_METHOD (length args) = false ->
   ast.Execute (S fuel) (NewInstance class_ args) (c, w)
   = (Normal (Own (ClassInstance class_ fields_)), (c, made))) /\
  (runtime.HasMethod class_ ast.INIT_METHOD (length args) = true ->
   forall actual_args c1 w1 r w2,
     ast.GetActualArgs (ast.Execute fuel) args (c, made) = (Normal actual_args, (c1, w1)) ->
     runtime.Call (ast.Execute fuel) class_ fields_ ast.INIT_METHOD actual_args w1 = (r, w2) ->
     ast.Execute (S fuel) (NewInstance class_ args) (c, w)
     = (match r with
        | Normal _ => Normal (Own (ClassInstance class_ fields_))
        | Fail f => Fail f
        end, (c1, w2))).
Proof.
  cbv zeta. split.
  - intros Hinit. rewrite Execute_S. simpl ast.node.
    erewrite bind_Normal by (apply lift_eq; reflexivity). now rewrite Hinit.
  - intros Hinit actual_args c1 w1 r w2 Hargs Hcall. rewrite Execute_S. simpl ast.node.
    erewrite bind_Normal by (apply lift_eq; reflexivity). rewrite Hinit.
    erewrite bind_Normal by exact Hargs. unfold bind.
    rewrite (lift_eq _ _ _ _ _ Hcall). now destruct r.
Qed.

(** [class Init: def __init__(self, v): self.n = v; return v]. *)
Definition class_Init : Class :=
  mk_Class "Init"
    [mk_Method "__init__" ["v"]
       (MethodBody (Compound [FieldAssignment ["self"] "n" (VariableValue ["v"]);
                              Return (VariableValue ["v"])]))]
    None.

Lemma NewInstance_init_by_arity_witness :
  ast.Execute 1 (NewInstance class_Plain [print_x]) (sample_closure, one_instance)
  = (Normal (Own (ClassInstance class_Plain 1)), (sample_closure, mk_World [∅; ∅] "")) /\
  ast.Execute 6 (NewInstance class_Init [VariableValue ["x"]]) (sample_closure, empty_world)
  = (Normal (Own (ClassInstance class_Init 0)),
     (sample_closure, mk_World [<["n" := Own (Number 1)]> ∅] "")).
Proof.
  split.
  - apply (proj1 (NewInstance_init_by_arity 0 class_Plain [print_x] sample_closure
                    one_instance)).
    reflexivity.
  - apply (proj2 (NewInstance_init_by_arity 5 class_Init [VariableValue ["x"]]
                    sample_closure empty_world) eq_refl
             [Own (Number 1)] sample_closure (mk_World [∅] "")
             (Normal (Own (Number 1))) (mk_World [<["n" := Own (Number 1)]> ∅] ""));
      vm_compute; reflexivity.
Defined.

(** ** [print] and [str] *)

(** X18.  [print] of one argument writes what [str] of it returns.  When
    [Stringify a] returns the text [text], [Print [a]] run in the same state
    appends [text] and a line break to the output, changes nothing else that
    [Stringify a] has not changed, and returns the text with the line
    break. *)
Theorem Print_one_is_Stringify (fuel : nat) (a : Statement) (s : Closure * World)
    (text : string) (c1 : Closure) (w1 : World) :
  ast.Execute (S fuel) (Stringify a) s = (Normal (Own (String text)), (c1, w1)) ->
  ast.Execute (S fuel) (Print [a]) s
  = (Normal (Own (String (text ++ nl))),
     (c1, mk_World (heap w1) (output w1 ++ text ++ nl))).
Proof.
  rewrite !Execute_S. simpl ast.node. simpl ast.print_arguments. unfold bind.
  destruct (ast.Execute fuel a s) as [[oh|f] s0]; [|discriminate].
  destruct (lift _ s0) as [[os|f] [c2 w2]]; [|discriminate].
  intros H. injection H as <- <- <-. reflexivity.
Qed.

Lemma Print_one_is_Stringify_witness :
  ast.Execute 2 print_x (sample_closure, mk_World [] "a")
  = (Normal (Own (String ("1" ++ nl))), (sample_closure, mk_World [] ("a" ++ "1" ++ nl))).
Proof.
  apply (Print_one_is_Stringify 1 (VariableValue ["x"]) (sample_closure, mk_World [] "a")
           "1" sample_closure (mk_World [] "a")).
  vm_compute. reflexivity.
Defined.



(** ** Comparisons of values of one primitive type *)

(** The order of [std::string]: the first place at which two texts differ
    decides, by the codes of the characters there, and a text comes before
    the texts it is a proper beginning of. *)
Inductive lexicographic : list ascii -> list ascii -> Prop :=
| lex_prefix (c : ascii) (l : list ascii) : lexicographic [] (c :: l)
| lex_first (c d : ascii) (l m : list ascii) :
    (N_of_ascii c < N_of_ascii d)%N -> lexicographic (c :: l) (d :: m)
| lex_rest (c : ascii) (l m : list ascii) :
    lexicographic l m -> lexicographic (c :: l) (c :: m).

(** The natural order of the values of one primitive type: [False] before
    [True], the order of the integers, the order of strings. *)
Inductive natural_less : Object -> Object -> Prop :=
| less_Bool : natural_less (Bool false) (Bool true)
| less_Number (a b : Z) : a < b -> natural_less (Number a) (Number b)
| less_String (a b : string) :
    lexicographic (list_ascii_of_string a) (list_ascii_of_string b) ->
    natural_less (String a) (String b).

(** Two Bools, two Numbers or two Strings. *)
Definition same_kind (a b : Object) : Prop :=
  match a, b with
  | Bool _, Bool _ | Number _, Number _ | String _, String _ => True
  | _, _ => False
  end.

(** Exactly one of three answers is [true]. *)
Definition one_of_three (a b c : bool) : Prop :=
  (a = true /\ b = false /\ c = false) \/
  (a = false /\ b = true /\ c = false) \/
  (a = false /\ b = false /\ c = true).

Lemma lexicographic_trans (l m k : list ascii) :
  lexicographic l m -> lexicographic m k -> lexicographic l k.
Proof.
  intros H. revert k. induction H as [c l | c d l m Hcd | c l m H IH]; intros k Hk.
  - inversion Hk; subst; constructor.
  - inversion Hk as [| d' e m' k' Hde | d' m' k' Hmk]; subst.
    + apply lex_first. lia.
    + now apply lex_first.
  - inversion Hk as [| c' e m' k' Hce | c' m' k' Hmk]; subst.
    + now apply lex_first.
    + apply lex_rest. now apply IH.
Qed.

Lemma ltb_lexicographic (a b : string) :
  String.ltb a b = true <->
  lexicographic (list_ascii_of_string a) (list_ascii_of_string b).
Proof.
  unfold String.ltb. revert b. induction a as [|c a IH]; intros [|d b]; simpl.
  - split; [discriminate | intros H; inversion H].
  - split; [constructor | reflexivity].
  - split; [discriminate | intros H; inversion H].
  - unfold Ascii.compare. destruct (N.compare_spec (N_of_ascii c) (N_of_ascii d)) as [E | E | E].
    + assert (c = d) as -> by (rewrite <- (ascii_N_embedding c), E; apply ascii_N_embedding).
      rewrite IH. split; [apply lex_rest|].
      intros H. inversion H as [| ? ? ? ? Hlt | ? ? ? Hrest]; subst; [lia | exact Hrest].
    + split; [intros _; now apply lex_first | reflexivity].
    + split; [discriminate|].
      intros H. inversion H as [| ? ? ? ? Hlt | ? ? ? Hrest]; subst; lia.
Qed.

Lemma natural_less_trans (a b c : Object) :
  natural_less a b -> natural_less b c -> natural_less a c.
Proof.
  intros Hab Hbc. destruct Hab as [| x y Hxy | x y Hxy].
  - inversion Hbc.
  - inversion Hbc; subst. constructor. lia.
  - inversion Hbc; subst. constructor. eapply lexicographic_trans; eassumption.
Qed.

Lemma string_compare_refl (s : string) : String.compare s s = Eq.
Proof.
  pose proof (String.compare_antisym s s) as H.
  destruct (String.compare s s); [reflexivity | discriminate | discriminate].
Qed.

Lemma string_order (a b : string) :
  one_of_three (String.ltb a b) (String.eqb a b) (String.ltb b a).
Proof.
  unfold one_of_three, String.ltb. rewrite (String.compare_antisym a b).
  destruct (String.eqb_spec a b) as [->|Hne].
  - rewrite string_compare_refl. simpl. right. left. now repeat split.
  - destruct (String.compare b a) eqn:E; simpl.
    + apply String.compare_eq_iff in E. congruence.
    + right. right. now repeat split.
    + left. now repeat split.
Qed.

Lemma number_order (a b : Z) : one_of_three (Z.ltb a b) (Z.eqb a b) (Z.ltb b a).
Proof.
  unfold one_of_three.
  destruct (Z.ltb_spec a b), (Z.eqb_spec a b), (Z.ltb_spec b a);
    first [ exfalso; lia
          | left; now repeat split
          | right; left; now repeat split
          | right; right; now repeat split ].
Qed.

Lemma bool_order (a b : bool) :
  one_of_three (runtime.bool_ltb a b) (Bool.eqb a b) (runtime.bool_ltb b a).
Proof.
  unfold one_of_three. destruct a, b; simpl;
    [right; left | right; right | left | right; left]; now repeat split.
Qed.

Lemma one_of_three_Greater (a b c : bool) :
  one_of_three a b c -> (if negb a then negb b else false) = c /\ (a || b)%bool = negb c.
Proof.
  intros [(-> & -> & ->) | [(-> & -> & ->) | (-> & -> & ->)]]; now split.
Qed.

(** [Less] and [Equal] on two values of one primitive type: the answers of
    the order and of equality, with nothing done. *)
Lemma Less_primitive (exec : Statement -> M (Closure * World) ObjectHolder)
    (lhs rhs : ObjectHolder) (a b : Object) (w : World) :
  Get lhs = Some a -> Get rhs = Some b -> same_kind a b ->
  exists less,
    runtime.Less exec lhs rhs w = (Normal less, w) /\
    (less = true <-> natural_less a b).
Proof.
  intros Hl Hr Hkind.
  unfold runtime.Less, runtime.SameType, TryAs_Bool, TryAs_Number, TryAs_String.
  rewrite Hl, Hr.
  destruct a as [x|x|x| |], b as [y|y|y| |]; try contradiction; simpl.
  - exists (Z.ltb x y). split; [reflexivity|]. rewrite Z.ltb_lt.
    split; [now constructor | intros H; now inversion H].
  - exists (String.ltb x y). split; [reflexivity|]. rewrite ltb_lexicographic.
    split; [now constructor | intros H; now inversion H].
  - exists (runtime.bool_ltb x y). split; [reflexivity|].
    destruct x, y; simpl; split; intros H; try discriminate; try constructor;
      inversion H.
Qed.

Lemma Equal_primitive (exec : Statement -> M (Closure * World) ObjectHolder)
    (lhs rhs : ObjectHolder) (a b : Object) (w : World) :
  Get lhs = Some a -> Get rhs = Some b -> same_kind a b ->
  exists equal,
    runtime.Equal exec lhs rhs w = (Normal equal, w) /\
    (equal = true <-> a = b).
Proof.
  intros Hl Hr Hkind.
  unfold runtime.Equal, runtime.SameType, TryAs_Bool, TryAs_Number, TryAs_String.
  rewrite Hl, Hr.
  replace (has_object lhs) with true by (now destruct lhs).
  destruct a as [x|x|x| |], b as [y|y|y| |]; try contradiction; simpl.
  - exists (Z.eqb x y). split; [reflexivity|]. rewrite Z.eqb_eq.
    split; [now intros -> | now intros [= ->]].
  - exists (String.eqb x y). split; [reflexivity|]. rewrite String.eqb_eq.
    split; [now intros -> | now intros [= ->]].
  - exists (Bool.eqb x y). split; [reflexivity|]. rewrite Bool.eqb_true_iff.
    split; [now intros -> | now intros [= ->]].
Qed.

Lemma natural_order (a b : Object) (less equal greater : bool) :
  same_kind a b ->
  (less = true <-> natural_less a b) ->
  (equal = true <-> a = b) ->
  (greater = true <-> natural_less b a) ->
  one_of_three less equal greater.
Proof.
  intros Hkind HL HE HG.
  assert (exists l e g, one_of_three l e g /\
                        (l = true <-> natural_less a b) /\ (e = true <-> a = b) /\
                        (g = true <-> natural_less b a)) as (l & e & g & Hone & Hl & He & Hg).
  { destruct a as [x|x|x| |], b as [y|y|y| |]; try contradiction.
    - exists (Z.ltb x y), (Z.eqb x y), (Z.ltb y x).
      split; [apply number_order|]. rewrite !Z.ltb_lt, Z.eqb_eq.
      repeat split; try (now constructor); try (intros H; now inversion H); now intros ->.
    - exists (String.ltb x y), (String.eqb x y), (String.ltb y x).
      split; [apply string_order|]. rewrite !ltb_lexicographic, String.eqb_eq.
      repeat split; try (now constructor); try (intros H; now inversion H); now intros ->.
    - exists (runtime.bool_ltb x y), (Bool.eqb x y), (runtime.bool_ltb y x).
      split; [apply bool_order|].
      destruct x, y; simpl; repeat split; intros H; try discriminate;
        try constructor; try reflexivity; inversion H. }
  replace less with l by (destruct l, less; tauto || (exfalso; intuition discriminate)).
  replace equal with e by (destruct e, equal; tauto || (exfalso; intuition discriminate)).
  replace greater with g by (destruct g, greater; tauto || (exfalso; intuition discriminate)).
  exact Hone.
Qed.

(** X20.  On three Bools, three Numbers or three Strings the comparisons
    are those of the natural order of the type, which is a total order:
    [False] before [True], the order of the integers, the order of strings by
    the codes of their characters.  [Less] and [Equal] do not fail and change
    nothing; [Less(lhs, rhs)] is true exactly when the value of [lhs] comes
    before the value of [rhs], and [Equal(lhs, rhs)] exactly when the two
    values are the same; exactly one of [Less(lhs, rhs)], [Equal(lhs, rhs)]
    and [Less(rhs, lhs)] is true; [Less] is transitive; [Greater(lhs, rhs)]
    is [Less(rhs, lhs)] and [LessOrEqual(lhs, rhs)] is
    [GreaterOrEqual(rhs, lhs)].  Whether a holder owns or shares its object
    makes no difference. *)
Theorem primitive_comparisons_total_order (fuel : nat) (lhs rhs third : ObjectHolder)
    (a b c : Object) (w : World) :
  Get lhs = Some a -> Get rhs = Some b -> Get third = Some c ->
  same_kind a b -> same_kind b c ->
  let exec := ast.Execute fuel in
  exists less equal greater,
    runtime.Less exec lhs rhs w = (Normal less, w) /\
    runtime.Equal exec lhs rhs w = (Normal equal, w) /\
    runtime.Less exec rhs lhs w = (Normal greater, w) /\
    (less = true <-> natural_less a b) /\
    (equal = true <-> a = b) /\
    (greater = true <-> natural_less b a) /\
    one_of_three less equal greater /\
    (less = true ->
     runtime.Less exec rhs third w = (Normal true, w) ->
     runtime.Less exec lhs third w = (Normal true, w)) /\
    runtime.Greater exec lhs rhs w = (Normal greater, w) /\
    runtime.LessOrEqual exec lhs rhs w = runtime.GreaterOrEqual exec rhs lhs w.
Proof.
  intros Hl Hr Ht Hab Hbc exec.
  assert (same_kind b a) as Hba by (destruct a, b; try contradiction; exact I).
  assert (same_kind a c) as Hac by (destruct a, b, c; try contradiction; exact I).
  destruct (Less_primitive exec lhs rhs a b w Hl Hr Hab) as (less & HL & Hless).
  destruct (Equal_primitive exec lhs rhs a b w Hl Hr Hab) as (equal & HE & Hequal).
  destruct (Less_primitive exec rhs lhs b a w Hr Hl Hba) as (greater & HG & Hgreater).
  pose proof (natural_order a b less equal greater Hab Hless Hequal Hgreater) as Hone.
  exists less, equal, greater.
  split; [exact HL|]. split; [exact HE|]. split; [exact HG|].
  split; [exact Hless|]. split; [exact Hequal|]. split; [exact Hgreater|].
  split; [exact Hone|]. split; [|].
  - intros Htrue Hbc_true.
    destruct (Less_primitive exec rhs third b c w Hr Ht Hbc) as (l2 & HL2 & Hl2).
    destruct (Less_primitive exec lhs third a c w Hl Ht Hac) as (l3 & HL3 & Hl3).
    rewrite HL2 in Hbc_true. injection Hbc_true as ->.
    rewrite HL3. f_equal. f_equal. apply Hl3.
    apply (natural_less_trans a b c); [now apply Hless | now apply Hl2].
  - destruct (one_of_three_Greater _ _ _ Hone) as [Hgt Hle].
    unfold runtime.Greater, runtime.LessOrEqual, runtime.GreaterOrEqual,
      and_then, or_else, not_, bind, ret.
    rewrite HL, HG. split.
    + destruct less; simpl in *; [now rewrite <- Hgt|]. rewrite HE. now rewrite <- Hgt.
    + destruct less; simpl in *; [now rewrite <- Hle|]. rewrite HE. now rewrite <- Hle.
Qed.

Lemma primitive_comparisons_total_order_witness :
  exists less equal greater,
    runtime.Less (ast.Execute 1) (Own (String "ab")) (Share (String "b")) empty_world
    = (Normal less, empty_world) /\
    runtime.Equal (ast.Execute 1) (Own (String "ab")) (Share (String "b")) empty_world
    = (Normal equal, empty_world) /\
    runtime.Less (ast.Execute 1) (Share (String "b")) (Own (String "ab")) empty_world
    = (Normal greater, empty_world) /\
    (less = true <-> natural_less (String "ab") (String "b")) /\
    (equal = true <-> String "ab" = String "b") /\
    (greater = true <-> natural_less (String "b") (String "ab")) /\
    one_of_three less equal greater /\
    (less = true ->
     runtime.Less (ast.Execute 1) (Share (String "b")) (Own (String "ba")) empty_world
     = (Normal true, empty_world) ->
     runtime.Less (ast.Execute 1) (Own (String "ab")) (Own (String "ba")) empty_world
     = (Normal true, empty_world)) /\
    runtime.Greater (ast.Execute 1) (Own (String "ab")) (Share (String "b")) empty_world
    = (Normal greater, empty_world) /\
    runtime.LessOrEqual (ast.Execute 1) (Own (String "ab")) (Share (String "b")) empty_world
    = runtime.GreaterOrEqual (ast.Execute 1) (Share (String "b")) (Own (String "ab"))
        empty_world.
Proof.
  apply (primitive_comparisons_total_order 1 (Own (String "ab")) (Share (String "b"))
           (Own (String "ba")) (String "ab") (String "b") (String "ba") empty_world);
    first [reflexivity | exact I].
Defined.

(** X21.  [Equal] does not depend on the order of its arguments as long
    as neither is a class instance: the result, a truth value or the
    exception, is the same for [Equal(lhs, rhs)] and [Equal(rhs, lhs)].  (With
    an instance on the left its [__eq__] decides, with one on the right only
    it is never asked.) *)
Theorem Equal_symmetric_without_instances (fuel : nat) (lhs rhs : ObjectHolder) (w : World) :
  TryAs_ClassInstance lhs = None ->
  TryAs_ClassInstance rhs = None ->
  runtime.Equal (ast.Execute fuel) lhs rhs w = runtime.Equal (ast.Execute fuel) rhs lhs w.
Proof.
  intros Hl Hr. unfold runtime.Equal, runtime.SameType.
  rewrite Hl, Hr. clear Hl Hr.
  destruct lhs as [|[a|a|a|a|a l]|[a|a|a|a|a l]], rhs as [|[b|b|b|b|b l']|[b|b|b|b|b l']];
    simpl; try reflexivity;
    first [ now rewrite Z.eqb_sym | now rewrite String.eqb_sym
          | now destruct a, b ].
Qed.

Lemma Equal_symmetric_without_instances_witness :
  runtime.Equal (ast.Execute 1) (Own (Number 1)) Empty empty_world
  = runtime.Equal (ast.Execute 1) Empty (Own (Number 1)) empty_world.
Proof.
  apply (Equal_symmetric_without_instances 1 (Own (Number 1)) Empty empty_world);
    reflexivity.
Defined.

(** X22.  [runtime::IsTrue] holds of exactly three kinds of objects: the
    Bool [True], a Number other than zero and a String that is not empty.
    The empty holder, a class and every class instance are not true, and
    owning or sharing the object makes no difference. *)
Theorem IsTrue_characterised (object : ObjectHolder) :
  runtime.IsTrue object = true <->
  Get object = Some (Bool true) \/
  (exists n, Get object = Some (Number n) /\ n <> 0) \/
  (exists s, Get object = Some (String s) /\ s <> "").
Proof.
  unfold runtime.IsTrue, TryAs_Bool, TryAs_Number, TryAs_String.
  destruct (Get object) as [[n|s|b|c|c l]|]; split.
  - intros H. right. left. exists n. split; [reflexivity|].
    apply negb_true_iff, Z.eqb_neq in H. exact H.
  - intros [H | [(m & H & Hm) | (t & H & _)]]; try discriminate.
    injection H as ->. apply negb_true_iff, Z.eqb_neq. exact Hm.
  - intros H. right. right. exists s. split; [reflexivity|].
    apply negb_true_iff, String.eqb_neq in H. exact H.
  - intros [H | [(m & H & _) | (t & H & Ht)]]; try discriminate.
    injection H as ->. apply negb_true_iff, String.eqb_neq. exact Ht.
  - intros ->. now left.
  - intros [H | [(m & H & _) | (t & H & _)]]; try discriminate. now injection H as ->.
  - discriminate.
  - intros [H | [(m & H & _) | (t & H & _)]]; discriminate.
  - discriminate.
  - intros [H | [(m & H & _) | (t & H & _)]]; discriminate.
  - discriminate.
  - intros [H | [(m & H & _) | (t & H & _)]]; discriminate.
Qed.

(** ** The closure of a call *)

Lemma bind_arguments_bound (ps : list string) :
  forall (args : list ObjectHolder) (closure : Closure) (i : nat) (p : string)
         (a : ObjectHolder),
    NoDup ps -> ps !! i = Some p -> args !! i = Some a ->
    runtime.bind_arguments ps args closure !! p = Some a.
Proof.
  induction ps as [|p0 ps IH]; intros args closure i p a Hnd Hp Ha; [discriminate|].
  destruct args as [|a0 args]; [discriminate|].
  apply NoDup_cons in Hnd as [Hnotin Hnd]. simpl.
  destruct i as [|i]; simpl in Hp, Ha.
  - injection Hp as ->. injection Ha as ->.
    rewrite bind_arguments_lookup by (now rewrite <- list_elem_of_In).
    apply lookup_insert_eq.
  - now apply (IH args _ i).
Qed.

(** X23.  The closure a method body starts in.  For a method whose
    parameters have distinct names, [self] is bound to a holder sharing the
    receiver, each parameter other than [self] to the argument at its place,
    and no other name is bound: nothing of the closure of the caller is seen
    in the body. *)
Theorem method_closure_bindings (class_ : Class) (fields_ : nat) (method : Method)
    (actual_args : list ObjectHolder) :
  NoDup (Method_formal_params method) ->
  let closure := runtime.method_closure class_ fields_ method actual_args in
  closure !! "self" = Some (Share (ClassInstance class_ fields_)) /\
  (forall i p a,
      Method_formal_params method !! i = Some p -> actual_args !! i = Some a ->
      p <> "self" -> closure !! p = Some a) /\
  (forall name,
      name <> "self" -> ~ In name (Method_formal_params method) -> closure !! name = None).
Proof.
  intros Hnd closure. split; [apply method_closure_self|]. split.
  - intros i p a Hp Ha Hself. unfold closure, runtime.method_closure.
    rewrite lookup_insert_ne by congruence.
    now apply (bind_arguments_bound _ _ _ i).
  - intros name Hself Hnot. now apply method_closure_fresh.
Qed.

Lemma method_closure_bindings_witness :
  runtime.method_closure class_Same 0
    (mk_Method "get" ["v"] (MethodBody (Return (VariableValue ["v"])))) [Own (Number 7)]
    !! "v" = Some (Own (Number 7)).
Proof.
  assert (NoDup (Method_formal_params
                   (mk_Method "get" ["v"] (MethodBody (Return (VariableValue ["v"]))))))
    as Hnd by (simpl; apply NoDup_singleton).
  apply (proj1 (proj2 (method_closure_bindings class_Same 0 _ [Own (Number 7)] Hnd))
           0%nat "v" (Own (Number 7))); [reflexivity | reflexivity | discriminate].
Defined.

(** ** Division *)

Lemma quot_in_int_range (a b : Z) :
  in_int_range a = true -> in_int_range b = true -> b <> 0 ->
  in_int_range (Z.quot a b) = negb (Z.eqb a parse.INT_MIN && Z.eqb b (-1))%bool.
Proof.
  unfold in_int_range, parse.INT_MIN, parse.INT_MAX.
  intros Ha Hb Hb0.
  apply andb_true_iff in Ha as [Ha1 Ha2]. apply andb_true_iff in Hb as [Hb1 Hb2].
  apply Z.leb_le in Ha1, Ha2, Hb1, Hb2.
  destruct (Z.eqb_spec a (-2147483648)) as [->|Ha].
  - destruct (Z.eqb_spec b (-1)) as [->|Hb]; [reflexivity|]. simpl negb.
    apply andb_true_iff. rewrite !Z.leb_le.
    pose proof (Z.quot_abs (-2147483648) b Hb0) as Habs.
    pose proof (Z.quot_le_compat_l (Z.abs (-2147483648)) 1 (Z.abs b)) as H1.
    rewrite Z.quot_1_r in H1.
    destruct (Z.eq_dec b 1) as [->|Hb1']; [rewrite Z.quot_1_r; lia|].
    pose proof (Z.quot_le_compat_l (Z.abs (-2147483648)) 2 (Z.abs b)) as H2.
    change (Z.abs (-2147483648) ÷ 2) with 1073741824 in H2.
    lia.
  - simpl negb. apply andb_true_iff. rewrite !Z.leb_le.
    pose proof (Z.quot_abs a b Hb0) as Habs.
    pose proof (Z.quot_le_compat_l (Z.abs a) 1 (Z.abs b)) as H1.
    rewrite Z.quot_1_r in H1. lia.
Qed.

(** X24.  Division of Numbers.  When the operands evaluate, first the
    left and then the right, to two Numbers of the range of [int], [Div]
    changes nothing after them and: fails with
    [std::runtime_error("Cannot div by zero")] when the divisor is zero;
    otherwise returns the quotient rounded toward zero, which is again in the
    range of [int] but in the one case of the least [int] divided by [-1],
    where the division overflows. *)
Theorem Div_of_Numbers (fuel : nat) (lhs rhs : Statement) (s s1 s2 : Closure * World)
    (lhs_oh rhs_oh : ObjectHolder) (a b : Z) :
  ast.Execute fuel lhs s = (Normal lhs_oh, s1) ->
  ast.Execute fuel rhs s1 = (Normal rhs_oh, s2) ->
  TryAs_Number lhs_oh = Some a ->
  TryAs_Number rhs_oh = Some b ->
  in_int_range a = true ->
  in_int_range b = true ->
  ast.Execute (S fuel) (Div lhs rhs) s
  = (if Z.eqb b 0 then Fail (RuntimeError "Cannot div by zero")
     else if (Z.eqb a parse.INT_MIN && Z.eqb b (-1))%bool then Fail UndefinedBehaviour
          else Normal (Own (Number (Z.quot a b))),
     s2) /\
  (b <> 0 -> (a <> parse.INT_MIN \/ b <> -1) ->
   parse.INT_MIN <= Z.quot a b <= parse.INT_MAX /\ Z.abs (Z.quot a b) <= Z.abs a).
Proof.
  intros Hl Hr Ha Hb Hra Hrb. split.
  - rewrite Execute_S. simpl ast.node. unfold ast.arithmetic, ast.operands.
    erewrite bind_Normal;
      [|erewrite bind_Normal by exact Hl; erewrite bind_Normal by exact Hr;
        assert (has_object lhs_oh = true /\ has_object rhs_oh = true) as [-> ->]
          by (unfold TryAs_Number in *; destruct lhs_oh, rhs_oh; try discriminate; now split);
        reflexivity].
    cbv beta iota. rewrite Ha, Hb. destruct (Z.eqb_spec b 0) as [->|Hb0]; [reflexivity|].
    unfold int_result. rewrite (quot_in_int_range a b Hra Hrb Hb0).
    now destruct (_ && _)%bool.
  - intros Hb0 Hnot.
    pose proof (quot_in_int_range a b Hra Hrb Hb0) as Hq.
    assert ((Z.eqb a parse.INT_MIN && Z.eqb b (-1))%bool = false) as Hf.
    { apply andb_false_iff. destruct Hnot as [H|H]; [left | right]; now apply Z.eqb_neq. }
    rewrite Hf in Hq. unfold in_int_range in Hq.
    apply andb_true_iff in Hq as [H1 H2]. apply Z.leb_le in H1, H2.
    split; [lia|].
    rewrite <- (Z.quot_abs a b Hb0).
    pose proof (Z.quot_le_compat_l (Z.abs a) 1 (Z.abs b)) as Hle.
    rewrite Z.quot_1_r in Hle. lia.
Qed.

Lemma Div_of_Numbers_witness :
  ast.Execute 3 (Div (VariableValue ["x"]) (Sub (VariableValue ["x"]) (VariableValue ["x"])))
    (sample_closure, empty_world)
  = (Fail (RuntimeError "Cannot div by zero"), (sample_closure, empty_world)) /\
  ast.Execute 2 (Div (VariableValue ["m"]) (VariableValue ["n"]))
    (<["m" := Own (Number (-7))]> (<["n" := Own (Number 2)]> ∅), empty_world)
  = (Normal (Own (Number (-3))),
     (<["m" := Own (Number (-7))]> (<["n" := Own (Number 2)]> ∅), empty_world)).
Proof.
  split.
  - refine (proj1 (Div_of_Numbers 2 (VariableValue ["x"])
                    (Sub (VariableValue ["x"]) (VariableValue ["x"]))
                    (sample_closure, empty_world) (sample_closure, empty_world)
                    (sample_closure, empty_world) (Own (Number 1)) (Own (Number 0)) 1 0 _ _ _ _ _ _));
      vm_compute; reflexivity.
  - refine (proj1 (Div_of_Numbers 1 (VariableValue ["m"]) (VariableValue ["n"])
                    (<["m" := Own (Number (-7))]> (<["n" := Own (Number 2)]> ∅), empty_world)
                    (<["m" := Own (Number (-7))]> (<["n" := Own (Number 2)]> ∅), empty_world)
                    (<["m" := Own (Number (-7))]> (<["n" := Own (Number 2)]> ∅), empty_world)
                    (Own (Number (-7))) (Own (Number 2)) (-7) 2 _ _ _ _ _ _));
      vm_compute; reflexivity.
Defined.
